(** * A shallow embedding of [advanced-vector/vector.h]

    The header defines two class templates: [RawMemory<T>], which owns one
    block of raw memory sized for a number of elements, and [Vector<T>],
    the growable array built on it.

    The embedding is a small state-and-exception monad over

    - a store of [Vector] objects, addressed by object identity, so that
      [this != &rhs] is a comparison of identities;
    - a heap of raw blocks; each cell of a block is either raw memory
      ([None]) or a live object of the element type ([Some x]);
    - a log of the element-level operations that ran (constructors,
      assignments, destructors), which plays the role of an instrumented
      element type.

    A computation ends in one of three ways: it returns ([Done]), an
    exception of the element type propagates ([Throw]), or it leaves the
    defined behaviour of the language: a failed [assert], an access outside
    a block, a read of raw memory as an object, an invalid iterator range
    ([Undefined]).

    Modelling assumptions, fixed here once:
    - [size_t] values are natural numbers; every size in a state reached
      without [Undefined] is bounded by the length of a block, so none of
      the arithmetic of the header wraps, and a pointer that would move
      before the start of its block is [Undefined];
    - [operator new] always succeeds;
    - copying an element yields an equal element, and moving one yields
      the moved value and leaves [moved_from x] behind;
    - an argument passed by reference does not alias the storage of the
      vector it is passed to. *)

From stdpp Require Import base option list gmap fin_maps.

Set Default Proof Using "Type".

Definition addr := nat.
Definition oid := nat.

(** [T*]: a block (or the null pointer) and an element offset into it. *)
Record ptr := Ptr { base : option addr; off : nat }.

Definition ptr_add (p : ptr) (n : nat) : ptr := Ptr (base p) (off p + n).
Infix "+ₚ" := ptr_add (at level 50, left associativity).

(** [RawMemory<T>]: [T* buffer_ = nullptr; size_t capacity_ = 0;] *)
Record RawMemory := mkRaw { buffer_ : option addr; capacity_ : nat }.

(** [Vector<T>]: [RawMemory<T> data_; size_t size_ = 0;] *)
Record Vector := mkVector { data_ : RawMemory; size_ : nat }.

Global Instance ptr_eq_dec : EqDecision ptr.
Proof. solve_decision. Defined.
Global Instance RawMemory_eq_dec : EqDecision RawMemory.
Proof. solve_decision. Defined.
Global Instance Vector_eq_dec : EqDecision Vector.
Proof. solve_decision. Defined.

(** ** The element type

    What the container needs from [T]: the two static traits consulted by
    [if constexpr], and for each special member function whether a call
    with a given source value throws. *)
Class ElemOps (T : Type) := {
  is_nothrow_move_constructible : bool;
  is_copy_constructible : bool;
  (** [T()]: [None] when value-initialisation throws. *)
  default_ctor : option T;
  copy_throws : T → bool;
  move_throws : T → bool;
  copy_assign_throws : T → bool;
  move_assign_throws : T → bool;
  (** The state a moved-from object is left in. *)
  moved_from : T → T
}.

(** ** Element types for the examples

    Four element types over [nat]. [tracked_elem] behaves like
    [std::string]: copyable, with a [noexcept] move that leaves the source
    empty (0), and no operation that throws. [move_only_elem] is not
    copy-constructible and its move constructor throws on the value 7.
    [assign_elem] has a [noexcept] move constructor and a move assignment
    that throws when the value 1 is assigned from. [copy_elem] is the
    element type of the spec's instrumented scenario: a copy constructor
    that does not throw and a move constructor that is not [noexcept]. *)
Definition tracked_elem : ElemOps nat := {|
  is_nothrow_move_constructible := true;
  is_copy_constructible := true;
  default_ctor := Some 0;
  copy_throws := λ _, false;
  move_throws := λ _, false;
  copy_assign_throws := λ _, false;
  move_assign_throws := λ _, false;
  moved_from := λ _, 0
|}.

Definition move_only_elem : ElemOps nat := {|
  is_nothrow_move_constructible := false;
  is_copy_constructible := false;
  default_ctor := Some 0;
  copy_throws := λ _, false;
  move_throws := λ x, bool_decide (x = 7);
  copy_assign_throws := λ _, false;
  move_assign_throws := λ _, false;
  moved_from := λ _, 0
|}.

Definition assign_elem : ElemOps nat := {|
  is_nothrow_move_constructible := true;
  is_copy_constructible := true;
  default_ctor := Some 0;
  copy_throws := λ _, false;
  move_throws := λ _, false;
  copy_assign_throws := λ _, false;
  move_assign_throws := λ x, bool_decide (x = 1);
  moved_from := λ _, 0
|}.

Definition copy_elem : ElemOps nat := {|
  is_nothrow_move_constructible := false;
  is_copy_constructible := true;
  default_ctor := Some 0;
  copy_throws := λ x, bool_decide (x = 7);
  move_throws := λ _, true;
  copy_assign_throws := λ _, false;
  move_assign_throws := λ _, false;
  moved_from := λ _, 0
|}.

(** [no_default_elem] is [tracked_elem] with a default constructor that
    throws. *)
Definition no_default_elem : ElemOps nat := {|
  is_nothrow_move_constructible := true;
  is_copy_constructible := true;
  default_ctor := None;
  copy_throws := λ _, false;
  move_throws := λ _, false;
  copy_assign_throws := λ _, false;
  move_assign_throws := λ _, false;
  moved_from := λ _, 0
|}.


Section Model.
Context {T : Type} `{E : ElemOps T}.

(** [std::is_nothrow_move_constructible_v<T> || !std::is_copy_constructible_v<T>] *)
Definition move_if_noexcept_policy : bool :=
  is_nothrow_move_constructible || negb is_copy_constructible.

(** A [noexcept] move constructor cannot let an exception out. *)
Definition move_fails (x : T) : bool :=
  negb is_nothrow_move_constructible && move_throws x.

Inductive event :=
| EvDefaultCtor (x : T)
| EvCtor (x : T)
| EvCopyCtor (x : T)
| EvMoveCtor (x : T)
| EvCopyAssign (x : T)
| EvMoveAssign (x : T)
| EvDtor (x : T).

Record state := mkState {
  objs : gmap oid Vector;
  heap : gmap addr (list (option T));
  log : list event
}.

Inductive result (A : Type) :=
| Done (a : A) (s : state)
| Throw (s : state)
| Undefined.
Global Arguments Done {A} a s.
Global Arguments Throw {A} s.
Global Arguments Undefined {A}.

Definition M (A : Type) := state → result A.

Definition ret {A} (a : A) : M A := λ s, Done a s.
Definition bind {A B} (m : M A) (f : A → M B) : M B :=
  λ s, match m s with
       | Done a s' => f a s'
       | Throw s' => Throw s'
       | Undefined => Undefined
       end.
Definition throw {A} : M A := λ s, Throw s.
Definition undefined {A} : M A := λ _, Undefined.

(** [try { m } catch (...) { h; }] where the handler ends in a rethrow. *)
Definition catch {A} (m : M A) (h : M A) : M A :=
  λ s, match m s with
       | Throw s' => h s'
       | r => r
       end.

Notation "'let!' x ':=' m 'in' k" := (bind m (λ x, k))
  (at level 10, x name, m at level 100, k at level 200, only parsing).
Notation "'do!' m 'in' k" := (bind m (λ _, k))
  (at level 10, m at level 100, k at level 200, only parsing).

(** ** Memory and the element-level operations *)

Implicit Types (p first last d_first d_last pos : ptr) (x y : T) (n k : nat).

Definition set_heap (h : gmap addr (list (option T))) (s : state) : state :=
  mkState (objs s) h (log s).
Definition set_objs (o : gmap oid Vector) (s : state) : state :=
  mkState o (heap s) (log s).

Definition emit (e : event) : M unit :=
  λ s, Done tt (mkState (objs s) (heap s) (log s ++ [e])).

(** The cell a pointer designates, if it points into a block. *)
Definition cell_at (s : state) p : option (option T) :=
  a ← base p; cells ← heap s !! a; cells !! off p.

(** Reading [*p] as an object: the cell has to hold a live one. *)
Definition load p : M T :=
  λ s, match cell_at s p with
       | Some (Some x) => Done x s
       | _ => Undefined
       end.

(** Writing the cell [p] designates; [p] has to be inside its block. *)
Definition store p (c : option T) : M unit :=
  λ s, match base p with
       | Some a =>
           match heap s !! a with
           | Some cells =>
               if decide (off p < length cells)
               then Done tt (set_heap (<[a := <[off p := c]> cells]> (heap s)) s)
               else Undefined
           | None => Undefined
           end
       | None => Undefined
       end.

(** [p - n] *)
Definition ptr_sub p n : M ptr :=
  if decide (n ≤ off p) then ret (Ptr (base p) (off p - n)) else undefined.

(** [std::distance(first, last)] for two pointers into one block, and the
    length of the iterator range [[first, last)], which has to be valid. *)
Definition distance first last : M nat :=
  if decide (base first = base last ∧ off first ≤ off last)
  then ret (off last - off first) else undefined.

(** [new (p) T(x)] for [x] a [const T&]. *)
Definition construct_copy p x : M unit :=
  if copy_throws x then throw
  else do! emit (EvCopyCtor x) in store p (Some x).

(** [new (p) T(std::move( *src ))] for [src] a [T*]. *)
Definition construct_move p (src : ptr) : M unit :=
  let! x := load src in
  if move_fails x then throw
  else do! emit (EvMoveCtor x) in
       do! store src (Some (moved_from x)) in
       store p (Some x).

(** [new (p) T()] *)
Definition construct_default p : M unit :=
  match default_ctor with
  | Some x => do! emit (EvDefaultCtor x) in store p (Some x)
  | None => throw
  end.

(** [*p = *src] *)
Definition assign_copy p (src : ptr) : M unit :=
  let! x := load src in
  let! _ := load p in
  if copy_assign_throws x then throw
  else do! emit (EvCopyAssign x) in store p (Some x).

(** [*p = std::move( *src )] *)
Definition assign_move p (src : ptr) : M unit :=
  let! x := load src in
  let! _ := load p in
  if move_assign_throws x then throw
  else do! emit (EvMoveAssign x) in
       do! store src (Some (moved_from x)) in
       store p (Some x).

(** [p->~T()] *)
Definition destroy_at p : M unit :=
  let! x := load p in
  do! emit (EvDtor x) in
  store p None.

(** Whether the pointee type of a source pointer is [const T]. *)
Inductive constness := Mutable | Const.

(** [new (p) T(std::move( *src ))]. For [src] a [const T*] the argument is a
    [const T&&]; [T(T&&)] does not accept it and overload resolution picks
    [T(const T&)], so the element is copied and the source is left as it is. *)
Definition construct_rvalue (q : constness) p (src : ptr) : M unit :=
  match q with
  | Mutable => construct_move p src
  | Const => let! x := load src in construct_copy p x
  end.

(** The argument of [Emplace], [EmplaceBack] and [Insert]: a reference to an
    object of type [T] outside the vector, or a pack of constructor arguments
    from which a constructor of [T] builds [x] or throws. *)
Inductive arg :=
| ConstLvalue (x : T)
| Lvalue (x : T)
| Rvalue (x : T)
| Pack (r : option T).

(** [std::move(args)...] *)
Definition std_move (a : arg) : arg :=
  match a with
  | Lvalue x => Rvalue x
  | _ => a
  end.

(** [T(std::forward<Args>(args)...)]: the value of the new object. *)
Definition construct_from (a : arg) : M T :=
  match a with
  | ConstLvalue x | Lvalue x =>
      if copy_throws x then throw else do! emit (EvCopyCtor x) in ret x
  | Rvalue x =>
      if move_fails x then throw else do! emit (EvMoveCtor x) in ret x
  | Pack (Some x) => do! emit (EvCtor x) in ret x
  | Pack None => throw
  end.

(** [new (p) T(std::forward<Args>(args)...)] *)
Definition construct_at p (a : arg) : M unit :=
  let! x := construct_from a in store p (Some x).

(** ** The standard algorithms the header calls *)

(** [std::destroy_n(first, n)] *)
Fixpoint destroy_n first n : M unit :=
  match n with
  | 0 => ret tt
  | S n' => do! destroy_at first in destroy_n (first +ₚ 1) n'
  end.

(** The three [uninitialized_*_n] algorithms construct [n] objects one after
    the other; when a constructor throws after [k] objects, these [k] objects
    are destroyed and the exception is rethrown. *)
Fixpoint uninitialized_value_construct_loop first k n : M unit :=
  match n with
  | 0 => ret tt
  | S n' =>
      do! catch (construct_default (first +ₚ k))
                (do! destroy_n first k in throw) in
      uninitialized_value_construct_loop first (S k) n'
  end.

Definition uninitialized_value_construct_n first n : M unit :=
  uninitialized_value_construct_loop first 0 n.

Fixpoint uninitialized_copy_loop first d_first k n : M unit :=
  match n with
  | 0 => ret tt
  | S n' =>
      do! catch (let! x := load (first +ₚ k) in construct_copy (d_first +ₚ k) x)
                (do! destroy_n d_first k in throw) in
      uninitialized_copy_loop first d_first (S k) n'
  end.

Definition uninitialized_copy_n first n d_first : M unit :=
  uninitialized_copy_loop first d_first 0 n.

Fixpoint uninitialized_move_loop (q : constness) first d_first k n : M unit :=
  match n with
  | 0 => ret tt
  | S n' =>
      do! catch (construct_rvalue q (d_first +ₚ k) (first +ₚ k))
                (do! destroy_n d_first k in throw) in
      uninitialized_move_loop q first d_first (S k) n'
  end.

Definition uninitialized_move_n (q : constness) first n d_first : M unit :=
  uninitialized_move_loop q first d_first 0 n.

(** [std::copy(first, last, d_first)]: copy assignment, front to back. *)
Fixpoint copy_loop first d_first k n : M unit :=
  match n with
  | 0 => ret tt
  | S n' =>
      do! assign_copy (d_first +ₚ k) (first +ₚ k) in
      copy_loop first d_first (S k) n'
  end.

Definition std_copy first last d_first : M unit :=
  let! n := distance first last in copy_loop first d_first 0 n.

(** [std::move(first, last, d_first)]: move assignment, front to back. *)
Fixpoint move_loop first d_first k n : M unit :=
  match n with
  | 0 => ret tt
  | S n' =>
      do! assign_move (d_first +ₚ k) (first +ₚ k) in
      move_loop first d_first (S k) n'
  end.

Definition std_move_range first last d_first : M unit :=
  let! n := distance first last in move_loop first d_first 0 n.

(** [std::move_backward(first, last, d_last)]: move assignment, back to
    front, [*--d_last = std::move( *--last )]. *)
Fixpoint move_backward_loop last d_last k n : M unit :=
  match n with
  | 0 => ret tt
  | S n' =>
      let! src := ptr_sub last (S k) in
      let! dst := ptr_sub d_last (S k) in
      do! assign_move dst src in
      move_backward_loop last d_last (S k) n'
  end.

Definition std_move_backward first last d_last : M unit :=
  let! n := distance first last in move_backward_loop last d_last 0 n.

(** ** [RawMemory<T>] *)

(** [static T* Allocate(size_t n)]: [nullptr] for [n == 0], otherwise a new
    block of [n] raw cells. *)
Definition Allocate n : M (option addr) :=
  λ s, if decide (n ≠ 0)
       then let a := fresh (dom (heap s)) in
            Done (Some a) (set_heap (<[a := replicate n None]> (heap s)) s)
       else Done None s.

(** [static void Deallocate(T* buf)]: [operator delete] accepts the null
    pointer and a block that [operator new] returned and that is still
    allocated. *)
Definition Deallocate (buf : option addr) : M unit :=
  λ s, match buf with
       | None => Done tt s
       | Some a =>
           match heap s !! a with
           | Some _ => Done tt (set_heap (delete a (heap s)) s)
           | None => Undefined
           end
       end.

(** [RawMemory() = default] *)
Definition RawMemory_default : RawMemory := mkRaw None 0.

(** [explicit RawMemory(size_t capacity)] *)
Definition RawMemory_ctor (capacity : nat) : M RawMemory :=
  let! b := Allocate capacity in ret (mkRaw b capacity).

(** [void Swap(RawMemory& other)]: the new [*this] and the new [other]. *)
Definition RawMemory_Swap (this other : RawMemory) : RawMemory * RawMemory :=
  (mkRaw (buffer_ other) (capacity_ other), mkRaw (buffer_ this) (capacity_ this)).

(** [RawMemory(RawMemory&& other)]: the members of the new object take their
    default initialisers, then [Swap(other)]. *)
Definition RawMemory_move_ctor (other : RawMemory) : RawMemory * RawMemory :=
  RawMemory_Swap RawMemory_default other.

(** [RawMemory& operator=(RawMemory&& rhs)]: [Swap(rhs)]. The body of the
    header has no [return] statement; the model covers the assignment
    itself, not the use of the returned reference. *)
Definition RawMemory_move_assign (this rhs : RawMemory) : RawMemory * RawMemory :=
  RawMemory_Swap this rhs.

(** [~RawMemory()] *)
Definition RawMemory_dtor (this : RawMemory) : M unit :=
  Deallocate (buffer_ this).

(** [T* operator+(size_t offset)], with its [assert]. *)
Definition RawMemory_plus (this : RawMemory) (offset : nat) : M ptr :=
  if decide (offset ≤ capacity_ this)
  then ret (Ptr (buffer_ this) offset) else undefined.

(** [T& operator[](size_t index)], with its [assert]; the reference is the
    address of the cell. *)
Definition RawMemory_index (this : RawMemory) (index : nat) : M ptr :=
  if decide (index < capacity_ this)
  then ret (Ptr (buffer_ this) index) else undefined.

Definition GetAddress (this : RawMemory) : ptr := Ptr (buffer_ this) 0.

Definition RawMemory_Capacity (this : RawMemory) : nat := capacity_ this.

(** ** [Vector<T>] *)

(** Access to the object [this] points to. *)
Definition get_obj (this : oid) : M Vector :=
  λ s, match objs s !! this with
       | Some v => Done v s
       | None => Undefined
       end.

Definition put_obj (this : oid) (v : Vector) : M unit :=
  λ s, match objs s !! this with
       | Some _ => Done tt (set_objs (<[this := v]> (objs s)) s)
       | None => Undefined
       end.

(** The end of a constructor: the object starts to exist. *)
Definition new_obj (this : oid) (v : Vector) : M unit :=
  λ s, match objs s !! this with
       | Some _ => Undefined
       | None => Done tt (set_objs (<[this := v]> (objs s)) s)
       end.

(** The end of a destructor: the object is gone. *)
Definition del_obj (this : oid) : M unit :=
  λ s, Done tt (set_objs (delete this (objs s)) s).

(** Room for a local object of type [Vector]. *)
Definition local_obj : M oid :=
  λ s, Done (fresh (dom (objs s))) s.

Definition Capacity (v : Vector) : nat := RawMemory_Capacity (data_ v).
Definition Size (v : Vector) : nat := size_ v.
Definition begin_ (v : Vector) : ptr := GetAddress (data_ v).
Definition end_ (v : Vector) : ptr := GetAddress (data_ v) +ₚ size_ v.
Definition cbegin (v : Vector) : ptr := begin_ v.
Definition cend (v : Vector) : ptr := end_ v.

(** [T& operator[](size_t index)], with its [assert]. *)
Definition Vector_index (v : Vector) (index : nat) : M ptr :=
  if decide (index < size_ v) then RawMemory_index (data_ v) index else undefined.

(** [Vector() = default] *)
Definition Vector_default_ctor (this : oid) : M unit :=
  new_obj this (mkVector RawMemory_default 0).

(** [explicit Vector(size_t size)]. When an element constructor throws, the
    member [data_], already constructed, is destroyed during unwinding. *)
Definition Vector_sized_ctor (this : oid) (size : nat) : M unit :=
  let! data := RawMemory_ctor size in
  do! catch (uninitialized_value_construct_n (GetAddress data) size)
            (do! RawMemory_dtor data in throw) in
  new_obj this (mkVector data size).

(** [Vector(const Vector& other)]: [other.data_.GetAddress()] is a
    [const T*] here. *)
Definition Vector_copy_ctor (this other : oid) : M unit :=
  let! o := get_obj other in
  let! data := RawMemory_ctor (size_ o) in
  do! catch (if move_if_noexcept_policy
             then uninitialized_move_n Const (GetAddress (data_ o)) (size_ o)
                    (GetAddress data)
             else uninitialized_copy_n (GetAddress (data_ o)) (size_ o)
                    (GetAddress data))
            (do! RawMemory_dtor data in throw) in
  new_obj this (mkVector data (size_ o)).

(** [Vector(Vector&& other)] *)
Definition Vector_move_ctor (this other : oid) : M unit :=
  let! o := get_obj other in
  let '(data, other_data) := RawMemory_move_ctor (data_ o) in
  do! put_obj other (mkVector other_data (size_ o)) in
  do! new_obj this (mkVector data (size_ o)) in
  put_obj other (mkVector other_data 0).

(** [~Vector()] *)
Definition Vector_dtor (this : oid) : M unit :=
  let! v := get_obj this in
  do! destroy_n (GetAddress (data_ v)) (size_ v) in
  do! RawMemory_dtor (data_ v) in
  del_obj this.

(** [void Swap(Vector& other)] *)
Definition Vector_Swap (this other : oid) : M unit :=
  let! a := get_obj this in
  let! b := get_obj other in
  let '(da, db) := RawMemory_Swap (data_ a) (data_ b) in
  do! put_obj this (mkVector da (size_ b)) in
  put_obj other (mkVector db (size_ a)).

(** [Vector& operator=(Vector&& rhs)] *)
Definition Vector_move_assign (this rhs : oid) : M unit :=
  Vector_Swap this rhs.

(** [void Reserve(size_t new_capacity)]. The local [new_data] is destroyed
    when its scope is left, by the [return] or by an exception. *)
Definition Reserve (this : oid) (new_capacity : nat) : M unit :=
  let! v := get_obj this in
  if decide (new_capacity ≤ capacity_ (data_ v)) then ret tt
  else
    let! new_data := RawMemory_ctor new_capacity in
    do! catch (if move_if_noexcept_policy
               then uninitialized_move_n Mutable (GetAddress (data_ v)) (size_ v)
                      (GetAddress new_data)
               else uninitialized_copy_n (GetAddress (data_ v)) (size_ v)
                      (GetAddress new_data))
              (do! RawMemory_dtor new_data in throw) in
    do! destroy_n (GetAddress (data_ v)) (size_ v) in
    let '(data, new_data) := RawMemory_Swap (data_ v) new_data in
    do! put_obj this (mkVector data (size_ v)) in
    RawMemory_dtor new_data.

(** [void Resize(size_t new_size)] *)
Definition Resize (this : oid) (new_size : nat) : M unit :=
  let! v := get_obj this in
  if decide (size_ v < new_size) then
    do! Reserve this new_size in
    let! v := get_obj this in
    do! uninitialized_value_construct_n (GetAddress (data_ v) +ₚ size_ v)
          (new_size - size_ v) in
    put_obj this (mkVector (data_ v) new_size)
  else if decide (new_size < size_ v) then
    do! destroy_n (GetAddress (data_ v) +ₚ new_size) (size_ v - new_size) in
    put_obj this (mkVector (data_ v) new_size)
  else ret tt.


(** [void PushBack(const T& value)] *)
Definition PushBack (this : oid) (value : T) : M unit :=
  let! v := get_obj this in
  do! (if decide (size_ v = Capacity v) then
         let! new_data := RawMemory_ctor (if decide (size_ v = 0) then 1 else size_ v * 2) in
         do! catch (do! construct_at (GetAddress new_data +ₚ size_ v) (ConstLvalue value) in
                    if move_if_noexcept_policy
                    then uninitialized_move_n Mutable (GetAddress (data_ v)) (size_ v)
                           (GetAddress new_data)
                    else uninitialized_copy_n (GetAddress (data_ v)) (size_ v)
                           (GetAddress new_data))
                   (do! RawMemory_dtor new_data in throw) in
         do! destroy_n (GetAddress (data_ v)) (size_ v) in
         let '(data, new_data) := RawMemory_Swap (data_ v) new_data in
         do! put_obj this (mkVector data (size_ v)) in
         RawMemory_dtor new_data
       else construct_at (GetAddress (data_ v) +ₚ size_ v) (ConstLvalue value)) in
  let! v := get_obj this in
  put_obj this (mkVector (data_ v) (size_ v + 1)).

(** [void PushBack(T&& value)] *)
Definition PushBack_rvalue (this : oid) (value : T) : M unit :=
  let! v := get_obj this in
  do! (if decide (size_ v = Capacity v) then
         let! new_data := RawMemory_ctor (if decide (size_ v = 0) then 1 else size_ v * 2) in
         do! catch (do! construct_at (GetAddress new_data +ₚ size_ v) (Rvalue value) in
                    if move_if_noexcept_policy
                    then uninitialized_move_n Mutable (GetAddress (data_ v)) (size_ v)
                           (GetAddress new_data)
                    else uninitialized_copy_n (GetAddress (data_ v)) (size_ v)
                           (GetAddress new_data))
                   (do! RawMemory_dtor new_data in throw) in
         do! destroy_n (GetAddress (data_ v)) (size_ v) in
         let '(data, new_data) := RawMemory_Swap (data_ v) new_data in
         do! put_obj this (mkVector data (size_ v)) in
         RawMemory_dtor new_data
       else construct_at (GetAddress (data_ v) +ₚ size_ v) (Rvalue value)) in
  let! v := get_obj this in
  put_obj this (mkVector (data_ v) (size_ v + 1)).

(** [T& EmplaceBack(Args&&... args)] *)
Definition EmplaceBack (this : oid) (args : arg) : M ptr :=
  let! v := get_obj this in
  do! (if decide (size_ v = Capacity v) then
         let! new_data := RawMemory_ctor (if decide (size_ v = 0) then 1 else size_ v * 2) in
         do! catch (do! construct_at (GetAddress new_data +ₚ size_ v) args in
                    if move_if_noexcept_policy
                    then uninitialized_move_n Mutable (GetAddress (data_ v)) (size_ v)
                           (GetAddress new_data)
                    else uninitialized_copy_n (GetAddress (data_ v)) (size_ v)
                           (GetAddress new_data))
                   (do! RawMemory_dtor new_data in throw) in
         do! destroy_n (GetAddress (data_ v)) (size_ v) in
         let '(data, new_data) := RawMemory_Swap (data_ v) new_data in
         do! put_obj this (mkVector data (size_ v)) in
         RawMemory_dtor new_data
       else construct_at (GetAddress (data_ v) +ₚ size_ v) args) in
  let! v := get_obj this in
  do! put_obj this (mkVector (data_ v) (size_ v + 1)) in
  RawMemory_index (data_ v) (size_ v + 1 - 1).

(** [void PopBack()] *)
Definition PopBack (this : oid) : M unit :=
  let! v := get_obj this in
  let! last := ptr_sub (GetAddress (data_ v) +ₚ size_ v) 1 in
  do! destroy_n last 1 in
  put_obj this (mkVector (data_ v) (size_ v - 1)).

(** [iterator Emplace(const_iterator pos, Args&&... args)]. In the branch
    that does not reallocate, [buffer] is a local object of type [T]; it is
    destroyed when the branch is left. *)
Definition Emplace (this : oid) (pos : ptr) (args : arg) : M ptr :=
  let! v := get_obj this in
  if decide (size_ v = 0) then
    let! _ := EmplaceBack this (std_move args) in
    let! v := get_obj this in
    ptr_sub (end_ v) 1
  else
    let! iter_distance := distance (cbegin v) pos in
    if decide (size_ v = Capacity v) then
      let! new_data := RawMemory_ctor (if decide (size_ v = 0) then 1 else size_ v * 2) in
      do! catch (do! construct_at (GetAddress new_data +ₚ iter_distance) args in
                 if move_if_noexcept_policy
                 then
                   do! uninitialized_move_n Mutable (GetAddress (data_ v)) iter_distance
                         (GetAddress new_data) in
                   uninitialized_move_n Mutable (GetAddress (data_ v) +ₚ iter_distance)
                     (size_ v - iter_distance)
                     (GetAddress new_data +ₚ iter_distance +ₚ 1)
                 else
                   do! uninitialized_copy_n (GetAddress (data_ v)) iter_distance
                         (GetAddress new_data) in
                   uninitialized_copy_n (GetAddress (data_ v) +ₚ iter_distance)
                     (size_ v - iter_distance)
                     (GetAddress new_data +ₚ iter_distance +ₚ 1))
                (do! RawMemory_dtor new_data in throw) in
      do! destroy_n (GetAddress (data_ v)) (size_ v) in
      let '(data, new_data) := RawMemory_Swap (data_ v) new_data in
      do! put_obj this (mkVector data (size_ v + 1)) in
      do! RawMemory_dtor new_data in
      ret (GetAddress data +ₚ iter_distance)
    else
      let! buffer := construct_from args in
      let! r :=
        catch (let! last := ptr_sub (end_ v) 1 in
               do! construct_move (GetAddress (data_ v) +ₚ size_ v) last in
               let! first := RawMemory_index (data_ v) iter_distance in
               do! std_move_backward first last (end_ v) in
               let! target := RawMemory_index (data_ v) iter_distance in
               let! _ := load target in
               do! (if move_assign_throws buffer then throw
                    else do! emit (EvMoveAssign buffer) in store target (Some buffer)) in
               do! put_obj this (mkVector (data_ v) (size_ v + 1)) in
               RawMemory_index (data_ v) iter_distance)
              (do! emit (EvDtor buffer) in throw) in
      do! emit (EvDtor (moved_from buffer)) in
      ret r.

(** [iterator Erase(const_iterator pos)] *)
Definition Erase (this : oid) (pos : ptr) : M ptr :=
  let! v := get_obj this in
  let! iter_distance := distance (cbegin v) pos in
  let! first := RawMemory_index (data_ v) (iter_distance + 1) in
  let! d_first := RawMemory_index (data_ v) iter_distance in
  do! std_move_range first (end_ v) d_first in
  let! last := ptr_sub (end_ v) 1 in
  do! destroy_n last 1 in
  do! put_obj this (mkVector (data_ v) (size_ v - 1)) in
  ret pos.

(** [iterator Insert(const_iterator pos, const T& value)] *)
Definition Insert (this : oid) (pos : ptr) (value : T) : M ptr :=
  Emplace this pos (ConstLvalue value).

(** [iterator Insert(const_iterator pos, T&& value)] *)
Definition Insert_rvalue (this : oid) (pos : ptr) (value : T) : M ptr :=
  Emplace this pos (Rvalue value).

(** [Vector& operator=(const Vector& rhs)]. [rhs_copy] is a local object; its
    destructor runs at the end of the block that declares it. *)
Definition Vector_copy_assign (this rhs : oid) : M unit :=
  if decide (this ≠ rhs) then
    let! v := get_obj this in
    let! r := get_obj rhs in
    do! (if decide (capacity_ (data_ v) < size_ r) then
           let! rhs_copy := local_obj in
           do! Vector_copy_ctor rhs_copy rhs in
           do! Vector_Swap this rhs_copy in
           Vector_dtor rhs_copy
         else if decide (size_ v ≤ size_ r) then
           do! std_copy (GetAddress (data_ r)) (GetAddress (data_ r) +ₚ size_ v)
                 (GetAddress (data_ v)) in
           uninitialized_copy_n (GetAddress (data_ r) +ₚ size_ v) (size_ r - size_ v)
             (GetAddress (data_ v) +ₚ size_ v)
         else
           do! std_copy (GetAddress (data_ r)) (GetAddress (data_ r) +ₚ size_ r)
                 (GetAddress (data_ v)) in
           destroy_n (GetAddress (data_ v) +ₚ size_ r) (size_ v - size_ r)) in
    let! v := get_obj this in
    let! r := get_obj rhs in
    put_obj this (mkVector (data_ v) (size_ r))
  else ret tt.


(** ** The representation invariants *)

(** The storage owner: the handle is null exactly when the capacity is 0. *)
Definition raw_inv (r : RawMemory) : Prop :=
  buffer_ r = None ↔ capacity_ r = 0.

(** [owns s v xs]: in state [s] the vector [v] holds the elements [xs]. Its
    size is their number, it is at most the capacity, the block has as many
    cells as the capacity, the cells [[0, size)] are the live objects [xs]
    and the cells [[size, capacity)] are raw memory. *)
Definition owns (s : state) (v : Vector) (xs : list T) : Prop :=
  length xs = size_ v ∧ size_ v ≤ capacity_ (data_ v) ∧
  match buffer_ (data_ v) with
  | None => capacity_ (data_ v) = 0
  | Some a =>
      capacity_ (data_ v) ≠ 0 ∧
      heap s !! a = Some (map Some xs ++ replicate (capacity_ (data_ v) - size_ v) None)
  end.

Definition vector_inv (s : state) (v : Vector) : Prop := ∃ xs, owns s v xs.

(** Every object of the store satisfies its invariant, and no block has two
    owners. *)
Definition store_inv (s : state) : Prop :=
  (∀ o v, objs s !! o = Some v → vector_inv s v) ∧
  (∀ o1 o2 v1 v2 a, objs s !! o1 = Some v1 → objs s !! o2 = Some v2 →
     buffer_ (data_ v1) = Some a → buffer_ (data_ v2) = Some a → o1 = o2).

(** The elements of the object [this], read off the heap. *)
Definition contents (s : state) (this : oid) : option (list T) :=
  v ← objs s !! this;
  match buffer_ (data_ v) with
  | None => Some []
  | Some a => cells ← heap s !! a; mapM id (take (size_ v) cells)
  end.

(** The state after block [a] became [cells] and the events [l] ran. *)
Definition upd (a : addr) (cells : list (option T)) (l : list event) (s : state) : state :=
  mkState (objs s) (<[a := cells]> (heap s)) (log s ++ l).

(** The longest prefix of [xs] on which the operation [bad] does not throw. *)
Fixpoint good_prefix (bad : T → bool) (xs : list T) : list T :=
  match xs with
  | [] => []
  | x :: xs' => if bad x then [] else x :: good_prefix bad xs'
  end.

Definition all_good (bad : T → bool) (xs : list T) : bool :=
  forallb (λ x, negb (bad x)) xs.



(** ** The state an operation leaves behind *)

(** The heap without the block behind a handle. *)
Definition dealloc (old : option addr) (h : gmap addr (list (option T)))
  : gmap addr (list (option T)) :=
  match old with
  | Some a => delete a h
  | None => h
  end.

Definition add_log (l : list event) (s : state) : state :=
  mkState (objs s) (heap s) (log s ++ l).

(** The state in which the object [this] has become [v'] and holds the
    elements [ys], the block behind [old] is released and the events [l]
    ran. *)
Definition settle (this : oid) (v' : Vector) (ys : list T) (l : list event)
    (old : option addr) (s : state) : state :=
  mkState (<[this := v']> (objs s))
    (match buffer_ (data_ v') with
     | Some b =>
         <[b := map Some ys ++ replicate (capacity_ (data_ v') - size_ v') None]>
           (dealloc old (heap s))
     | None => dealloc old (heap s)
     end)
    (log s ++ l).

(** How the relocation of an element into new storage can fail, the event
    it leaves in the log and the value it leaves in the old storage. *)
Definition reloc_fails : T → bool :=
  if move_if_noexcept_policy then move_fails else copy_throws.
Definition reloc_event : T → event :=
  if move_if_noexcept_policy then EvMoveCtor else EvCopyCtor.
Definition reloc_left : T → T :=
  if move_if_noexcept_policy then moved_from else id.

(** The value an argument constructs and the event of its constructor, or
    [None] when the constructor throws. *)
Definition arg_result (a : arg) : option (T * event) :=
  match a with
  | ConstLvalue x | Lvalue x =>
      if copy_throws x then None else Some (x, EvCopyCtor x)
  | Rvalue x => if move_fails x then None else Some (x, EvMoveCtor x)
  | Pack (Some x) => Some (x, EvCtor x)
  | Pack None => None
  end.

(** The capacity after [n] appends to an empty vector. *)
Fixpoint capacity_after (n : nat) : nat :=
  match n with
  | 0 => 0
  | S n' =>
      let c := capacity_after n' in
      if decide (n' = c) then (if decide (n' = 0) then 1 else n' * 2) else c
  end.


(** The body the two [PushBack] overloads and [EmplaceBack] share, for the
    argument [args]; [EmplaceBack] goes on to return a reference. *)
Definition append (this : oid) (args : arg) : M unit :=
  let! v := get_obj this in
  do! (if decide (size_ v = Capacity v) then
         let! new_data := RawMemory_ctor (if decide (size_ v = 0) then 1 else size_ v * 2) in
         do! catch (do! construct_at (GetAddress new_data +ₚ size_ v) args in
                    if move_if_noexcept_policy
                    then uninitialized_move_n Mutable (GetAddress (data_ v)) (size_ v)
                           (GetAddress new_data)
                    else uninitialized_copy_n (GetAddress (data_ v)) (size_ v)
                           (GetAddress new_data))
                   (do! RawMemory_dtor new_data in throw) in
         do! destroy_n (GetAddress (data_ v)) (size_ v) in
         let '(data, new_data) := RawMemory_Swap (data_ v) new_data in
         do! put_obj this (mkVector data (size_ v)) in
         RawMemory_dtor new_data
       else construct_at (GetAddress (data_ v) +ₚ size_ v) args) in
  let! v := get_obj this in
  put_obj this (mkVector (data_ v) (size_ v + 1)).


(** The handle [Allocate n] returns in state [s]. *)
Definition new_handle (n : nat) (s : state) : option addr :=
  if decide (n ≠ 0) then Some (fresh (dom (heap s))) else None.


(** ** The operations of the class, as data *)

Inductive vec_op :=
| OpDefaultCtor (this : oid)
| OpSizedCtor (this : oid) (size : nat)
| OpCopyCtor (this other : oid)
| OpMoveCtor (this other : oid)
| OpDtor (this : oid)
| OpCopyAssign (this rhs : oid)
| OpMoveAssign (this rhs : oid)
| OpSwap (this other : oid)
| OpReserve (this : oid) (new_capacity : nat)
| OpResize (this : oid) (new_size : nat)
| OpPushBack (this : oid) (value : T)
| OpPushBackRvalue (this : oid) (value : T)
| OpEmplaceBack (this : oid) (args : arg)
| OpPopBack (this : oid)
| OpEmplace (this : oid) (pos : ptr) (args : arg)
| OpInsert (this : oid) (pos : ptr) (value : T)
| OpInsertRvalue (this : oid) (pos : ptr) (value : T)
| OpErase (this : oid) (pos : ptr).

(** A call whose result is not used. *)
Definition discard {A} (m : M A) : M unit := let! _ := m in ret tt.

Definition run_op (o : vec_op) : M unit :=
  match o with
  | OpDefaultCtor this => Vector_default_ctor this
  | OpSizedCtor this size => Vector_sized_ctor this size
  | OpCopyCtor this other => Vector_copy_ctor this other
  | OpMoveCtor this other => Vector_move_ctor this other
  | OpDtor this => Vector_dtor this
  | OpCopyAssign this rhs => Vector_copy_assign this rhs
  | OpMoveAssign this rhs => Vector_move_assign this rhs
  | OpSwap this other => Vector_Swap this other
  | OpReserve this new_capacity => Reserve this new_capacity
  | OpResize this new_size => Resize this new_size
  | OpPushBack this value => PushBack this value
  | OpPushBackRvalue this value => PushBack_rvalue this value
  | OpEmplaceBack this args => discard (EmplaceBack this args)
  | OpPopBack this => PopBack this
  | OpEmplace this pos args => discard (Emplace this pos args)
  | OpInsert this pos value => discard (Insert this pos value)
  | OpInsertRvalue this pos value => discard (Insert_rvalue this pos value)
  | OpErase this pos => discard (Erase this pos)
  end.

(** What a caller owes an operation: a constructor runs where no object
    lives yet, and a position handed to [Emplace] or [Insert] lies in
    [[begin(), end()]]. *)
Definition valid_pos (s : state) (this : oid) (pos : ptr) : Prop :=
  ∀ v, objs s !! this = Some v →
       base pos = buffer_ (data_ v) ∧ off pos ≤ size_ v.

Definition op_pre (s : state) (o : vec_op) : Prop :=
  match o with
  | OpDefaultCtor this | OpSizedCtor this _ | OpCopyCtor this _ | OpMoveCtor this _ =>
      objs s !! this = None
  | OpEmplace this pos _ | OpInsert this pos _ | OpInsertRvalue this pos _ =>
      valid_pos s this pos
  | _ => True
  end.

(** The operations of [RawMemory], on the object [this] and a second object
    [other]; the result is the pair of both after the call. *)
Inductive raw_op :=
| RawDefaultCtor
| RawCtor (capacity : nat)
| RawMoveCtor
| RawMoveAssign
| RawSwap.

Definition run_raw_op (o : raw_op) (this other : RawMemory) : M (RawMemory * RawMemory) :=
  match o with
  | RawDefaultCtor => ret (RawMemory_default, other)
  | RawCtor capacity => let! r := RawMemory_ctor capacity in ret (r, other)
  | RawMoveCtor => ret (RawMemory_move_ctor other)
  | RawMoveAssign => ret (RawMemory_move_assign this other)
  | RawSwap => ret (RawMemory_Swap this other)
  end.


(** [storage_kept this v s s' k]: from [s] to [s'] the object [this], which
    was [v], kept its handle and its capacity, no block was allocated or
    released, and the cells below index [k] of its block are untouched. *)
Definition storage_kept (this : oid) (v : Vector) (s s' : state) (k : nat) : Prop :=
  (∃ v', objs s' !! this = Some v' ∧ data_ v' = data_ v) ∧
  dom (heap s') = dom (heap s) ∧
  ∀ a cells, buffer_ (data_ v) = Some a → heap s !! a = Some cells →
    ∃ cells', heap s' !! a = Some cells' ∧ length cells' = length cells ∧
              ∀ j, j < k → cells' !! j = cells !! j.


(** A call that appends one element, and a sequence of such calls on one
    object. *)
Inductive append_call :=
| CallPushBack (value : T)
| CallPushBackRvalue (value : T)
| CallEmplaceBack (args : arg).

Definition run_append (this : oid) (c : append_call) : M unit :=
  match c with
  | CallPushBack value => PushBack this value
  | CallPushBackRvalue value => PushBack_rvalue this value
  | CallEmplaceBack args => discard (EmplaceBack this args)
  end.

Fixpoint run_appends (this : oid) (cs : list append_call) : M unit :=
  match cs with
  | [] => ret tt
  | c :: cs' => do! run_append this c in run_appends this cs'
  end.

Definition call_arg (c : append_call) : arg :=
  match c with
  | CallPushBack value => ConstLvalue value
  | CallPushBackRvalue value => Rvalue value
  | CallEmplaceBack args => args
  end.

(** The calls [cs] construct the elements [xs], none of their constructors
    throws. *)
Definition calls_construct (cs : list append_call) (xs : list T) : Prop :=
  Forall2 (λ c x, ∃ e, arg_result (call_arg c) = Some (x, e)) cs xs.

(** The value left in the last cell of a range that was moved one cell to
    the left, and in the first cell of one moved one cell to the right. *)
Definition hole_left (h : T) (xs : list T) : T :=
  default h (moved_from <$> last xs).
Definition hole_right (h : T) (xs : list T) : T :=
  default h (moved_from <$> head xs).

(** A computation that neither touches the object store nor allocates or
    frees a block. *)
Definition heap_only {A} (m : M A) : Prop :=
  ∀ s, match m s with
       | Done _ s' | Throw s' => objs s' = objs s ∧ dom (heap s') = dom (heap s)
       | Undefined => True
       end.


(** ** What a call does to the size and the capacity *)

(** The object a member function that changes one vector in place is
    called on. *)
Definition op_target (o : vec_op) : option oid :=
  match o with
  | OpReserve this _ | OpResize this _ | OpPushBack this _ | OpPushBackRvalue this _
  | OpEmplaceBack this _ | OpPopBack this | OpEmplace this _ _ | OpInsert this _ _
  | OpInsertRvalue this _ _ | OpErase this _ => Some this
  | _ => None
  end.

(** The size such a call leaves in a vector of size [n]. *)
Definition size_after (o : vec_op) (n : nat) : nat :=
  match o with
  | OpResize _ new_size => new_size
  | OpPushBack _ _ | OpPushBackRvalue _ _ | OpEmplaceBack _ _
  | OpEmplace _ _ _ | OpInsert _ _ _ | OpInsertRvalue _ _ _ => n + 1
  | OpPopBack _ | OpErase _ _ => n - 1
  | _ => n
  end.

(** [effect_on this v n s s']: in [s'] the object [this], which was [v] in
    [s], has size [n] and a capacity that is not below the one of [v]; with
    an unchanged capacity it has the storage of [v]; no other object
    changed; and every block of [s'] is the block of [this] or a block of
    [s] that was not the block of [v]. *)
Definition effect_on (this : oid) (v : Vector) (n : nat) (s s' : state) : Prop :=
  ∃ v', objs s' !! this = Some v' ∧ size_ v' = n ∧
        capacity_ (data_ v) ≤ capacity_ (data_ v') ∧
        (capacity_ (data_ v') = capacity_ (data_ v) → data_ v' = data_ v) ∧
        (∀ o, o ≠ this → objs s' !! o = objs s !! o) ∧
        (∀ a, is_Some (heap s' !! a) →
              buffer_ (data_ v') = Some a ∨
              (is_Some (heap s !! a) ∧
               (buffer_ (data_ v) = Some a → buffer_ (data_ v') = Some a))).

(** No block is leaked: every allocated block is the storage of a vector. *)
Definition blocks_owned (s : state) : Prop :=
  ∀ a, is_Some (heap s !! a) →
       ∃ o v, objs s !! o = Some v ∧ buffer_ (data_ v) = Some a.

(** * Properties *)

(** ** Single steps *)

Lemma state_eta s : mkState (objs s) (heap s) (log s) = s.
Proof. by destruct s. Qed.

Lemma upd_upd a c1 c2 l1 l2 s :
  upd a c2 l2 (upd a c1 l1 s) = upd a c2 (l1 ++ l2) s.
Proof. unfold upd; simpl. by rewrite insert_insert_eq, <- app_assoc. Qed.

Lemma upd_id a cells s : heap s !! a = Some cells → upd a cells [] s = s.
Proof.
  intros H. unfold upd. rewrite insert_id by done. rewrite app_nil_r. apply state_eta.
Qed.

Lemma heap_upd_eq a cells l s : heap (upd a cells l s) !! a = Some cells.
Proof. apply lookup_insert_eq. Qed.

Lemma heap_upd_ne a b cells l s : a ≠ b → heap (upd a cells l s) !! b = heap s !! b.
Proof. intros. by apply lookup_insert_ne. Qed.

Lemma load_block s a cells i x :
  heap s !! a = Some cells → cells !! i = Some (Some x) →
  load (Ptr (Some a) i) s = Done x s.
Proof. intros Ha Hi. unfold load, cell_at; simpl. by rewrite Ha; simpl; rewrite Hi. Qed.

Lemma store_block s a cells i c :
  heap s !! a = Some cells → i < length cells →
  store (Ptr (Some a) i) c s = Done tt (upd a (<[i := c]> cells) [] s).
Proof.
  intros Ha Hi. unfold store, upd; simpl. rewrite Ha, decide_True by done.
  by rewrite app_nil_r.
Qed.

Lemma emit_upd s a cells e :
  heap s !! a = Some cells → emit e s = Done tt (upd a cells [e] s).
Proof. intros Ha. unfold emit, upd. by rewrite insert_id. Qed.

Lemma lookup_middle {A} (pre post : list A) (c : A) i :
  i = length pre → (pre ++ c :: post) !! i = Some c.
Proof. intros ->. apply list_lookup_middle; done. Qed.

Lemma insert_middle {A} (pre post : list A) (c c' : A) i :
  i = length pre → <[i := c']> (pre ++ c :: post) = pre ++ c' :: post.
Proof.
  intros ->. rewrite insert_app_r_alt by lia.
  by rewrite Nat.sub_diag.
Qed.

Lemma destroy_at_spec s a pre post x i :
  heap s !! a = Some (pre ++ Some x :: post) → i = length pre →
  destroy_at (Ptr (Some a) i) s = Done tt (upd a (pre ++ None :: post) [EvDtor x] s).
Proof.
  intros Ha Hi. unfold destroy_at, bind.
  rewrite (load_block _ _ _ _ x Ha) by (by apply lookup_middle).
  rewrite (emit_upd _ _ _ _ Ha).
  erewrite store_block; [|apply heap_upd_eq|].
  - by rewrite upd_upd, insert_middle.
  - subst. rewrite length_app; simpl; lia.
Qed.

Lemma destroy_n_spec xs : ∀ s a pre post i,
  heap s !! a = Some (pre ++ map Some xs ++ post) → i = length pre →
  destroy_n (Ptr (Some a) i) (length xs) s
  = Done tt (upd a (pre ++ replicate (length xs) None ++ post) (map EvDtor xs) s).
Proof.
  induction xs as [|x xs IH]; intros s a pre post i Ha Hi; simpl.
  - unfold ret. by rewrite upd_id.
  - unfold bind. rewrite (destroy_at_spec _ _ _ _ _ _ Ha Hi).
    unfold ptr_add; simpl.
    rewrite (IH _ a (pre ++ [None]) post).
    + rewrite upd_upd. by rewrite <- app_assoc.
    + rewrite heap_upd_eq. by rewrite <- app_assoc.
    + rewrite length_app; simpl; lia.
Qed.


Lemma lookup_at {A} (l pre post : list A) (c : A) i :
  l = pre ++ c :: post → i = length pre → l !! i = Some c.
Proof. intros -> ->. by apply list_lookup_middle. Qed.

Lemma insert_at {A} (l pre post : list A) (c c' : A) i :
  l = pre ++ c :: post → i = length pre → <[i := c']> l = pre ++ c' :: post.
Proof. intros -> ->. by apply insert_middle. Qed.

Lemma lt_at {A} (l pre post : list A) (c : A) i :
  l = pre ++ c :: post → i = length pre → i < length l.
Proof. intros -> ->. rewrite length_app; simpl; lia. Qed.

(** Reading, writing and destroying the cell behind a given prefix. *)
Lemma load_at s a cells pre post x i :
  heap s !! a = Some cells → cells = pre ++ Some x :: post → i = length pre →
  load (Ptr (Some a) i) s = Done x s.
Proof. intros Ha Hc Hi. eapply load_block; [done|]. by eapply lookup_at. Qed.

Lemma store_at s a cells pre post c c' i :
  heap s !! a = Some cells → cells = pre ++ c :: post → i = length pre →
  store (Ptr (Some a) i) c' s = Done tt (upd a (pre ++ c' :: post) [] s).
Proof.
  intros Ha Hc Hi. erewrite store_block; [|done|by eapply lt_at].
  by erewrite insert_at.
Qed.

Ltac list_norm :=
  repeat (rewrite ?map_app, <- ?app_assoc, ?length_app, ?length_map,
            ?length_replicate, ?app_nil_r; simpl).

Lemma all_good_cons bad x xs :
  all_good bad (x :: xs) = negb (bad x) && all_good bad xs.
Proof. done. Qed.

Lemma good_prefix_all bad xs : all_good bad xs = true → good_prefix bad xs = xs.
Proof.
  induction xs as [|x xs IH]; simpl; [done|].
  intros [Hx Hxs]%andb_prop. destruct (bad x); [done|]. by rewrite IH.
Qed.

Lemma all_good_Forall bad xs :
  all_good bad xs = true ↔ Forall (λ x, bad x = false) xs.
Proof.
  unfold all_good. rewrite forallb_forall, Forall_forall.
  split; intros H x Hx%list_elem_of_In; specialize (H x Hx); by destruct (bad x).
Qed.

Lemma uninitialized_copy_loop_spec xs2 : ∀ s a b pa post_a pre_b post_b xs1 mid i j k,
  a ≠ b →
  heap s !! a = Some (pa ++ map Some xs2 ++ post_a) →
  heap s !! b = Some (pre_b ++ map Some xs1 ++ mid ++ post_b) →
  length mid = length xs2 → i + k = length pa → j = length pre_b → k = length xs1 →
  uninitialized_copy_loop (Ptr (Some a) i) (Ptr (Some b) j) k (length xs2) s =
  let ys := good_prefix copy_throws xs2 in
  if all_good copy_throws xs2
  then Done tt (upd b (pre_b ++ map Some (xs1 ++ xs2) ++ post_b) (map EvCopyCtor xs2) s)
  else Throw (upd b (pre_b ++ replicate (length xs1 + length ys) None
                       ++ drop (length ys) mid ++ post_b)
                (map EvCopyCtor ys ++ map EvDtor (xs1 ++ ys)) s).
Proof.
  induction xs2 as [|y xs2 IH];
    intros s a b pa post_a pre_b post_b xs1 mid i j k Hab Ha Hb Hmid Hi Hj Hk.
  - destruct mid; [|done]. simpl. unfold ret. rewrite app_nil_r.
    by rewrite upd_id.
  - destruct mid as [|c mid]; [done|]. simpl in Hmid.
    cbn [uninitialized_copy_loop length]. unfold bind at 1, catch, bind at 1.
    unfold ptr_add; simpl off; simpl base.
    erewrite (load_at _ _ _ pa _ y); [|exact Ha|done|done].
    unfold construct_copy. rewrite all_good_cons. cbn [good_prefix].
    destruct (copy_throws y) eqn:Hy; simpl negb; cbv iota.
    + unfold throw at 1. unfold bind at 1.
      subst k. rewrite (destroy_n_spec xs1 _ _ _ _ _ Hb Hj).
      unfold throw. simpl. by list_norm; rewrite Nat.add_0_r.
    + unfold bind at 1. rewrite (emit_upd _ _ _ _ Hb).
      erewrite (store_at _ b _ (pre_b ++ map Some xs1) (mid ++ post_b) c);
        [|apply heap_upd_eq|by list_norm|list_norm; lia].
      rewrite upd_upd.
      erewrite (IH _ a b (pa ++ [Some y]) post_a pre_b post_b (xs1 ++ [y]) mid i j (S k));
        [|done|rewrite heap_upd_ne by done; by list_norm|rewrite heap_upd_eq; by list_norm
         |lia|list_norm; lia|done|list_norm; lia].
      simpl. destruct (all_good copy_throws xs2).
      * rewrite upd_upd. by list_norm.
      * rewrite upd_upd. list_norm.
        replace (length xs1 + S (length (good_prefix copy_throws xs2)))
          with (length xs1 + 1 + length (good_prefix copy_throws xs2)) by lia.
        done.
Qed.


Lemma upd_merge2 a b ca1 ca2 cb1 cb2 l1 l2 l3 l4 s :
  a ≠ b →
  upd b cb2 l4 (upd a ca2 l3 (upd b cb1 l2 (upd a ca1 l1 s)))
  = upd b cb2 (l1 ++ l2 ++ l3 ++ l4) (upd a ca2 [] s).
Proof.
  intros Hab. unfold upd; simpl. f_equal.
  - apply map_eq; intros k. rewrite !lookup_insert. by repeat case_decide.
  - by list_norm.
Qed.

Lemma upd_swap a b ca cb l1 l2 s :
  a ≠ b → upd a ca l1 (upd b cb l2 s) = upd b cb (l2 ++ l1) (upd a ca [] s).
Proof.
  intros Hab. unfold upd; simpl. f_equal.
  - by apply insert_insert_ne.
  - by list_norm.
Qed.

Ltac munfold := unfold bind, catch, throw, ret, undefined.
Ltac mred := cbv beta iota.

Lemma uninitialized_move_loop_spec xs2 : ∀ s a b pa post_a pre_b post_b xs1 mid i j k,
  a ≠ b →
  heap s !! a = Some (pa ++ map Some xs2 ++ post_a) →
  heap s !! b = Some (pre_b ++ map Some xs1 ++ mid ++ post_b) →
  length mid = length xs2 → i + k = length pa → j = length pre_b → k = length xs1 →
  if all_good move_fails xs2
  then uninitialized_move_loop Mutable (Ptr (Some a) i) (Ptr (Some b) j) k (length xs2) s
       = Done tt (upd b (pre_b ++ map Some (xs1 ++ xs2) ++ post_b) (map EvMoveCtor xs2)
                    (upd a (pa ++ map Some (moved_from <$> xs2) ++ post_a) [] s))
  else ∃ s', uninitialized_move_loop Mutable (Ptr (Some a) i) (Ptr (Some b) j) k (length xs2) s
             = Throw s'.
Proof.
  induction xs2 as [|y xs2 IH];
    intros s a b pa post_a pre_b post_b xs1 mid i j k Hab Ha Hb Hmid Hi Hj Hk.
  - destruct mid; [|done]. simpl. unfold ret. rewrite app_nil_r.
    rewrite upd_id; [by rewrite upd_id|]. by rewrite upd_id.
  - destruct mid as [|c mid]; [done|]. simpl in Hmid.
    specialize (IH (upd b ((pre_b ++ map Some xs1) ++ Some y :: mid ++ post_b) []
                      (upd a (pa ++ Some (moved_from y) :: map Some xs2 ++ post_a)
                         ([EvMoveCtor y] ++ []) s))
                  a b (pa ++ [Some (moved_from y)]) post_a pre_b post_b
                  (xs1 ++ [y]) mid i j (S k)).
    rewrite all_good_cons.
    assert (Hstep : move_fails y = false →
      catch (construct_rvalue Mutable (Ptr (Some b) j +ₚ k) (Ptr (Some a) i +ₚ k))
            (bind (destroy_n (Ptr (Some b) j) k) (λ _, throw)) s
      = Done tt (upd b ((pre_b ++ map Some xs1) ++ Some y :: mid ++ post_b) []
                   (upd a (pa ++ Some (moved_from y) :: map Some xs2 ++ post_a)
                      ([EvMoveCtor y] ++ []) s))).
    { intros Hy. unfold construct_rvalue, construct_move. munfold.
      unfold ptr_add; cbn [off base].
      erewrite (load_at _ _ _ pa _ y); [|exact Ha|done|done]. mred. rewrite Hy.
      rewrite (emit_upd _ _ _ _ Ha). mred.
      erewrite (store_at _ a _ pa (map Some xs2 ++ post_a) (Some y));
        [|apply heap_upd_eq|by list_norm|lia]. mred.
      rewrite upd_upd.
      erewrite (store_at _ b _ (pre_b ++ map Some xs1) (mid ++ post_b) c);
        [|rewrite heap_upd_ne by done; exact Hb|by list_norm|list_norm; lia].
      done. }
    cbn [uninitialized_move_loop length].
    destruct (move_fails y) eqn:Hy; simpl negb; simpl andb.
    + eexists. unfold construct_rvalue, construct_move. munfold.
      unfold ptr_add; cbn [off base].
      erewrite (load_at _ _ _ pa _ y); [|exact Ha|done|done]. mred. rewrite Hy.
      subst k. rewrite (destroy_n_spec xs1 _ _ _ _ _ Hb Hj). done.
    + destruct (all_good move_fails xs2).
      * unfold bind at 1. rewrite Hstep by done.
        rewrite IH;
          [|done|rewrite heap_upd_ne, heap_upd_eq by done; by list_norm
           |rewrite heap_upd_eq; by list_norm|lia|list_norm; lia|done|list_norm; lia].
        rewrite upd_merge2 by done. by list_norm.
      * destruct IH as [s' IH];
          [done|rewrite heap_upd_ne, heap_upd_eq by done; by list_norm
           |rewrite heap_upd_eq; by list_norm|lia|list_norm; lia|done|list_norm; lia|].
        exists s'. unfold bind at 1. by rewrite Hstep.
Qed.

Lemma uninitialized_move_loop_Const first d_first n : ∀ k s,
  uninitialized_move_loop Const first d_first k n s
  = uninitialized_copy_loop first d_first k n s.
Proof.
  induction n as [|n IH]; intros k s; simpl; [done|].
  unfold bind. by destruct (catch _ _ s).
Qed.

(** [uninitialized_value_construct_n] into raw cells. *)
Lemma uninitialized_value_construct_loop_spec n : ∀ s b pre_b post_b xs1 mid j k,
  heap s !! b = Some (pre_b ++ map Some xs1 ++ mid ++ post_b) →
  length mid = n → j = length pre_b → k = length xs1 →
  match default_ctor with
  | Some d =>
      uninitialized_value_construct_loop (Ptr (Some b) j) k n s
      = Done tt (upd b (pre_b ++ map Some (xs1 ++ replicate n d) ++ post_b)
                   (replicate n (EvDefaultCtor d)) s)
  | None =>
      n ≠ 0 →
      uninitialized_value_construct_loop (Ptr (Some b) j) k n s
      = Throw (upd b (pre_b ++ replicate k None ++ mid ++ post_b) (map EvDtor xs1) s)
  end.
Proof.
  induction n as [|n IH]; intros s b pre_b post_b xs1 mid j k Hb Hmid Hj Hk.
  - destruct mid; [|done]. destruct default_ctor; [|done].
    simpl. unfold ret. list_norm. by rewrite upd_id.
  - destruct mid as [|c mid]; [done|]. simpl in Hmid.
    cbn [uninitialized_value_construct_loop]. unfold construct_default.
    specialize (IH (upd b ((pre_b ++ map Some xs1) ++ default_ctor :: mid ++ post_b) []
                      (upd b (pre_b ++ map Some xs1 ++ (c :: mid) ++ post_b)
                         (match default_ctor with Some d => [EvDefaultCtor d] | None => [] end) s))
                  b pre_b post_b
                  (xs1 ++ match default_ctor with Some d => [d] | None => [] end) mid j (S k)).
    destruct default_ctor as [d|].
    + munfold. rewrite (emit_upd _ _ _ _ Hb). mred.
      unfold ptr_add; cbn [off base].
      erewrite (store_at _ b _ (pre_b ++ map Some xs1) (mid ++ post_b) c);
        [|apply heap_upd_eq|by list_norm|list_norm; lia].
      mred.
      rewrite IH; [|rewrite heap_upd_eq; by list_norm|lia|done|list_norm; lia].
      rewrite !upd_upd. by list_norm.
    + intros _. munfold. mred. subst k.
      rewrite (destroy_n_spec xs1 _ _ _ _ _ Hb Hj). done.
Qed.


Lemma assign_copy_spec s a b pa post_a pb post_b y z i j :
  a ≠ b →
  heap s !! a = Some (pa ++ Some y :: post_a) →
  heap s !! b = Some (pb ++ Some z :: post_b) →
  i = length pa → j = length pb →
  assign_copy (Ptr (Some b) j) (Ptr (Some a) i) s
  = if copy_assign_throws y then Throw s
    else Done tt (upd b (pb ++ Some y :: post_b) [EvCopyAssign y] s).
Proof.
  intros Hab Ha Hb Hi Hj. unfold assign_copy. munfold.
  erewrite (load_at _ a); [|done..]. mred.
  erewrite (load_at _ b); [|done..]. mred.
  destruct (copy_assign_throws y); [done|].
  rewrite (emit_upd _ _ _ _ Hb). mred.
  erewrite (store_at _ b); [|apply heap_upd_eq|done..].
  by rewrite upd_upd.
Qed.

Lemma copy_loop_spec xs2 : ∀ s a b pa post_a pb post_b zs2 i j k,
  a ≠ b →
  heap s !! a = Some (pa ++ map Some xs2 ++ post_a) →
  heap s !! b = Some (pb ++ map Some zs2 ++ post_b) →
  length zs2 = length xs2 → i + k = length pa → j + k = length pb →
  if all_good copy_assign_throws xs2
  then copy_loop (Ptr (Some a) i) (Ptr (Some b) j) k (length xs2) s
       = Done tt (upd b (pb ++ map Some xs2 ++ post_b) (map EvCopyAssign xs2) s)
  else ∃ s', copy_loop (Ptr (Some a) i) (Ptr (Some b) j) k (length xs2) s = Throw s'.
Proof.
  induction xs2 as [|y xs2 IH];
    intros s a b pa post_a pb post_b zs2 i j k Hab Ha Hb Hlen Hi Hj.
  - destruct zs2; [|done]. simpl. unfold ret. by rewrite upd_id.
  - destruct zs2 as [|z zs2]; [done|]. simpl in Hlen.
    rewrite all_good_cons. cbn [copy_loop length].
    pose proof (assign_copy_spec s a b pa (map Some xs2 ++ post_a) pb
                  (map Some zs2 ++ post_b) y z (i + k) (j + k) Hab Ha Hb Hi Hj) as Hstep.
    specialize (IH (upd b (pb ++ Some y :: map Some zs2 ++ post_b) [EvCopyAssign y] s)
                  a b (pa ++ [Some y]) post_a (pb ++ [Some y]) post_b zs2 i j (S k)).
    unfold ptr_add in *; cbn [off base] in *.
    destruct (copy_assign_throws y); simpl negb; simpl andb.
    { exists s. unfold bind. by rewrite Hstep. }
    destruct (all_good copy_assign_throws xs2).
    + unfold bind at 1. rewrite Hstep. rewrite IH;
        [|done|rewrite heap_upd_ne by done; by list_norm|rewrite heap_upd_eq; by list_norm
         |lia|list_norm; lia|list_norm; lia].
      rewrite upd_upd. by list_norm.
    + destruct IH as [s' IH];
        [done|rewrite heap_upd_ne by done; by list_norm|rewrite heap_upd_eq; by list_norm
         |lia|list_norm; lia|list_norm; lia|].
      exists s'. unfold bind at 1. by rewrite Hstep.
Qed.

Lemma assign_move_block s a cells isrc idst y z :
  heap s !! a = Some cells →
  cells !! isrc = Some (Some y) → cells !! idst = Some (Some z) →
  assign_move (Ptr (Some a) idst) (Ptr (Some a) isrc) s
  = if move_assign_throws y then Throw s
    else Done tt (upd a (<[idst := Some y]> (<[isrc := Some (moved_from y)]> cells))
                    [EvMoveAssign y] s).
Proof.
  intros Ha Hsrc Hdst. unfold assign_move. munfold.
  erewrite (load_block _ a); [|done..]. mred.
  erewrite (load_block _ a); [|done..]. mred.
  destruct (move_assign_throws y); [done|].
  rewrite (emit_upd _ _ _ _ Ha). mred.
  erewrite (store_block _ a); [|apply heap_upd_eq|by eapply lookup_lt_Some].
  mred. rewrite upd_upd.
  erewrite (store_block _ a); [|apply heap_upd_eq|].
  - by rewrite upd_upd.
  - rewrite length_insert. by eapply lookup_lt_Some.
Qed.

(** [std::move] of the range behind a cell onto that cell: a shift to the
    left by one. *)
Lemma move_loop_spec xs2 : ∀ s a pre dn h post i j k,
  heap s !! a = Some (pre ++ map Some dn ++ Some h :: map Some xs2 ++ post) →
  j = length pre → i = j + 1 → k = length dn →
  if all_good move_assign_throws xs2
  then move_loop (Ptr (Some a) i) (Ptr (Some a) j) k (length xs2) s
       = Done tt (upd a (pre ++ map Some (dn ++ xs2) ++ Some (hole_left h xs2) :: post)
                    (map EvMoveAssign xs2) s)
  else ∃ s', move_loop (Ptr (Some a) i) (Ptr (Some a) j) k (length xs2) s = Throw s'.
Proof.
  induction xs2 as [|y xs2 IH]; intros s a pre dn h post i j k Ha Hj Hi Hk.
  - simpl. unfold ret. list_norm. by rewrite upd_id.
  - rewrite all_good_cons. cbn [move_loop length].
    pose proof (assign_move_block s a _ (i + k) (j + k) y h Ha) as Hstep.
    rewrite (lookup_at _ (pre ++ map Some dn ++ [Some h]) (map Some xs2 ++ post) (Some y))
      in Hstep; [|by list_norm|list_norm; lia].
    rewrite (lookup_at _ (pre ++ map Some dn) (map Some (y :: xs2) ++ post) (Some h))
      in Hstep; [|by list_norm|list_norm; lia].
    specialize (Hstep eq_refl eq_refl).
    rewrite (insert_at _ (pre ++ map Some dn ++ [Some h]) (map Some xs2 ++ post) (Some y)
               (Some (moved_from y)))
      in Hstep; [|by list_norm|list_norm; lia].
    rewrite (insert_at _ (pre ++ map Some dn)
               (Some (moved_from y) :: map Some xs2 ++ post) (Some h))
      in Hstep; [|by list_norm|list_norm; lia].
    specialize (IH (upd a ((pre ++ map Some dn) ++ Some y :: Some (moved_from y)
                             :: map Some xs2 ++ post) [EvMoveAssign y] s)
                  a pre (dn ++ [y]) (moved_from y) post i j (S k)).
    unfold ptr_add in *; cbn [off base] in *.
    destruct (move_assign_throws y); simpl negb; simpl andb.
    { exists s. unfold bind. by rewrite Hstep. }
    assert (hole_left h (y :: xs2) = hole_left (moved_from y) xs2) as ->.
    { unfold hole_left. destruct xs2 as [|x xs']; [done|].
      rewrite last_cons_cons. destruct (last (x :: xs')) eqn:Hl; [done|].
      by apply last_None in Hl. }
    destruct (all_good move_assign_throws xs2).
    + unfold bind at 1. rewrite Hstep.
      rewrite IH; [|rewrite heap_upd_eq; by list_norm|done|done|list_norm; lia].
      rewrite upd_upd. by list_norm.
    + destruct IH as [s' IH]; [rewrite heap_upd_eq; by list_norm|done|done|list_norm; lia|].
      exists s'. unfold bind at 1. by rewrite Hstep.
Qed.


Lemma all_good_app bad xs ys :
  all_good bad (xs ++ ys) = all_good bad xs && all_good bad ys.
Proof. unfold all_good. apply forallb_app. Qed.

Lemma hole_right_snoc h xs y :
  hole_right h (xs ++ [y]) = hole_right (moved_from y) xs.
Proof. by destruct xs. Qed.

Lemma ptr_sub_spec a l n s :
  n ≤ l → ptr_sub (Ptr (Some a) l) n s = Done (Ptr (Some a) (l - n)) s.
Proof. intros. unfold ptr_sub. by rewrite decide_True. Qed.

(** [std::move_backward] of a range onto the cells one further: a shift to
    the right by one. *)
Lemma move_backward_loop_spec xs1 : ∀ s a pre h dn post l dl k,
  heap s !! a = Some (pre ++ map Some xs1 ++ Some h :: map Some dn ++ post) →
  l = length pre + length xs1 + k → dl = l + 1 → k = length dn →
  if all_good move_assign_throws xs1
  then move_backward_loop (Ptr (Some a) l) (Ptr (Some a) dl) k (length xs1) s
       = Done tt (upd a (pre ++ Some (hole_right h xs1) :: map Some (xs1 ++ dn) ++ post)
                    (map EvMoveAssign (reverse xs1)) s)
  else ∃ s', move_backward_loop (Ptr (Some a) l) (Ptr (Some a) dl) k (length xs1) s
             = Throw s'.
Proof.
  induction xs1 as [|y xs1 IH] using rev_ind; intros s a pre h dn post l dl k Ha Hl Hdl Hk.
  - simpl. unfold ret. by rewrite upd_id.
  - rewrite all_good_app, length_app, Nat.add_1_r. cbn [move_backward_loop].
    unfold all_good at 2; cbn [forallb]. rewrite andb_true_r.
    rewrite length_app in Hl; simpl in Hl.
    pose proof (assign_move_block s a _ (l - S k) (dl - S k) y h Ha) as Hstep.
    rewrite (lookup_at _ (pre ++ map Some xs1) (Some h :: map Some dn ++ post) (Some y))
      in Hstep; [|by list_norm|list_norm; lia].
    rewrite (lookup_at _ (pre ++ map Some xs1 ++ [Some y]) (map Some dn ++ post) (Some h))
      in Hstep; [|by list_norm|list_norm; lia].
    specialize (Hstep eq_refl eq_refl).
    rewrite (insert_at _ (pre ++ map Some xs1) (Some h :: map Some dn ++ post) (Some y)
               (Some (moved_from y)))
      in Hstep; [|by list_norm|list_norm; lia].
    rewrite (insert_at _ (pre ++ map Some xs1 ++ [Some (moved_from y)])
               (map Some dn ++ post) (Some h))
      in Hstep; [|by list_norm|list_norm; lia].
    specialize (IH (upd a ((pre ++ map Some xs1 ++ [Some (moved_from y)]) ++ Some y
                             :: map Some dn ++ post) [EvMoveAssign y] s)
                  a pre (moved_from y) (y :: dn) post l dl (S k)).
    rewrite hole_right_snoc, reverse_snoc.
    destruct (move_assign_throws y); simpl negb.
    { rewrite andb_false_r. exists s. munfold.
      rewrite !ptr_sub_spec by lia. mred. by rewrite Hstep. }
    rewrite andb_true_r.
    destruct (all_good move_assign_throws xs1).
    + munfold. rewrite !ptr_sub_spec by lia. mred. rewrite Hstep.
      rewrite IH; [|rewrite heap_upd_eq; by list_norm|lia|done|simpl; lia].
      rewrite upd_upd. by list_norm.
    + destruct IH as [s' IH]; [rewrite heap_upd_eq; by list_norm|lia|done|simpl; lia|].
      exists s'. munfold. rewrite !ptr_sub_spec by lia. mred. by rewrite Hstep.
Qed.

(** ** The algorithms between two blocks, from their first cell *)

Lemma uninitialized_copy_n_spec s a b xs pa post_a pre_b mid post_b i j :
  a ≠ b →
  heap s !! a = Some (pa ++ map Some xs ++ post_a) →
  heap s !! b = Some (pre_b ++ mid ++ post_b) →
  length mid = length xs → i = length pa → j = length pre_b →
  uninitialized_copy_n (Ptr (Some a) i) (length xs) (Ptr (Some b) j) s =
  let ys := good_prefix copy_throws xs in
  if all_good copy_throws xs
  then Done tt (upd b (pre_b ++ map Some xs ++ post_b) (map EvCopyCtor xs) s)
  else Throw (upd b (pre_b ++ replicate (length ys) None ++ drop (length ys) mid ++ post_b)
                (map EvCopyCtor ys ++ map EvDtor ys) s).
Proof.
  intros Hab Ha Hb Hmid Hi Hj. unfold uninitialized_copy_n.
  by rewrite (uninitialized_copy_loop_spec xs s a b pa post_a pre_b post_b [] mid i j 0)
    by (done || lia).
Qed.

Lemma uninitialized_move_n_spec s a b xs pa post_a pre_b mid post_b i j :
  a ≠ b →
  heap s !! a = Some (pa ++ map Some xs ++ post_a) →
  heap s !! b = Some (pre_b ++ mid ++ post_b) →
  length mid = length xs → i = length pa → j = length pre_b →
  if all_good move_fails xs
  then uninitialized_move_n Mutable (Ptr (Some a) i) (length xs) (Ptr (Some b) j) s
       = Done tt (upd b (pre_b ++ map Some xs ++ post_b) (map EvMoveCtor xs)
                    (upd a (pa ++ map Some (moved_from <$> xs) ++ post_a) [] s))
  else ∃ s', uninitialized_move_n Mutable (Ptr (Some a) i) (length xs) (Ptr (Some b) j) s
             = Throw s'.
Proof.
  intros Hab Ha Hb Hmid Hi Hj. unfold uninitialized_move_n.
  apply (uninitialized_move_loop_spec xs s a b pa post_a pre_b post_b [] mid i j 0);
    done || lia.
Qed.

Lemma uninitialized_move_n_Const first n d_first s :
  uninitialized_move_n Const first n d_first s = uninitialized_copy_n first n d_first s.
Proof. apply uninitialized_move_loop_Const. Qed.

Lemma uninitialized_value_construct_n_spec s b n pre_b mid post_b j d :
  heap s !! b = Some (pre_b ++ mid ++ post_b) →
  length mid = n → j = length pre_b → default_ctor = Some d →
  uninitialized_value_construct_n (Ptr (Some b) j) n s
  = Done tt (upd b (pre_b ++ map Some (replicate n d) ++ post_b)
               (replicate n (EvDefaultCtor d)) s).
Proof.
  intros Hb Hmid Hj Hd. unfold uninitialized_value_construct_n.
  pose proof (uninitialized_value_construct_loop_spec n s b pre_b post_b [] mid j 0
                Hb Hmid Hj eq_refl) as H.
  by rewrite Hd in H.
Qed.

Lemma std_copy_spec s a b xs pa post_a pb zs post_b i j :
  a ≠ b →
  heap s !! a = Some (pa ++ map Some xs ++ post_a) →
  heap s !! b = Some (pb ++ map Some zs ++ post_b) →
  length zs = length xs → i = length pa → j = length pb →
  if all_good copy_assign_throws xs
  then std_copy (Ptr (Some a) i) (Ptr (Some a) i +ₚ length xs) (Ptr (Some b) j) s
       = Done tt (upd b (pb ++ map Some xs ++ post_b) (map EvCopyAssign xs) s)
  else ∃ s', std_copy (Ptr (Some a) i) (Ptr (Some a) i +ₚ length xs) (Ptr (Some b) j) s
             = Throw s'.
Proof.
  intros Hab Ha Hb Hlen Hi Hj.
  pose proof (copy_loop_spec xs s a b pa post_a pb post_b zs i j 0 Hab Ha Hb Hlen) as H.
  unfold std_copy, distance, ptr_add; cbn [off base].
  rewrite decide_True by (split; [done|lia]).
  replace (i + length xs - i) with (length xs) by lia.
  destruct (all_good copy_assign_throws xs).
  - unfold bind, ret. apply H; lia.
  - destruct H as [s' H]; [lia..|]. exists s'. unfold bind, ret. apply H.
Qed.



(** ** Computations that neither touch the object store nor allocate *)

Lemma heap_only_ret {A} (a : A) : heap_only (ret a).
Proof. by intros s. Qed.

Lemma heap_only_throw {A} : heap_only (throw (A:=A)).
Proof. by intros s. Qed.

Lemma heap_only_undefined {A} : heap_only (undefined (A:=A)).
Proof. by intros s. Qed.

Lemma heap_only_bind {A B} (m : M A) (f : A → M B) :
  heap_only m → (∀ a, heap_only (f a)) → heap_only (bind m f).
Proof.
  intros Hm Hf s. unfold bind. specialize (Hm s).
  destruct (m s) as [a s1|s1|]; simpl in *; [|done..].
  specialize (Hf a s1). destruct (f a s1); simpl in *; [| |done];
    (destruct Hm as [H1 H2], Hf as [H3 H4]; split; congruence).
Qed.

Lemma heap_only_catch {A} (m h : M A) :
  heap_only m → heap_only h → heap_only (catch m h).
Proof.
  intros Hm Hh s. unfold catch. specialize (Hm s).
  destruct (m s) as [a s1|s1|]; simpl in *; [done| |done].
  specialize (Hh s1). destruct (h s1); simpl in *; [| |done];
    (destruct Hm as [H1 H2], Hh as [H3 H4]; split; congruence).
Qed.

Lemma heap_only_if {A} (b : bool) (m1 m2 : M A) :
  heap_only m1 → heap_only m2 → heap_only (if b then m1 else m2).
Proof. by destruct b. Qed.

Lemma heap_only_emit e : heap_only (emit e).
Proof. by intros s. Qed.

Lemma heap_only_load p : heap_only (load p).
Proof. intros s. unfold load. by destruct (cell_at s p) as [[?|]|]. Qed.

Lemma heap_only_store p c : heap_only (store p c).
Proof.
  intros s. unfold store. destruct (base p) as [a|]; [|done].
  destruct (heap s !! a) as [cells|] eqn:Ha; [|done].
  case_decide; [|done]. simpl. split; [done|].
  by apply dom_insert_lookup_L.
Qed.

Lemma heap_only_ptr_sub p n : heap_only (ptr_sub p n).
Proof. intros s. unfold ptr_sub. by case_decide. Qed.

Lemma heap_only_distance first last : heap_only (distance first last).
Proof. intros s. unfold distance. by case_decide. Qed.

Create HintDb heap_only.
Hint Resolve heap_only_ret heap_only_throw heap_only_undefined heap_only_emit
  heap_only_load heap_only_store heap_only_ptr_sub heap_only_distance : heap_only.

Ltac heap_only_tac :=
  repeat first
    [ apply heap_only_bind; [|intros ?]
    | apply heap_only_catch
    | apply heap_only_if
    | progress eauto with heap_only
    | match goal with
      | |- heap_only (match ?x with _ => _ end) => destruct x
      end ].

Lemma heap_only_construct_copy p x : heap_only (construct_copy p x).
Proof. unfold construct_copy. heap_only_tac. Qed.

Lemma heap_only_construct_move p src : heap_only (construct_move p src).
Proof. unfold construct_move. heap_only_tac. Qed.

Lemma heap_only_construct_default p : heap_only (construct_default p).
Proof. unfold construct_default. heap_only_tac. Qed.

Lemma heap_only_assign_copy p src : heap_only (assign_copy p src).
Proof. unfold assign_copy. heap_only_tac. Qed.

Lemma heap_only_assign_move p src : heap_only (assign_move p src).
Proof. unfold assign_move. heap_only_tac. Qed.

Lemma heap_only_destroy_at p : heap_only (destroy_at p).
Proof. unfold destroy_at. heap_only_tac. Qed.

Lemma heap_only_construct_from a : heap_only (construct_from a).
Proof. unfold construct_from. heap_only_tac. Qed.

Hint Resolve heap_only_construct_copy heap_only_construct_move
  heap_only_construct_default heap_only_assign_copy heap_only_assign_move
  heap_only_destroy_at heap_only_construct_from : heap_only.

Lemma heap_only_construct_rvalue q p src : heap_only (construct_rvalue q p src).
Proof. unfold construct_rvalue. heap_only_tac. Qed.

Lemma heap_only_construct_at p a : heap_only (construct_at p a).
Proof. unfold construct_at. heap_only_tac. Qed.

Lemma heap_only_destroy_n n : ∀ first, heap_only (destroy_n first n).
Proof. induction n; intros first; simpl; heap_only_tac. Qed.

Hint Resolve heap_only_construct_rvalue heap_only_construct_at
  heap_only_destroy_n : heap_only.

Lemma heap_only_uninitialized_value_construct_n first n :
  heap_only (uninitialized_value_construct_n first n).
Proof.
  unfold uninitialized_value_construct_n. generalize 0.
  induction n; intros k; simpl; heap_only_tac.
Qed.

Lemma heap_only_uninitialized_copy_n first n d_first :
  heap_only (uninitialized_copy_n first n d_first).
Proof.
  unfold uninitialized_copy_n. generalize 0.
  induction n; intros k; simpl; heap_only_tac.
Qed.

Lemma heap_only_uninitialized_move_n q first n d_first :
  heap_only (uninitialized_move_n q first n d_first).
Proof.
  unfold uninitialized_move_n. generalize 0.
  induction n; intros k; simpl; heap_only_tac.
Qed.

Lemma heap_only_copy_loop first d_first n : ∀ k, heap_only (copy_loop first d_first k n).
Proof. induction n; intros k; simpl; heap_only_tac. Qed.

Lemma heap_only_move_loop first d_first n : ∀ k, heap_only (move_loop first d_first k n).
Proof. induction n; intros k; simpl; heap_only_tac. Qed.

Lemma heap_only_move_backward_loop last d_last n :
  ∀ k, heap_only (move_backward_loop last d_last k n).
Proof. induction n; intros k; simpl; heap_only_tac. Qed.

Hint Resolve heap_only_uninitialized_value_construct_n heap_only_uninitialized_copy_n
  heap_only_uninitialized_move_n heap_only_copy_loop heap_only_move_loop
  heap_only_move_backward_loop : heap_only.

Lemma heap_only_std_copy first last d_first : heap_only (std_copy first last d_first).
Proof. unfold std_copy. heap_only_tac. Qed.

Lemma heap_only_std_move_range first last d_first :
  heap_only (std_move_range first last d_first).
Proof. unfold std_move_range. heap_only_tac. Qed.

Lemma heap_only_std_move_backward first last d_last :
  heap_only (std_move_backward first last d_last).
Proof. unfold std_move_backward. heap_only_tac. Qed.

Hint Resolve heap_only_std_copy heap_only_std_move_range
  heap_only_std_move_backward : heap_only.

Lemma heap_only_Throw {A} (m : M A) s s' :
  heap_only m → m s = Throw s' → objs s' = objs s ∧ dom (heap s') = dom (heap s).
Proof. intros Hm H. specialize (Hm s). by rewrite H in Hm. Qed.

Lemma heap_only_Done {A} (m : M A) s r s' :
  heap_only m → m s = Done r s' → objs s' = objs s ∧ dom (heap s') = dom (heap s).
Proof. intros Hm H. specialize (Hm s). by rewrite H in Hm. Qed.

Lemma heap_only_Throw_block {A} (m : M A) s s' a cells :
  heap_only m → m s = Throw s' → heap s !! a = Some cells →
  ∃ cells', heap s' !! a = Some cells'.
Proof.
  intros Hm H Ha. apply (heap_only_Throw _ _ _ Hm) in H as [_ Hd].
  apply elem_of_dom_2 in Ha. rewrite <- Hd in Ha. by apply elem_of_dom in Ha.
Qed.

Lemma dom_lookup_Some (h h' : gmap addr (list (option T))) a cells :
  dom h' = dom h → h !! a = Some cells → ∃ cells', h' !! a = Some cells'.
Proof.
  intros Hd Ha. apply elem_of_dom_2 in Ha. rewrite <- Hd in Ha.
  by apply elem_of_dom in Ha.
Qed.

(** ** Allocation and the object store *)

Lemma Allocate_spec n s :
  n ≠ 0 →
  Allocate n s = Done (Some (fresh (dom (heap s))))
                   (upd (fresh (dom (heap s))) (replicate n None) [] s).
Proof.
  intros Hn. unfold Allocate, upd, set_heap. rewrite decide_True by done.
  by rewrite app_nil_r.
Qed.

Lemma fresh_heap (s : state) : heap s !! fresh (dom (heap s)) = None.
Proof. apply not_elem_of_dom, is_fresh. Qed.

Lemma RawMemory_ctor_spec n s :
  n ≠ 0 →
  RawMemory_ctor n s = Done (mkRaw (Some (fresh (dom (heap s)))) n)
                         (upd (fresh (dom (heap s))) (replicate n None) [] s).
Proof. intros Hn. unfold RawMemory_ctor, bind. by rewrite Allocate_spec. Qed.

Lemma RawMemory_ctor_0 s : RawMemory_ctor 0 s = Done (mkRaw None 0) s.
Proof. done. Qed.

Lemma Deallocate_spec a cells s :
  heap s !! a = Some cells →
  Deallocate (Some a) s = Done tt (set_heap (delete a (heap s)) s).
Proof. intros Ha. unfold Deallocate. by rewrite Ha. Qed.

Lemma get_obj_spec this v s : objs s !! this = Some v → get_obj this s = Done v s.
Proof. intros H. unfold get_obj. by rewrite H. Qed.

Lemma put_obj_spec this v v' s :
  objs s !! this = Some v →
  put_obj this v' s = Done tt (set_objs (<[this := v']> (objs s)) s).
Proof. intros H. unfold put_obj. by rewrite H. Qed.

Lemma state_eq (s1 s2 : state) :
  objs s1 = objs s2 → heap s1 = heap s2 → log s1 = log s2 → s1 = s2.
Proof. destruct s1, s2; simpl; congruence. Qed.

(** Equality of two heaps built from inserts and deletes. *)
Ltac heap_eq :=
  apply map_eq; intros ?;
  repeat (rewrite ?lookup_insert, ?lookup_delete; simpl; case_decide; subst;
          try done; try congruence);
  repeat first [done | lia | rewrite app_nil_r | progress f_equal].

Lemma owns_None s v xs :
  owns s v xs → buffer_ (data_ v) = None →
  xs = [] ∧ size_ v = 0 ∧ capacity_ (data_ v) = 0.
Proof.
  intros (Hlen & Hle & Hb) Hn. rewrite Hn in Hb.
  assert (size_ v = 0) as Hz by lia. rewrite Hz in Hlen.
  by apply nil_length_inv in Hlen.
Qed.

Lemma owns_Some s v xs a :
  owns s v xs → buffer_ (data_ v) = Some a →
  length xs = size_ v ∧ size_ v ≤ capacity_ (data_ v) ∧ capacity_ (data_ v) ≠ 0 ∧
  heap s !! a = Some (map Some xs ++ replicate (capacity_ (data_ v) - size_ v) None).
Proof. intros (Hlen & Hle & Hb) Hs. rewrite Hs in Hb. by destruct Hb. Qed.

Lemma reloc_left_length xs : length (reloc_left <$> xs) = length xs.
Proof. apply length_fmap. Qed.

(** The [if constexpr] that relocates [xs] from block [a] to raw cells of
    block [b]. *)
Lemma relocate_spec s a b xs pa post_a pre_b mid post_b i j :
  a ≠ b →
  heap s !! a = Some (pa ++ map Some xs ++ post_a) →
  heap s !! b = Some (pre_b ++ mid ++ post_b) →
  length mid = length xs → i = length pa → j = length pre_b →
  if all_good reloc_fails xs
  then (if move_if_noexcept_policy
        then uninitialized_move_n Mutable (Ptr (Some a) i) (length xs) (Ptr (Some b) j)
        else uninitialized_copy_n (Ptr (Some a) i) (length xs) (Ptr (Some b) j)) s
       = Done tt (upd b (pre_b ++ map Some xs ++ post_b) (map reloc_event xs)
                    (upd a (pa ++ map Some (reloc_left <$> xs) ++ post_a) [] s))
  else ∃ s', (if move_if_noexcept_policy
              then uninitialized_move_n Mutable (Ptr (Some a) i) (length xs) (Ptr (Some b) j)
              else uninitialized_copy_n (Ptr (Some a) i) (length xs) (Ptr (Some b) j)) s
             = Throw s'.
Proof.
  intros Hab Ha Hb Hmid Hi Hj. unfold reloc_fails, reloc_event, reloc_left.
  destruct move_if_noexcept_policy.
  - by apply (uninitialized_move_n_spec s a b xs pa post_a pre_b mid post_b i j).
  - rewrite (uninitialized_copy_n_spec s a b xs pa post_a pre_b mid post_b i j) by done.
    simpl. destruct (all_good copy_throws xs); [|by eexists].
    rewrite list_fmap_id. by rewrite (upd_id a).
Qed.


Lemma replicate_split {A} (x : A) k n :
  k ≤ n → replicate n x = replicate k x ++ replicate (n - k) x.
Proof. intros. rewrite <- replicate_add. f_equal. lia. Qed.

(** ** [Reserve] *)

Lemma Reserve_noop this n v s :
  objs s !! this = Some v → n ≤ capacity_ (data_ v) → Reserve this n s = Done tt s.
Proof.
  intros Hv Hn. unfold Reserve, bind. rewrite (get_obj_spec _ _ _ Hv).
  by rewrite decide_True.
Qed.

Ltac vec_simpl :=
  unfold cbegin, cend, begin_, end_, Capacity, RawMemory_Capacity, RawMemory_Swap,
    RawMemory_dtor, GetAddress, ptr_add in *;
  cbn [data_ size_ buffer_ capacity_ off base fst snd Nat.add] in *.

(** One step of a computation whose outcome is known. *)
Ltac mstep :=
  first
    [ erewrite get_obj_spec by (simpl; first [eassumption | apply lookup_insert_eq])
    | erewrite put_obj_spec by (simpl; first [eassumption | apply lookup_insert_eq])
    | rewrite decide_True by (done || lia)
    | rewrite decide_False by (done || lia)
    | rewrite RawMemory_ctor_spec by lia
    | erewrite Deallocate_spec
        by (simpl; rewrite ?lookup_insert_eq, ?lookup_insert_ne by done; done) ];
  mred; vec_simpl.

Lemma Reserve_grow this n v xs s :
  objs s !! this = Some v → owns s v xs → capacity_ (data_ v) < n →
  if all_good reloc_fails xs
  then Reserve this n s
       = Done tt (settle this (mkVector (mkRaw (Some (fresh (dom (heap s)))) n) (size_ v)) xs
                    (map reloc_event xs ++ map EvDtor (reloc_left <$> xs))
                    (buffer_ (data_ v)) s)
  else ∃ s', Reserve this n s = Throw s'.
Proof.
  intros Hv Hown Hn. unfold Reserve.
  pose proof (fresh_heap s) as Hfresh. set (b := fresh (dom (heap s))) in *.
  destruct v as [[[a|] c] sz]; vec_simpl.
  - destruct (owns_Some _ _ _ _ Hown eq_refl) as (Hlen & Hle & Hc & Ha); vec_simpl.
    subst sz.
    assert (a ≠ b) as Hab by congruence.
    pose proof (relocate_spec (upd b (replicate n None) [] s) a b xs []
                  (replicate (c - length xs) None) [] (replicate (length xs) None)
                  (replicate (n - length xs) None) 0 0 Hab) as Hrel.
    rewrite heap_upd_ne, heap_upd_eq in Hrel by done.
    specialize (Hrel Ha).
    destruct (all_good reloc_fails xs).
    + munfold. do 2 mstep. rewrite RawMemory_ctor_spec by lia. fold b. mred. vec_simpl.
      rewrite Hrel;
        [|simpl; f_equal; apply replicate_split; lia|by rewrite length_replicate|done..].
      mred.
      pose proof (destroy_n_spec (reloc_left <$> xs)) as Hd.
      rewrite reloc_left_length in Hd.
      erewrite (Hd _ a [] _ 0); [|rewrite heap_upd_ne, heap_upd_eq by done; done|done].
      mred. repeat mstep.
      f_equal. apply state_eq; simpl; [done|heap_eq|by list_norm].
    + destruct Hrel as [s' Hrel];
        [simpl; f_equal; apply replicate_split; lia|by rewrite length_replicate|done..|].
      eexists. munfold. do 2 mstep. rewrite RawMemory_ctor_spec by lia. fold b. mred.
      vec_simpl. rewrite Hrel. mred.
      assert (∃ cells, heap s' !! b = Some cells) as [cells Hb'].
      { eapply heap_only_Throw_block; [|exact Hrel|apply heap_upd_eq]. heap_only_tac. }
      by rewrite (Deallocate_spec _ _ _ Hb').
  - destruct (owns_None _ _ _ Hown eq_refl) as (Hxs & Hsz & Hc); vec_simpl; subst.
    simpl. munfold. do 2 mstep. rewrite RawMemory_ctor_spec by lia. fold b. mred.
    unfold reloc_event, reloc_left.
    destruct move_if_noexcept_policy; simpl; munfold; repeat mstep;
      (f_equal; apply state_eq; simpl; [done|heap_eq|by list_norm]).
Qed.


(** [Reserve] under the copying policy, when the copy of an element throws:
    the heap and the object store are those of the call. *)
Lemma Reserve_throw_copy this n v xs s :
  objs s !! this = Some v → owns s v xs → capacity_ (data_ v) < n →
  move_if_noexcept_policy = false → all_good copy_throws xs = false →
  Reserve this n s
  = Throw (add_log (map EvCopyCtor (good_prefix copy_throws xs)
                      ++ map EvDtor (good_prefix copy_throws xs)) s).
Proof.
  intros Hv Hown Hn Hpol Hbad. unfold Reserve.
  pose proof (fresh_heap s) as Hfresh. set (b := fresh (dom (heap s))) in *.
  destruct v as [[[a|] c] sz]; vec_simpl.
  - destruct (owns_Some _ _ _ _ Hown eq_refl) as (Hlen & Hle & Hc & Ha); vec_simpl.
    subst sz. assert (a ≠ b) as Hab by congruence.
    munfold. do 2 mstep. rewrite RawMemory_ctor_spec by lia. fold b. mred. vec_simpl.
    rewrite Hpol.
    rewrite (uninitialized_copy_n_spec _ a b xs [] (replicate (c - length xs) None) []
               (replicate (length xs) None) (replicate (n - length xs) None) 0 0);
      [|done|by rewrite heap_upd_ne|rewrite heap_upd_eq; simpl; f_equal;
         apply replicate_split; lia|by rewrite length_replicate|done..].
    cbv zeta. rewrite Hbad. mred. mstep.
    f_equal. apply state_eq; simpl; [done|heap_eq|by list_norm].
  - destruct (owns_None _ _ _ Hown eq_refl) as (Hxs & Hsz & Hc); vec_simpl; subst.
    done.
Qed.

(** ** [PushBack] and [EmplaceBack] *)

Lemma construct_from_spec a s :
  construct_from a s = match arg_result a with
                       | Some (x, e) => Done x (add_log [e] s)
                       | None => Throw s
                       end.
Proof.
  unfold construct_from, arg_result.
  destruct a as [x|x|x|[x|]]; try done;
    first [by destruct (copy_throws x) | by destruct (move_fails x)].
Qed.

Lemma construct_at_spec s a cells pre post c args i :
  heap s !! a = Some cells → cells = pre ++ c :: post → i = length pre →
  construct_at (Ptr (Some a) i) args s
  = match arg_result args with
    | Some (x, e) => Done tt (upd a (pre ++ Some x :: post) [e] s)
    | None => Throw s
    end.
Proof.
  intros Ha Hc Hi. unfold construct_at, bind. rewrite construct_from_spec.
  destruct (arg_result args) as [[x e]|]; [|done].
  erewrite (store_at _ a cells); [|done..].
  unfold upd, add_log; simpl. by rewrite app_nil_r.
Qed.

Lemma PushBack_append this value : PushBack this value = append this (ConstLvalue value).
Proof. done. Qed.

Lemma PushBack_rvalue_append this value :
  PushBack_rvalue this value = append this (Rvalue value).
Proof. done. Qed.

Lemma EmplaceBack_append this args s :
  EmplaceBack this args s
  = match append this args s with
    | Done _ s' =>
        match objs s' !! this with
        | Some v => RawMemory_index (data_ v) (size_ v - 1) s'
        | None => Undefined
        end
    | Throw s' => Throw s'
    | Undefined => Undefined
    end.
Proof.
  unfold EmplaceBack, append, bind.
  destruct (get_obj this s) as [v s1| |]; [|done..].
  match goal with
  | |- context [match ?m s1 with Done _ _ => _ | Throw _ => _ | Undefined => _ end] =>
      destruct (m s1) as [[] s2| |]
  end; [|done..].
  destruct (get_obj this s2) as [v' s3| |]; [|done..].
  unfold put_obj. destruct (objs s3 !! this); [|done].
  simpl. rewrite lookup_insert_eq. simpl.
  by replace (size_ v' + 1 - 1) with (size_ v') by lia.
Qed.

Lemma append_inplace this args v xs s :
  objs s !! this = Some v → owns s v xs → size_ v < capacity_ (data_ v) →
  append this args s
  = match arg_result args with
    | Some (x, e) =>
        Done tt (settle this (mkVector (data_ v) (size_ v + 1)) (xs ++ [x]) [e] None s)
    | None => Throw s
    end.
Proof.
  intros Hv Hown Hlt. unfold append.
  destruct v as [[[a|] c] sz]; vec_simpl.
  - destruct (owns_Some _ _ _ _ Hown eq_refl) as (Hlen & Hle & Hc & Ha); vec_simpl.
    subst sz. munfold. do 2 mstep.
    erewrite (construct_at_spec _ a _ (map Some xs) (replicate (c - length xs - 1) None) None);
      [|exact Ha| |list_norm; lia].
    + destruct (arg_result args) as [[x e]|]; [|done]. mred. repeat mstep.
      f_equal. apply state_eq; simpl; [done| |done].
      list_norm. heap_eq.
    + f_equal. change (None :: ?l) with (replicate 1 (@None T) ++ l).
      rewrite <- replicate_add. f_equal. lia.
  - destruct (owns_None _ _ _ Hown eq_refl) as (Hxs & Hsz & Hc); vec_simpl; subst. lia.
Qed.


Lemma append_grow this args v xs s :
  objs s !! this = Some v → owns s v xs → size_ v = capacity_ (data_ v) →
  match arg_result args with
  | Some (x, e) =>
      if all_good reloc_fails xs
      then append this args s
           = Done tt (settle this
                        (mkVector (mkRaw (Some (fresh (dom (heap s))))
                                     (if decide (size_ v = 0) then 1 else size_ v * 2))
                           (size_ v + 1))
                        (xs ++ [x])
                        ([e] ++ map reloc_event xs ++ map EvDtor (reloc_left <$> xs))
                        (buffer_ (data_ v)) s)
      else ∃ s', append this args s = Throw s'
  | None => ∃ s', append this args s = Throw s'
  end.
Proof.
  intros Hv Hown Hfull. unfold append.
  pose proof (fresh_heap s) as Hfresh. set (b := fresh (dom (heap s))) in *.
  destruct v as [[[a|] c] sz]; vec_simpl.
  - destruct (owns_Some _ _ _ _ Hown eq_refl) as (Hlen & Hle & Hc & Ha); vec_simpl.
    subst sz c. assert (a ≠ b) as Hab by congruence.
    rewrite Nat.sub_diag in Ha. simpl in Ha.
    rewrite (decide_False (P := length xs = 0)) by done.
    set (s1 := upd b (replicate (length xs * 2) None) [] s).
    assert (construct_at (Ptr (Some b) (0 + length xs)) args s1
            = match arg_result args with
              | Some (x, e) =>
                  Done tt (upd b (replicate (length xs) None ++ Some x
                                    :: replicate ((length xs * 2) - length xs - 1) None) [e] s1)
              | None => Throw s1
              end) as Hcons.
    { apply (construct_at_spec s1 b (replicate (length xs * 2) None) _ _ None);
        [apply heap_upd_eq| |by rewrite length_replicate].
      change (None :: ?l) with (replicate 1 (@None T) ++ l).
      rewrite <- !replicate_add. f_equal. lia. }
    destruct (arg_result args) as [[x e]|].
    + pose proof (relocate_spec
                    (upd b (replicate (length xs) None ++ Some x
                              :: replicate ((length xs * 2) - length xs - 1) None) [e] s1)
                    a b xs [] [] [] (replicate (length xs) None)
                    (Some x :: replicate ((length xs * 2) - length xs - 1) None) 0 0 Hab) as Hrel.
      rewrite heap_upd_ne, heap_upd_eq in Hrel by done. unfold s1 in Hrel at 1.
      rewrite heap_upd_ne in Hrel by done.
      specialize (Hrel Ha eq_refl (length_replicate _ _) eq_refl eq_refl).
      destruct (all_good reloc_fails xs).
      * munfold. do 3 mstep. rewrite RawMemory_ctor_spec by lia. fold b s1. mred. vec_simpl.
        rewrite Hcons. mred. rewrite Hrel. mred.
        pose proof (destroy_n_spec (reloc_left <$> xs)) as Hd.
        rewrite reloc_left_length in Hd.
        erewrite (Hd _ a [] _ 0); [|rewrite heap_upd_ne, heap_upd_eq by done; done|done].
        mred. repeat mstep.
        f_equal. apply state_eq; simpl; [by rewrite insert_insert_eq| |by list_norm].
        list_norm. heap_eq.
      * destruct Hrel as [s' Hrel]. eexists.
        munfold. do 3 mstep. rewrite RawMemory_ctor_spec by lia. fold b s1. mred. vec_simpl.
        rewrite Hcons. mred. rewrite Hrel. mred.
        assert (∃ cells, heap s' !! b = Some cells) as [cells Hb'].
        { eapply heap_only_Throw_block; [|exact Hrel|apply heap_upd_eq]. heap_only_tac. }
        by rewrite (Deallocate_spec _ _ _ Hb').
    + eexists.
      munfold. do 3 mstep. rewrite RawMemory_ctor_spec by lia. fold b s1. mred. vec_simpl.
      rewrite Hcons. mred.
      by erewrite Deallocate_spec by apply heap_upd_eq.
  - destruct (owns_None _ _ _ Hown eq_refl) as (Hxs & Hsz & Hc); vec_simpl; subst.
    simpl. munfold. do 3 mstep. rewrite RawMemory_ctor_spec by lia. fold b. mred. vec_simpl.
    erewrite (construct_at_spec _ b _ [] [] None); [|apply heap_upd_eq|done..].
    destruct (arg_result args) as [[x e]|].
    + unfold reloc_event, reloc_left.
      destruct move_if_noexcept_policy; simpl; munfold; repeat mstep;
        (f_equal; apply state_eq; simpl; [by rewrite insert_insert_eq|heap_eq|by list_norm]).
    + eexists. mred. by erewrite Deallocate_spec by apply heap_upd_eq.
Qed.

(** ** [PopBack] *)

Lemma PopBack_spec this v xs x s :
  objs s !! this = Some v → owns s v (xs ++ [x]) →
  PopBack this s = Done tt (settle this (mkVector (data_ v) (size_ v - 1)) xs [EvDtor x] None s).
Proof.
  intros Hv Hown. unfold PopBack.
  destruct v as [[[a|] c] sz]; vec_simpl.
  - destruct (owns_Some _ _ _ _ Hown eq_refl) as (Hlen & Hle & Hc & Ha); vec_simpl.
    rewrite length_app in Hlen; simpl in Hlen. subst sz.
    munfold. mstep. unfold ptr_sub. vec_simpl. mstep.
    rewrite map_app, <- app_assoc in Ha.
    pose proof (destroy_n_spec [x] s a (map Some xs) _ (length xs + 1 - 1) Ha) as Hd.
    simpl in Hd. unfold bind, ret in Hd. simpl. munfold.
    rewrite Hd by (rewrite length_map; lia).
    mstep. f_equal. apply state_eq; simpl; [done| |done].
    heap_eq. change (None :: ?l) with (replicate 1 (@None T) ++ l).
    rewrite <- replicate_add. repeat f_equal. lia.
  - destruct (owns_None _ _ _ Hown eq_refl) as (Hxs & Hsz & Hc); vec_simpl; subst.
    by destruct xs.
Qed.


(** ** Construction, destruction, [Swap] *)

Lemma new_obj_spec this v s :
  objs s !! this = None →
  new_obj this v s = Done tt (set_objs (<[this := v]> (objs s)) s).
Proof. intros H. unfold new_obj. by rewrite H. Qed.

Lemma Vector_default_ctor_spec this s :
  objs s !! this = None →
  Vector_default_ctor this s
  = Done tt (settle this (mkVector RawMemory_default 0) [] [] None s).
Proof.
  intros H. unfold Vector_default_ctor. rewrite new_obj_spec by done.
  f_equal. apply state_eq; simpl; [done..|by rewrite app_nil_r].
Qed.

Lemma Vector_sized_ctor_spec this n s :
  objs s !! this = None →
  match default_ctor with
  | Some d =>
      Vector_sized_ctor this n s
      = Done tt (settle this (mkVector (mkRaw (new_handle n s) n) n) (replicate n d)
                   (replicate n (EvDefaultCtor d)) None s)
  | None =>
      if decide (n = 0)
      then Vector_sized_ctor this n s
           = Done tt (settle this (mkVector (mkRaw None 0) 0) [] [] None s)
      else Vector_sized_ctor this n s = Throw s
  end.
Proof.
  intros Hthis. unfold Vector_sized_ctor, new_handle.
  pose proof (fresh_heap s) as Hfresh. set (b := fresh (dom (heap s))) in *.
  destruct (decide (n = 0)) as [->|Hn].
  - assert (Vector_sized_ctor this 0 s
            = Done tt (settle this (mkVector (mkRaw None 0) 0) [] [] None s)) as H0.
    { unfold Vector_sized_ctor. munfold. simpl. munfold.
      rewrite new_obj_spec by done.
      f_equal. apply state_eq; simpl; [done..|by rewrite app_nil_r]. }
    unfold Vector_sized_ctor in H0. by destruct default_ctor.
  - rewrite decide_True by done.
    pose proof (uninitialized_value_construct_loop_spec n (upd b (replicate n None) [] s)
                  b [] [] [] (replicate n None) 0 0) as Hl.
    rewrite heap_upd_eq, app_nil_r in Hl.
    specialize (Hl eq_refl (length_replicate _ _) eq_refl eq_refl).
    unfold uninitialized_value_construct_n.
    destruct default_ctor as [d|].
    + munfold. rewrite RawMemory_ctor_spec by done. fold b. mred. vec_simpl.
      rewrite Hl. mred. rewrite new_obj_spec by done.
      f_equal. apply state_eq; simpl; [done| |by list_norm].
      list_norm. rewrite Nat.sub_diag. simpl. heap_eq.
    + munfold. rewrite RawMemory_ctor_spec by done. fold b. mred. vec_simpl.
      rewrite Hl by done. mred. mstep.
      f_equal. apply state_eq; simpl; [done|heap_eq|by list_norm].
Qed.

Lemma Vector_copy_ctor_spec this other o xs s :
  objs s !! this = None → objs s !! other = Some o → owns s o xs →
  Vector_copy_ctor this other s
  = if all_good copy_throws xs
    then Done tt (settle this (mkVector (mkRaw (new_handle (size_ o) s) (size_ o)) (size_ o))
                    xs (map EvCopyCtor xs) None s)
    else Throw (add_log (map EvCopyCtor (good_prefix copy_throws xs)
                           ++ map EvDtor (good_prefix copy_throws xs)) s).
Proof.
  intros Hthis Hother Hown. unfold Vector_copy_ctor, new_handle.
  pose proof (fresh_heap s) as Hfresh. set (b := fresh (dom (heap s))) in *.
  assert (∀ s1, (if move_if_noexcept_policy
                 then uninitialized_move_n Const (GetAddress (data_ o)) (size_ o)
                        (Ptr (Some b) 0)
                 else uninitialized_copy_n (GetAddress (data_ o)) (size_ o)
                        (Ptr (Some b) 0)) s1
                = uninitialized_copy_n (GetAddress (data_ o)) (size_ o) (Ptr (Some b) 0) s1)
    as Hpol.
  { intros s1. destruct move_if_noexcept_policy; [|done].
    apply uninitialized_move_n_Const. }
  destruct o as [[[a|] c] sz]; vec_simpl.
  - destruct (owns_Some _ _ _ _ Hown eq_refl) as (Hlen & Hle & Hc & Ha); vec_simpl.
    subst sz. assert (a ≠ b) as Hab by congruence.
    destruct (decide (length xs = 0)) as [Hz|Hnz].
    + apply nil_length_inv in Hz. subst xs. simpl. munfold. mstep. simpl. munfold.
      destruct move_if_noexcept_policy;
        unfold uninitialized_move_n, uninitialized_copy_n; simpl; munfold;
        rewrite new_obj_spec by done;
        (f_equal; apply state_eq; simpl; [done..|by rewrite app_nil_r]).
    + rewrite decide_True by done.
      munfold. mstep. rewrite RawMemory_ctor_spec by done. fold b. mred. vec_simpl.
      rewrite Hpol.
      rewrite (uninitialized_copy_n_spec _ a b xs [] (replicate (c - length xs) None) []
                 (replicate (length xs) None) [] 0 0);
        [|done|by rewrite heap_upd_ne
         |rewrite heap_upd_eq; simpl; by rewrite app_nil_r
         |by rewrite length_replicate|done..].
      cbv zeta. destruct (all_good copy_throws xs); mred.
      * rewrite new_obj_spec by done.
        f_equal. apply state_eq; simpl; [done| |by list_norm].
        rewrite Nat.sub_diag. simpl. heap_eq.
      * mstep. f_equal. apply state_eq; simpl; [done|heap_eq|by list_norm].
  - destruct (owns_None _ _ _ Hown eq_refl) as (Hxs & Hsz & Hc); vec_simpl; subst.
    simpl. munfold. mstep. simpl. munfold.
    destruct move_if_noexcept_policy;
      unfold uninitialized_move_n, uninitialized_copy_n; simpl; munfold;
      rewrite new_obj_spec by done;
      (f_equal; apply state_eq; simpl; [done..|by rewrite app_nil_r]).
Qed.

Lemma Vector_move_ctor_spec this other o s :
  objs s !! this = None → objs s !! other = Some o →
  Vector_move_ctor this other s
  = Done tt (set_objs (<[other := mkVector (mkRaw None 0) 0]> (<[this := o]> (objs s))) s).
Proof.
  intros Hthis Hother. unfold Vector_move_ctor.
  assert (this ≠ other) as Hne by congruence.
  destruct o as [[ob c] sz]. munfold. mstep. simpl. munfold. mstep.
  rewrite new_obj_spec by (simpl; by rewrite lookup_insert_ne).
  mred. erewrite put_obj_spec
    by (simpl; rewrite lookup_insert_ne by done; apply lookup_insert_eq).
  f_equal. apply state_eq; simpl; [|done..].
  apply map_eq; intros k. rewrite !lookup_insert. by repeat case_decide.
Qed.

Lemma Vector_dtor_spec this v xs s :
  objs s !! this = Some v → owns s v xs →
  Vector_dtor this s
  = Done tt (mkState (delete this (objs s)) (dealloc (buffer_ (data_ v)) (heap s))
               (log s ++ map EvDtor xs)).
Proof.
  intros Hv Hown. unfold Vector_dtor, del_obj.
  destruct v as [[[a|] c] sz]; vec_simpl.
  - destruct (owns_Some _ _ _ _ Hown eq_refl) as (Hlen & Hle & Hc & Ha); vec_simpl.
    subst sz. munfold. mstep.
    rewrite (destroy_n_spec xs s a [] _ 0 Ha eq_refl). mred. mstep.
    f_equal. apply state_eq; simpl; [done|heap_eq|done].
  - destruct (owns_None _ _ _ Hown eq_refl) as (Hxs & Hsz & Hc); vec_simpl; subst.
    munfold. mstep. simpl. munfold.
    f_equal. apply state_eq; simpl; [done..|by rewrite app_nil_r].
Qed.

Lemma Vector_Swap_spec this other a b s :
  objs s !! this = Some a → objs s !! other = Some b →
  Vector_Swap this other s
  = Done tt (set_objs (<[other := a]> (<[this := b]> (objs s))) s).
Proof.
  intros Ha Hb. unfold Vector_Swap.
  destruct a as [[ba ca] sa], b as [[bb cb] sb].
  munfold. do 2 mstep. mstep.
  erewrite put_obj_spec.
  - done.
  - simpl. destruct (decide (this = other)) as [->|Hne].
    + apply lookup_insert_eq.
    + rewrite lookup_insert_ne by done. exact Hb.
Qed.


(** ** What [settle] establishes *)

Lemma settle_objs this v' ys l old s : objs (settle this v' ys l old s) !! this = Some v'.
Proof. apply lookup_insert_eq. Qed.

Lemma settle_objs_ne this o v' ys l old s :
  this ≠ o → objs (settle this v' ys l old s) !! o = objs s !! o.
Proof. intros. by apply lookup_insert_ne. Qed.

Lemma settle_heap this v' ys l old s b :
  buffer_ (data_ v') = Some b →
  heap (settle this v' ys l old s) !! b
  = Some (map Some ys ++ replicate (capacity_ (data_ v') - size_ v') None).
Proof. intros Hb. unfold settle; simpl. rewrite Hb. apply lookup_insert_eq. Qed.

Lemma settle_log this v' ys l old s : log (settle this v' ys l old s) = log s ++ l.
Proof. done. Qed.

Lemma owns_settle this v' ys l old s :
  length ys = size_ v' → size_ v' ≤ capacity_ (data_ v') → raw_inv (data_ v') →
  owns (settle this v' ys l old s) v' ys.
Proof.
  intros Hlen Hle Hraw. split; [done|]. split; [done|].
  destruct (buffer_ (data_ v')) as [b|] eqn:Hb.
  - split; [|by apply settle_heap]. intros Hc. apply Hraw in Hc. congruence.
  - by apply Hraw.
Qed.

Lemma owns_raw_inv s v xs : owns s v xs → raw_inv (data_ v).
Proof.
  intros (_ & _ & H). unfold raw_inv. destruct (buffer_ (data_ v)); [|done]. by destruct H.
Qed.

(** Two operations on the same block, one after the other. *)
Lemma settle_settle this v1 v2 ys1 ys2 l1 l2 old s b :
  buffer_ (data_ v1) = Some b → buffer_ (data_ v2) = Some b →
  settle this v2 ys2 l2 None (settle this v1 ys1 l1 old s)
  = settle this v2 ys2 (l1 ++ l2) old s.
Proof.
  intros H1 H2. unfold settle. rewrite H1, H2. simpl.
  apply state_eq; simpl; [by rewrite insert_insert_eq|heap_eq|by list_norm].
Qed.

(** ** [Resize] *)

Lemma Resize_same this v s :
  objs s !! this = Some v → Resize this (size_ v) s = Done tt s.
Proof. intros Hv. unfold Resize. munfold. mstep. by repeat mstep. Qed.

Lemma Resize_shrink this n v xs s :
  objs s !! this = Some v → owns s v xs → n < size_ v →
  Resize this n s
  = Done tt (settle this (mkVector (data_ v) n) (take n xs) (map EvDtor (drop n xs)) None s).
Proof.
  intros Hv Hown Hn. unfold Resize.
  destruct v as [[[a|] c] sz]; vec_simpl.
  - destruct (owns_Some _ _ _ _ Hown eq_refl) as (Hlen & Hle & Hc & Ha); vec_simpl.
    subst sz. munfold. do 3 mstep.
    rewrite <- (take_drop n xs), map_app, <- app_assoc in Ha.
    pose proof (destroy_n_spec (drop n xs) s a (map Some (take n xs)) _ n Ha) as Hd.
    rewrite length_drop, length_map, length_take in Hd.
    rewrite Hd by lia. mred. mstep.
    f_equal. apply state_eq; simpl; [done| |done].
    heap_eq. rewrite take_drop, <- replicate_add. f_equal. lia.
  - destruct (owns_None _ _ _ Hown eq_refl) as (Hxs & Hsz & Hc); vec_simpl; subst. lia.
Qed.

(** The part of [Resize] that follows [Reserve], once the capacity is
    there. *)
Lemma Resize_fill this n v xs s :
  objs s !! this = Some v → owns s v xs → size_ v < n → n ≤ capacity_ (data_ v) →
  match default_ctor with
  | Some d =>
      (let! v := get_obj this in
       do! uninitialized_value_construct_n (GetAddress (data_ v) +ₚ size_ v)
             (n - size_ v) in
       put_obj this (mkVector (data_ v) n)) s
      = Done tt (settle this (mkVector (data_ v) n) (xs ++ replicate (n - size_ v) d)
                   (replicate (n - size_ v) (EvDefaultCtor d)) None s)
  | None =>
      (let! v := get_obj this in
       do! uninitialized_value_construct_n (GetAddress (data_ v) +ₚ size_ v)
             (n - size_ v) in
       put_obj this (mkVector (data_ v) n)) s
      = Throw s
  end.
Proof.
  intros Hv Hown Hlt Hle'.
  destruct v as [[[a|] c] sz]; vec_simpl.
  - destruct (owns_Some _ _ _ _ Hown eq_refl) as (Hlen & Hle & Hc & Ha); vec_simpl.
    subst sz.
    rewrite (replicate_split None (n - length xs) (c - length xs)) in Ha by lia.
    pose proof (uninitialized_value_construct_loop_spec (n - length xs) s a
                  (map Some xs) (replicate (c - length xs - (n - length xs)) None) []
                  (replicate (n - length xs) None) (length xs) 0 Ha
                  (length_replicate _ _)) as Hl.
    rewrite length_map in Hl. specialize (Hl eq_refl eq_refl).
    unfold uninitialized_value_construct_n.
    destruct default_ctor as [d|].
    + munfold. mstep. simpl. rewrite Hl. mred. mstep.
      f_equal. apply state_eq; simpl; [done| |done].
      list_norm. heap_eq.
    + munfold. mstep. simpl. rewrite Hl by lia. mred.
      f_equal. simpl.
      rewrite <- (replicate_split None (n - length xs) (c - length xs)) by lia.
      rewrite <- (replicate_split None (n - length xs) (c - length xs)) in Ha by lia.
      by rewrite upd_id.
  - destruct (owns_None _ _ _ Hown eq_refl) as (Hxs & Hsz & Hc); vec_simpl; subst. lia.
Qed.


Lemma Resize_grow this n v xs s :
  objs s !! this = Some v → owns s v xs → size_ v < n →
  match default_ctor with
  | Some d =>
      if decide (n ≤ capacity_ (data_ v))
      then Resize this n s
           = Done tt (settle this (mkVector (data_ v) n) (xs ++ replicate (n - size_ v) d)
                        (replicate (n - size_ v) (EvDefaultCtor d)) None s)
      else if all_good reloc_fails xs
      then Resize this n s
           = Done tt (settle this (mkVector (mkRaw (Some (fresh (dom (heap s)))) n) n)
                        (xs ++ replicate (n - size_ v) d)
                        ((map reloc_event xs ++ map EvDtor (reloc_left <$> xs))
                           ++ replicate (n - size_ v) (EvDefaultCtor d))
                        (buffer_ (data_ v)) s)
      else ∃ s', Resize this n s = Throw s'
  | None => ∃ s', Resize this n s = Throw s'
  end.
Proof.
  intros Hv Hown Hlt.
  assert (Resize this n s
          = bind (Reserve this n)
              (λ _, let! v := get_obj this in
                    do! uninitialized_value_construct_n (GetAddress (data_ v) +ₚ size_ v)
                          (n - size_ v) in
                    put_obj this (mkVector (data_ v) n)) s) as HR.
  { unfold Resize. unfold bind at 1. rewrite (get_obj_spec _ _ _ Hv).
    by rewrite decide_True by lia. }
  destruct (decide (n ≤ capacity_ (data_ v))) as [Hle|Hgt].
  - pose proof (Resize_fill this n v xs s Hv Hown Hlt Hle) as Hf.
    destruct default_ctor.
    + rewrite HR. unfold bind at 1. by rewrite (Reserve_noop _ _ _ _ Hv Hle).
    + exists s. rewrite HR. unfold bind at 1. by rewrite (Reserve_noop _ _ _ _ Hv Hle).
  - pose proof (Reserve_grow this n v xs s Hv Hown ltac:(lia)) as Hr.
    set (b := fresh (dom (heap s))) in *.
    set (v1 := mkVector (mkRaw (Some b) n) (size_ v)) in *.
    destruct (all_good reloc_fails xs).
    + destruct Hown as (Hlen & Hsz & Hblk).
      pose proof (Resize_fill this n v1 xs
                    (settle this v1 xs (map reloc_event xs ++ map EvDtor (reloc_left <$> xs))
                       (buffer_ (data_ v)) s)
                    (settle_objs _ _ _ _ _ _)
                    ltac:(apply owns_settle; [done|simpl; lia|split; simpl; [done|lia]])
                    Hlt ltac:(simpl; lia)) as Hf.
      destruct default_ctor as [d|].
      * rewrite HR. unfold bind at 1. rewrite Hr, Hf.
        f_equal. by apply (settle_settle _ _ _ _ _ _ _ _ _ b).
      * eexists. rewrite HR. unfold bind at 1. by rewrite Hr, Hf.
    + destruct Hr as [s' Hr].
      destruct default_ctor; exists s'; rewrite HR; unfold bind at 1; by rewrite Hr.
Qed.

(** ** [Erase] *)

Lemma Erase_spec this v l1 x l2 s a :
  objs s !! this = Some v → owns s v (l1 ++ x :: l2) → buffer_ (data_ v) = Some a →
  length l1 + 1 < capacity_ (data_ v) →
  if all_good move_assign_throws l2
  then Erase this (Ptr (Some a) (length l1)) s
       = Done (Ptr (Some a) (length l1))
           (settle this (mkVector (data_ v) (size_ v - 1)) (l1 ++ l2)
              (map EvMoveAssign l2 ++ [EvDtor (hole_left x l2)]) None s)
  else ∃ s', Erase this (Ptr (Some a) (length l1)) s = Throw s'.
Proof.
  intros Hv Hown Hbuf Hcap. unfold Erase.
  destruct v as [[ob c] sz]; vec_simpl. subst ob.
  destruct (owns_Some _ _ _ _ Hown eq_refl) as (Hlen & Hle & Hc & Ha); vec_simpl.
  rewrite length_app in Hlen; simpl in Hlen. subst sz.
  rewrite map_app in Ha. simpl in Ha. rewrite <- app_assoc in Ha. simpl in Ha.
  pose proof (move_loop_spec l2 s a (map Some l1) [] x
                (replicate (c - (length l1 + S (length l2))) None)
                (length l1 + 1) (length l1) 0 Ha) as Hm.
  rewrite length_map in Hm. specialize (Hm eq_refl eq_refl eq_refl).
  assert (∀ s0 : state,
            std_move_range (Ptr (Some a) (length l1 + 1))
              (Ptr (Some a) (length l1 + S (length l2))) (Ptr (Some a) (length l1)) s0
            = move_loop (Ptr (Some a) (length l1 + 1)) (Ptr (Some a) (length l1)) 0
                (length l2) s0) as Hrange.
  { intros s0. unfold std_move_range, distance; cbn [off base]. unfold bind, ret.
    rewrite decide_True by (split; [done|lia]).
    by replace (length l1 + S (length l2) - (length l1 + 1)) with (length l2) by lia. }
  unfold RawMemory_index, distance, ptr_sub.
  destruct (all_good move_assign_throws l2).
  - munfold. mstep. rewrite decide_True by (split; [done|lia]). rewrite Nat.sub_0_r. mred.
    do 2 mstep. rewrite Hrange, Hm. mred. mstep.
    simpl. munfold.
    erewrite (destroy_at_spec _ a (map Some (l1 ++ l2)) _ (hole_left x l2));
      [|rewrite heap_upd_eq; by list_norm|list_norm; lia].
    mred. mstep.
    f_equal. apply state_eq; simpl; [done| |by list_norm].
    list_norm. heap_eq.
    change (None :: ?l) with (replicate 1 (@None T) ++ l).
    rewrite <- replicate_add. f_equal. lia.
  - destruct Hm as [s' Hm]. exists s'.
    munfold. mstep. rewrite decide_True by (split; [done|lia]). rewrite Nat.sub_0_r. mred.
    do 2 mstep. by rewrite Hrange, Hm.
Qed.


(** ** [Emplace] *)

Lemma Emplace_grow this args v l1 l2 s a :
  objs s !! this = Some v → owns s v (l1 ++ l2) → buffer_ (data_ v) = Some a →
  size_ v = capacity_ (data_ v) →
  match arg_result args with
  | Some (x, e) =>
      if all_good reloc_fails (l1 ++ l2)
      then Emplace this (Ptr (Some a) (length l1)) args s
           = Done (Ptr (Some (fresh (dom (heap s)))) (length l1))
               (settle this
                  (mkVector (mkRaw (Some (fresh (dom (heap s)))) (size_ v * 2)) (size_ v + 1))
                  (l1 ++ x :: l2)
                  ([e] ++ map reloc_event (l1 ++ l2)
                       ++ map EvDtor (reloc_left <$> (l1 ++ l2)))
                  (Some a) s)
      else ∃ s', Emplace this (Ptr (Some a) (length l1)) args s = Throw s'
  | None => ∃ s', Emplace this (Ptr (Some a) (length l1)) args s = Throw s'
  end.
Proof.
  intros Hv Hown Hbuf Hfull. unfold Emplace, distance.
  pose proof (fresh_heap s) as Hfresh. set (b := fresh (dom (heap s))) in *.
  destruct v as [[ob c] sz]; vec_simpl. subst ob.
  destruct (owns_Some _ _ _ _ Hown eq_refl) as (Hlen & Hle & Hc & Ha); vec_simpl.
  subst sz c. assert (a ≠ b) as Hab by congruence.
  rewrite Nat.sub_diag, app_nil_r, map_app in Ha.
  rewrite length_app in *.
  set (n1 := length l1) in *. set (n2 := length l2) in *.
  set (s1 := upd b (replicate ((n1 + n2) * 2) None) [] s).
  assert (construct_at (Ptr (Some b) n1) args s1
          = match arg_result args with
            | Some (x, e) =>
                Done tt (upd b (replicate n1 None ++ Some x
                                  :: replicate ((n1 + n2) * 2 - n1 - 1) None) [e] s1)
            | None => Throw s1
            end) as Hcons.
  { apply (construct_at_spec s1 b (replicate ((n1 + n2) * 2) None) _ _ None);
      [apply heap_upd_eq| |by rewrite length_replicate].
    change (None :: ?l) with (replicate 1 (@None T) ++ l).
    rewrite <- !replicate_add. f_equal. lia. }
  assert (∀ s0 : state,
            (if move_if_noexcept_policy
             then
               do! uninitialized_move_n Mutable (Ptr (Some a) 0) n1 (Ptr (Some b) 0) in
               uninitialized_move_n Mutable (Ptr (Some a) n1) (n1 + n2 - n1)
                 (Ptr (Some b) (n1 + 1))
             else
               do! uninitialized_copy_n (Ptr (Some a) 0) n1 (Ptr (Some b) 0) in
               uninitialized_copy_n (Ptr (Some a) n1) (n1 + n2 - n1)
                 (Ptr (Some b) (n1 + 1))) s0
            = bind (if move_if_noexcept_policy
                    then uninitialized_move_n Mutable (Ptr (Some a) 0) n1 (Ptr (Some b) 0)
                    else uninitialized_copy_n (Ptr (Some a) 0) n1 (Ptr (Some b) 0))
                (λ _, if move_if_noexcept_policy
                      then uninitialized_move_n Mutable (Ptr (Some a) n1) n2
                             (Ptr (Some b) (n1 + 1))
                      else uninitialized_copy_n (Ptr (Some a) n1) n2
                             (Ptr (Some b) (n1 + 1))) s0) as Hseq.
  { intros s0. replace (n1 + n2 - n1) with n2 by lia.
    by destruct move_if_noexcept_policy. }
  rewrite all_good_app.
  destruct (arg_result args) as [[x e]|].
  - set (s2 := upd b (replicate n1 None ++ Some x
                        :: replicate ((n1 + n2) * 2 - n1 - 1) None) [e] s1) in *.
    pose proof (relocate_spec s2 a b l1 [] (map Some l2) [] (replicate n1 None)
                  (Some x :: replicate ((n1 + n2) * 2 - n1 - 1) None) 0 0 Hab) as Hrel1.
    unfold s2 in Hrel1 at 1 2. rewrite heap_upd_eq, heap_upd_ne in Hrel1 by done.
    unfold s1 in Hrel1 at 1. rewrite heap_upd_ne in Hrel1 by done.
    specialize (Hrel1 Ha eq_refl (length_replicate _ _) eq_refl eq_refl).
    fold n1 in Hrel1.
    destruct (all_good reloc_fails l1); simpl andb.
    + set (s3 := upd b ([] ++ map Some l1 ++ Some x
                          :: replicate ((n1 + n2) * 2 - n1 - 1) None)
                   (map reloc_event l1)
                   (upd a ([] ++ map Some (reloc_left <$> l1) ++ map Some l2) [] s2)) in *.
      pose proof (relocate_spec s3 a b l2 (map Some (reloc_left <$> l1)) []
                    (map Some l1 ++ [Some x]) (replicate n2 None)
                    (replicate ((n1 + n2) * 2 - (n1 + n2) - 1) None) n1 (n1 + 1) Hab)
        as Hrel2.
      unfold s3 in Hrel2 at 1 2.
      rewrite heap_upd_eq, heap_upd_ne, heap_upd_eq in Hrel2 by done.
      fold n2 in Hrel2.
      destruct (all_good reloc_fails l2).
      * munfold. do 2 mstep. rewrite decide_True by (split; [done|lia]). rewrite Nat.sub_0_r.
        mred. do 2 mstep. rewrite RawMemory_ctor_spec by lia. fold b s1. mred. vec_simpl.
        rewrite Hcons. mred. fold s2. fold (@bind T). rewrite Hseq. unfold bind.
        rewrite Hrel1. fold s3. rewrite Hrel2;
          [|by list_norm
           |simpl; f_equal; list_norm; f_equal; f_equal;
            change (None :: ?l) with (replicate 1 (@None T) ++ l);
            rewrite <- !replicate_add; f_equal; lia
           |by rewrite length_replicate
           |unfold n1; by rewrite length_map, length_fmap
           |unfold n1; list_norm; lia].
        pose proof (destroy_n_spec (reloc_left <$> (l1 ++ l2))) as Hd.
        rewrite length_fmap, length_app in Hd. fold n1 n2 in Hd.
        erewrite (Hd _ a [] [] 0);
          [|rewrite heap_upd_ne, heap_upd_eq by done; by list_norm|done].
        repeat mstep.
        f_equal. apply state_eq; simpl; [done| |by list_norm].
        list_norm. heap_eq.
      * destruct Hrel2 as [s' Hrel2];
          [by list_norm
          |simpl; f_equal; list_norm; f_equal; f_equal;
           change (None :: ?l) with (replicate 1 (@None T) ++ l);
           rewrite <- !replicate_add; f_equal; lia
          |by rewrite length_replicate
          |unfold n1; by rewrite length_map, length_fmap
          |unfold n1; list_norm; lia|].
        assert (∃ cells, heap s' !! b = Some cells) as [cells Hb'].
        { eapply heap_only_Throw_block; [|exact Hrel2|apply heap_upd_eq]. heap_only_tac. }
        eexists.
        munfold. do 2 mstep. rewrite decide_True by (split; [done|lia]). rewrite Nat.sub_0_r.
        mred. do 2 mstep. rewrite RawMemory_ctor_spec by lia. fold b s1. mred. vec_simpl.
        rewrite Hcons. mred. fold s2. fold (@bind T). rewrite Hseq. unfold bind.
        rewrite Hrel1. fold s3. rewrite Hrel2.
        by rewrite (Deallocate_spec _ _ _ Hb').
    + destruct Hrel1 as [s' Hrel1].
      assert (∃ cells, heap s' !! b = Some cells) as [cells Hb'].
      { eapply heap_only_Throw_block; [|exact Hrel1|apply heap_upd_eq]. heap_only_tac. }
      eexists.
      munfold. do 2 mstep. rewrite decide_True by (split; [done|lia]). rewrite Nat.sub_0_r.
      mred. do 2 mstep. rewrite RawMemory_ctor_spec by lia. fold b s1. mred. vec_simpl.
      rewrite Hcons. mred. fold s2. fold (@bind T). rewrite Hseq. unfold bind.
      rewrite Hrel1.
      by rewrite (Deallocate_spec _ _ _ Hb').
  - eexists.
    munfold. do 2 mstep. rewrite decide_True by (split; [done|lia]). rewrite Nat.sub_0_r.
    mred. do 2 mstep. rewrite RawMemory_ctor_spec by lia. fold b s1. mred. vec_simpl.
    rewrite Hcons. mred.
    by erewrite Deallocate_spec by apply heap_upd_eq.
Qed.


Lemma construct_move_block s a cells isrc idst y :
  heap s !! a = Some cells →
  cells !! isrc = Some (Some y) → idst < length cells →
  construct_move (Ptr (Some a) idst) (Ptr (Some a) isrc) s
  = if move_fails y then Throw s
    else Done tt (upd a (<[idst := Some y]> (<[isrc := Some (moved_from y)]> cells))
                    [EvMoveCtor y] s).
Proof.
  intros Ha Hsrc Hdst. unfold construct_move. munfold.
  erewrite (load_block _ a); [|done..]. mred.
  destruct (move_fails y); [done|].
  rewrite (emit_upd _ _ _ _ Ha). mred.
  erewrite (store_block _ a); [|apply heap_upd_eq|by eapply lookup_lt_Some].
  mred. rewrite upd_upd.
  erewrite (store_block _ a); [|apply heap_upd_eq|by rewrite length_insert].
  by rewrite upd_upd.
Qed.

(** Insertion before an element, with room to spare: [l1] stays, [l2] and
    the last element [z] move one cell to the right. *)
Lemma Emplace_inplace this args v l1 l2 z s a :
  objs s !! this = Some v → owns s v (l1 ++ l2 ++ [z]) → buffer_ (data_ v) = Some a →
  size_ v < capacity_ (data_ v) →
  match arg_result args with
  | Some (x, e) =>
      if negb (move_fails z) && all_good move_assign_throws l2
         && negb (move_assign_throws x)
      then Emplace this (Ptr (Some a) (length l1)) args s
           = Done (Ptr (Some a) (length l1))
               (settle this (mkVector (data_ v) (size_ v + 1)) (l1 ++ x :: l2 ++ [z])
                  ([e; EvMoveCtor z] ++ map EvMoveAssign (reverse l2)
                     ++ [EvMoveAssign x; EvDtor (moved_from x)])
                  None s)
      else ∃ s', Emplace this (Ptr (Some a) (length l1)) args s = Throw s'
  | None => Emplace this (Ptr (Some a) (length l1)) args s = Throw s
  end.
Proof.
  intros Hv Hown Hbuf Hroom.
  unfold Emplace, std_move_backward, distance, ptr_sub, RawMemory_index.
  destruct v as [[ob c] sz]; vec_simpl. subst ob.
  destruct (owns_Some _ _ _ _ Hown eq_refl) as (Hlen & Hle & Hc & Ha); vec_simpl.
  rewrite !length_app in Hlen; simpl in Hlen.
  set (n1 := length l1) in *. set (n2 := length l2) in *.
  rewrite (replicate_split None 1 (c - sz)) in Ha by lia. simpl in Ha.
  rewrite !map_app in Ha. simpl in Ha. rewrite <- !app_assoc in Ha. simpl in Ha.
  set (rest := replicate (c - sz - 1) None) in *.
  pose proof (construct_from_spec args s) as Hbuild.
  destruct (arg_result args) as [[x e]|]; cycle 1.
  { munfold. do 2 mstep. rewrite decide_True by (split; [done|lia]). mred.
    mstep. by rewrite Hbuild. }
  set (s1 := add_log [e] s) in *.
  assert (heap s1 !! a
          = Some (map Some l1 ++ map Some l2 ++ Some z :: None :: rest)) as Ha1 by done.
  pose proof (construct_move_block s1 a _ (sz - 1) sz z Ha1) as Hcm.
  rewrite (lookup_at _ (map Some l1 ++ map Some l2) (None :: rest) (Some z)) in Hcm;
    [|by list_norm|unfold n1, n2 in *; list_norm; lia].
  specialize (Hcm eq_refl ltac:(unfold n1, n2 in *; list_norm; lia)).
  rewrite (insert_at _ (map Some l1 ++ map Some l2) (None :: rest) (Some z)
             (Some (moved_from z))) in Hcm;
    [|by list_norm|unfold n1, n2 in *; list_norm; lia].
  rewrite (insert_at _ (map Some l1 ++ map Some l2 ++ [Some (moved_from z)]) rest None
             (Some z)) in Hcm;
    [|by list_norm|unfold n1, n2 in *; list_norm; lia].
  set (s2 := upd a ((map Some l1 ++ map Some l2 ++ [Some (moved_from z)]) ++ Some z :: rest)
               [EvMoveCtor z] s1) in *.
  pose proof (move_backward_loop_spec l2 s2 a (map Some l1) (moved_from z) []
                (Some z :: rest) (sz - 1) sz 0) as Hmb.
  unfold s2 in Hmb at 1. rewrite heap_upd_eq in Hmb.
  specialize (Hmb ltac:(by list_norm)
                ltac:(unfold n1, n2 in *; list_norm; lia) ltac:(lia) eq_refl).
  fold n2 in Hmb.
  destruct (move_fails z) eqn:Hz; simpl negb; simpl andb.
  { exists (add_log [EvDtor x] s1).
    munfold. do 2 mstep. rewrite decide_True by (split; [done|lia]). mred.
    rewrite Nat.sub_0_r. mstep. rewrite Hbuild. mred. mstep.
    by rewrite Hcm. }
  destruct (all_good move_assign_throws l2); simpl andb; cycle 1.
  { destruct Hmb as [s' Hmb]. exists (add_log [EvDtor x] s').
    munfold. do 2 mstep. rewrite decide_True by (split; [done|lia]). mred.
    rewrite Nat.sub_0_r. mstep. rewrite Hbuild. mred. mstep.
    rewrite Hcm. mred. mstep.
    rewrite decide_True by (split; [done|lia]).
    replace (sz - 1 - n1) with n2 by lia. by rewrite Hmb. }
  set (s3 := upd a (map Some l1 ++ Some (hole_right (moved_from z) l2)
                      :: map Some (l2 ++ []) ++ Some z :: rest)
               (map EvMoveAssign (reverse l2)) s2) in *.
  assert (load (Ptr (Some a) n1) s3 = Done (hole_right (moved_from z) l2) s3) as Hload.
  { eapply (load_at _ a _ (map Some l1)); [apply heap_upd_eq|done|by rewrite length_map]. }
  destruct (move_assign_throws x) eqn:Hx; simpl negb.
  { exists (add_log [EvDtor x] s3).
    munfold. do 2 mstep. rewrite decide_True by (split; [done|lia]). mred.
    rewrite Nat.sub_0_r. mstep. rewrite Hbuild. mred. mstep.
    rewrite Hcm. mred. mstep.
    rewrite decide_True by (split; [done|lia]).
    replace (sz - 1 - n1) with n2 by lia. rewrite Hmb. mred.
    rewrite Hload. mred. by rewrite Hx. }
  munfold. do 2 mstep. rewrite decide_True by (split; [done|lia]). mred.
  rewrite Nat.sub_0_r. mstep. rewrite Hbuild. mred. mstep.
  rewrite Hcm. mred. mstep.
  rewrite decide_True by (split; [done|lia]).
  replace (sz - 1 - n1) with n2 by lia. rewrite Hmb. mred.
  rewrite Hload. mred. rewrite Hx.
  assert (heap s3 !! a
          = Some (map Some l1 ++ Some (hole_right (moved_from z) l2)
                    :: map Some (l2 ++ []) ++ Some z :: rest)) as Ha3
    by apply heap_upd_eq.
  rewrite (emit_upd _ _ _ _ Ha3). mred.
  erewrite (store_at _ a _ (map Some l1)); [|apply heap_upd_eq|done|by rewrite length_map].
  mred. mstep. unfold emit. mred.
  f_equal. apply state_eq; simpl; [done| |by list_norm].
  list_norm. heap_eq.
Qed.


(** Insertion into an empty vector goes through [EmplaceBack], whatever
    [pos] is. *)
Lemma Emplace_empty this pos args v s :
  objs s !! this = Some v → size_ v = 0 →
  Emplace this pos args s
  = match append this (std_move args) s with
    | Done _ s' =>
        match objs s' !! this with
        | Some v' =>
            if decide (0 < size_ v' ≤ capacity_ (data_ v'))
            then Done (Ptr (buffer_ (data_ v')) (size_ v' - 1)) s'
            else Undefined
        | None => Undefined
        end
    | Throw s' => Throw s'
    | Undefined => Undefined
    end.
Proof.
  intros Hv Hsz. unfold Emplace. unfold bind at 1. rewrite (get_obj_spec _ _ _ Hv).
  rewrite decide_True by done. unfold bind at 1. rewrite EmplaceBack_append.
  destruct (append this (std_move args) s) as [[] s'| |]; [|done..].
  destruct (objs s' !! this) as [v'|] eqn:Hv'; [|done].
  unfold RawMemory_index, bind, ptr_sub. vec_simpl.
  destruct (decide (size_ v' - 1 < capacity_ (data_ v'))) as [Hlt|Hge].
  - unfold ret at 1. rewrite (get_obj_spec _ _ _ Hv'). vec_simpl.
    destruct (decide (1 ≤ size_ v')).
    + by rewrite decide_True by lia.
    + by rewrite decide_False by lia.
  - unfold undefined at 1. by rewrite decide_False by lia.
Qed.

(** Insertion at [end()] with room to spare never returns: the range handed
    to [std::move_backward] starts behind its end. *)
Lemma Emplace_end_inplace this args v s a :
  objs s !! this = Some v → buffer_ (data_ v) = Some a →
  size_ v ≠ 0 → size_ v < capacity_ (data_ v) →
  ∀ r s', Emplace this (Ptr (Some a) (size_ v)) args s ≠ Done r s'.
Proof.
  intros Hv Hbuf Hnz Hroom r s'.
  unfold Emplace, std_move_backward, distance, ptr_sub, RawMemory_index.
  destruct v as [[ob c] sz]; vec_simpl. subst ob.
  munfold. do 2 mstep. rewrite decide_True by (split; [done|lia]). mred.
  rewrite Nat.sub_0_r. mstep.
  destruct (construct_from args s) as [x s1| |]; [|done..].
  mstep.
  destruct (construct_move _ _ s1) as [[] s2|s2|]; [| |done].
  - mstep. rewrite decide_False by lia. done.
  - by destruct (emit _ s2).
Qed.

(** Erasing the element in the last cell of a full block fails the
    [assert] of [RawMemory::operator[]]. *)
Lemma Erase_last_full this v s a :
  objs s !! this = Some v → buffer_ (data_ v) = Some a →
  size_ v = capacity_ (data_ v) → size_ v ≠ 0 →
  Erase this (Ptr (Some a) (size_ v - 1)) s = Undefined.
Proof.
  intros Hv Hbuf Hfull Hnz. unfold Erase, distance, RawMemory_index.
  destruct v as [[ob c] sz]; vec_simpl. subst ob c.
  munfold. mstep. rewrite decide_True by (split; [done|lia]). mred.
  by rewrite decide_False by lia.
Qed.

(** ** Copy assignment *)

Lemma Vector_copy_assign_self this s : Vector_copy_assign this this s = Done tt s.
Proof. unfold Vector_copy_assign. by rewrite decide_False by (intros H; by apply H). Qed.


Lemma std_copy_0 p d s : std_copy p p d s = Done tt s.
Proof.
  unfold std_copy, distance, bind; simpl.
  rewrite decide_True by (split; [done|lia]).
  unfold ret. by rewrite Nat.sub_diag.
Qed.

Lemma local_obj_fresh (s : state) : objs s !! fresh (dom (objs s)) = None.
Proof. apply not_elem_of_dom, is_fresh. Qed.

(** The source is larger than the capacity: a copy is built and swapped in;
    the old elements and the old block go with the copy. *)
Lemma Vector_copy_assign_realloc this rhs v r xs ys s :
  this ≠ rhs → objs s !! this = Some v → objs s !! rhs = Some r →
  owns s v xs → owns s r ys → capacity_ (data_ v) < size_ r →
  Vector_copy_assign this rhs s
  = if all_good copy_throws ys
    then Done tt (settle this
                    (mkVector (mkRaw (Some (fresh (dom (heap s)))) (size_ r)) (size_ r)) ys
                    (map EvCopyCtor ys ++ map EvDtor xs) (buffer_ (data_ v)) s)
    else Throw (add_log (map EvCopyCtor (good_prefix copy_throws ys)
                           ++ map EvDtor (good_prefix copy_throws ys)) s).
Proof.
  intros Hne Hv Hr Hxs Hys Hcap. unfold Vector_copy_assign, local_obj.
  pose proof (local_obj_fresh s) as Htmp. set (tmp := fresh (dom (objs s))) in *.
  pose proof (fresh_heap s) as Hfresh. set (b := fresh (dom (heap s))) in *.
  assert (tmp ≠ this) as Hne1 by congruence.
  assert (tmp ≠ rhs) as Hne2 by congruence.
  pose proof (Vector_copy_ctor_spec tmp rhs r ys s Htmp Hr Hys) as Hctor.
  unfold new_handle in Hctor. rewrite decide_True in Hctor by lia. fold b in Hctor.
  set (vt := mkVector (mkRaw (Some b) (size_ r)) (size_ r)) in *.
  rewrite decide_True by done.
  munfold. do 2 mstep. rewrite decide_True by lia. mred. fold tmp. rewrite Hctor.
  destruct (all_good copy_throws ys); [|done].
  set (s1 := settle tmp vt ys (map EvCopyCtor ys) None s) in *.
  rewrite (Vector_Swap_spec this tmp v vt s1);
    [|unfold s1; by rewrite settle_objs_ne|apply settle_objs].
  mred.
  rewrite (Vector_dtor_spec tmp v xs); [|apply lookup_insert_eq|].
  - mred. simpl.
    set (o2 := delete tmp (<[tmp:=v]> (<[this:=vt]> (<[tmp:=vt]> (objs s))))).
    assert (o2 !! this = Some vt) as H1.
    { unfold o2. rewrite lookup_delete_ne, lookup_insert_ne by done.
      apply lookup_insert_eq. }
    assert (o2 !! rhs = Some r) as H2.
    { unfold o2. by rewrite lookup_delete_ne, !lookup_insert_ne by done. }
    erewrite get_obj_spec by exact H1. erewrite get_obj_spec by exact H2.
    erewrite put_obj_spec by exact H1.
    assert (buffer_ (data_ v) ≠ Some b) as Hvb.
    { intros Hb. destruct Hxs as (_ & _ & Hblk). rewrite Hb in Hblk.
      destruct Hblk. congruence. }
    f_equal. apply state_eq; simpl;
      [|destruct (buffer_ (data_ v)) as [a|]; simpl; heap_eq|by list_norm].
    unfold o2. apply map_eq; intros k.
    destruct (decide (k = this)) as [->|Hk1].
    + by rewrite !lookup_insert_eq.
    + rewrite !(lookup_insert_ne _ this) by done.
      destruct (decide (k = tmp)) as [->|Hk2].
      * by rewrite lookup_delete_eq.
      * by rewrite lookup_delete_ne, !lookup_insert_ne by done.
  - destruct Hxs as (Hl1 & Hl2 & Hblk). split; [done|]. split; [done|].
    destruct (buffer_ (data_ v)) as [a|]; [|done].
    destruct Hblk as [Hc Ha]. split; [done|]. simpl.
    rewrite lookup_insert_ne by congruence. done.
Qed.


(** The source fits and is at least as long as the destination: the common
    prefix is assigned, the rest constructed. *)
Lemma Vector_copy_assign_extend this rhs v r xs ys1 ys2 s :
  this ≠ rhs → objs s !! this = Some v → objs s !! rhs = Some r →
  owns s v xs → owns s r (ys1 ++ ys2) → length ys1 = length xs →
  (∀ a, buffer_ (data_ v) = Some a → buffer_ (data_ r) ≠ Some a) →
  size_ r ≤ capacity_ (data_ v) →
  if all_good copy_assign_throws ys1 && all_good copy_throws ys2
  then Vector_copy_assign this rhs s
       = Done tt (settle this (mkVector (data_ v) (size_ r)) (ys1 ++ ys2)
                    (map EvCopyAssign ys1 ++ map EvCopyCtor ys2) None s)
  else ∃ s', Vector_copy_assign this rhs s = Throw s' ∧ objs s' = objs s.
Proof.
  intros Hne Hv Hr Hxs Hys Hlen Hdisj Hcap. unfold Vector_copy_assign.
  rewrite decide_True by done.
  destruct v as [[ob c] sz], r as [[obr cr] szr]; vec_simpl.
  destruct (decide (szr = 0)) as [->|Hnz].
  { destruct Hys as (Hl & _ & _). vec_simpl.
    apply nil_length_inv in Hl. apply app_eq_nil in Hl as [-> ->].
    simpl in Hlen. symmetry in Hlen. apply nil_length_inv in Hlen. subst xs.
    destruct Hxs as (Hl' & Hc' & Hblk). vec_simpl. simpl in Hl'. subst sz.
    simpl. munfold. repeat mstep. rewrite std_copy_0. mred.
    unfold uninitialized_copy_n. simpl. munfold. do 3 mstep.
    f_equal. apply state_eq; simpl; [done| |by rewrite app_nil_r].
    destruct ob as [a|]; [|done]. destruct Hblk as [_ Ha].
    simpl. by rewrite insert_id. }
  destruct ob as [a|], obr as [ra|];
    try (destruct (owns_None _ _ _ Hys eq_refl) as (? & ? & ?); vec_simpl; lia);
    try (destruct (owns_None _ _ _ Hxs eq_refl) as (? & ? & ?); vec_simpl; lia).
  destruct (owns_Some _ _ _ _ Hxs eq_refl) as (Hl1 & Hle1 & Hc1 & Ha); vec_simpl.
  destruct (owns_Some _ _ _ _ Hys eq_refl) as (Hl2 & Hle2 & Hc2 & Hra); vec_simpl.
  assert (ra ≠ a) as Hab by (intros ->; by eapply Hdisj).
  rewrite length_app in Hl2. subst sz szr.
  rewrite map_app, <- app_assoc in Hra.
  rewrite (replicate_split None (length ys2) (c - length xs)) in Ha by lia.
  pose proof (std_copy_spec s ra a ys1 [] _ [] xs _ 0 0 Hab Hra Ha
                ltac:(done) eq_refl eq_refl) as Hcp.
  unfold ptr_add in Hcp; cbn [off base Nat.add] in Hcp. rewrite Hlen in Hcp.
  destruct (all_good copy_assign_throws ys1); simpl andb.
  - set (s1 := upd a ([] ++ map Some ys1 ++ replicate (length ys2) None
                        ++ replicate (c - length xs - length ys2) None)
                 (map EvCopyAssign ys1) s) in *.
    pose proof (uninitialized_copy_n_spec s1 ra a ys2 (map Some ys1)
                  (replicate (cr - (length ys1 + length ys2)) None) (map Some ys1)
                  (replicate (length ys2) None)
                  (replicate (c - length xs - length ys2) None)
                  (length xs) (length xs) Hab) as Hun.
    unfold s1 in Hun at 1 2. rewrite heap_upd_ne, heap_upd_eq in Hun by done.
    specialize (Hun Hra eq_refl (length_replicate _ _)
                  ltac:(by rewrite length_map) ltac:(by rewrite length_map)).
    cbv zeta in Hun.
    destruct (all_good copy_throws ys2).
    + munfold. repeat mstep.
      rewrite Hcp. mred. replace (length ys1 + length ys2 - length xs) with (length ys2) by lia.
      rewrite Hun. mred. repeat mstep.
      f_equal. apply state_eq; simpl; [done| |by list_norm].
      list_norm. heap_eq.
    + eexists. split.
      * munfold. repeat mstep. rewrite Hcp. mred.
        replace (length ys1 + length ys2 - length xs) with (length ys2) by lia.
        rewrite Hun. reflexivity.
      * done.
  - destruct Hcp as [s' Hcp]. exists s'. split.
    + munfold. repeat mstep. by rewrite Hcp.
    + eapply heap_only_Throw; [|exact Hcp]. heap_only_tac.
Qed.


(** The source is shorter than the destination: its elements are assigned
    and the excess of the destination is destroyed. *)
Lemma Vector_copy_assign_shrink this rhs v r xs1 xs2 ys s :
  this ≠ rhs → objs s !! this = Some v → objs s !! rhs = Some r →
  owns s v (xs1 ++ xs2) → owns s r ys → length xs1 = length ys →
  (∀ a, buffer_ (data_ v) = Some a → buffer_ (data_ r) ≠ Some a) →
  size_ r < size_ v →
  if all_good copy_assign_throws ys
  then Vector_copy_assign this rhs s
       = Done tt (settle this (mkVector (data_ v) (size_ r)) ys
                    (map EvCopyAssign ys ++ map EvDtor xs2) None s)
  else ∃ s', Vector_copy_assign this rhs s = Throw s' ∧ objs s' = objs s.
Proof.
  intros Hne Hv Hr Hxs Hys Hlen Hdisj Hlt. unfold Vector_copy_assign.
  rewrite decide_True by done.
  destruct v as [[ob c] sz], r as [[obr cr] szr]; vec_simpl.
  destruct ob as [a|];
    [|destruct (owns_None _ _ _ Hxs eq_refl) as (? & ? & ?); vec_simpl; lia].
  destruct (owns_Some _ _ _ _ Hxs eq_refl) as (Hl1 & Hle1 & Hc1 & Ha); vec_simpl.
  rewrite length_app in Hl1. subst sz.
  rewrite map_app, <- app_assoc in Ha.
  assert (length ys = szr) as Hszr by (by destruct Hys).
  subst szr.
  assert (∃ s1, (if all_good copy_assign_throws ys
                 then std_copy (Ptr obr 0) (Ptr obr (length ys)) (Ptr (Some a) 0) s
                      = Done tt s1
                 else ∃ s', std_copy (Ptr obr 0) (Ptr obr (length ys)) (Ptr (Some a) 0) s
                            = Throw s')
                ∧ s1 = upd a (map Some ys ++ map Some xs2
                                ++ replicate (c - (length xs1 + length xs2)) None)
                         (map EvCopyAssign ys) s) as (s1 & Hcp & Hs1).
  { eexists. split; [|done].
    destruct obr as [ra|].
    - destruct (owns_Some _ _ _ _ Hys eq_refl) as (_ & Hle2 & Hc2 & Hra); vec_simpl.
      assert (ra ≠ a) as Hab by (intros ->; by eapply Hdisj).
      pose proof (std_copy_spec s ra a ys [] _ [] xs1 _ 0 0 Hab Hra Ha
                    Hlen eq_refl eq_refl) as Hcp.
      unfold ptr_add in Hcp; cbn [off base Nat.add] in Hcp.
      by destruct (all_good copy_assign_throws ys).
    - destruct (owns_None _ _ _ Hys eq_refl) as (-> & _ & _).
      destruct xs1; [|done]. simpl. rewrite std_copy_0. by rewrite upd_id. }
  destruct (all_good copy_assign_throws ys).
  - pose proof (destroy_n_spec xs2 s1 a (map Some ys)
                  (replicate (c - (length xs1 + length xs2)) None) (length ys)) as Hd.
    rewrite Hs1 in Hd at 1. rewrite heap_upd_eq in Hd.
    specialize (Hd eq_refl ltac:(by rewrite length_map)).
    munfold. repeat mstep. rewrite Hcp. mred.
    replace (length xs1 + length xs2 - length ys) with (length xs2) by lia.
    rewrite Hd. mred. rewrite Hs1. repeat mstep.
    f_equal. apply state_eq; simpl; [done| |by list_norm].
    heap_eq. rewrite <- replicate_add. f_equal. lia.
  - destruct Hcp as [s' Hcp]. exists s'. split.
    + munfold. repeat mstep. by rewrite Hcp.
    + eapply heap_only_Throw; [|exact Hcp]. heap_only_tac.
Qed.


(** ** The store invariant *)

Lemma vector_inv_frame s s' v :
  vector_inv s v →
  (∀ a, buffer_ (data_ v) = Some a → heap s' !! a = heap s !! a) →
  vector_inv s' v.
Proof.
  intros (xs & Hl & Hle & Hblk) Hsame. exists xs. split; [done|]. split; [done|].
  destruct (buffer_ (data_ v)) as [a|]; [|done].
  destruct Hblk as [Hc Ha]. split; [done|]. by rewrite Hsame.
Qed.

Lemma store_inv_block s o v a :
  store_inv s → objs s !! o = Some v → buffer_ (data_ v) = Some a →
  is_Some (heap s !! a).
Proof.
  intros [Hinv _] Hv Hb. destruct (Hinv o v Hv) as (xs & _ & _ & Hblk).
  rewrite Hb in Hblk. destruct Hblk as [_ Ha]. by eexists.
Qed.

(** An operation on one object that works in place, or moves the elements
    to a new block and releases the old one, keeps the store invariant. *)
Lemma store_inv_settle s this v' ys l old :
  store_inv s →
  length ys = size_ v' → size_ v' ≤ capacity_ (data_ v') → raw_inv (data_ v') →
  (∀ v, objs s !! this = Some v →
        (buffer_ (data_ v') = buffer_ (data_ v) ∧ old = None) ∨
        (old = buffer_ (data_ v) ∧
         ∀ b, buffer_ (data_ v') = Some b → heap s !! b = None)) →
  (objs s !! this = None →
   old = None ∧ ∀ b, buffer_ (data_ v') = Some b → heap s !! b = None) →
  store_inv (settle this v' ys l old s).
Proof.
  intros Hinv Hlen Hle Hraw Hold Hnew.
  assert (Hother : ∀ o w a, o ≠ this → objs s !! o = Some w →
            buffer_ (data_ w) = Some a →
            buffer_ (data_ v') ≠ Some a ∧ old ≠ Some a).
  { intros o w a Hne Hw Hwa.
    pose proof (store_inv_block s o w a Hinv Hw Hwa) as [cells Hcells].
    destruct (objs s !! this) as [v|] eqn:Hv.
    - destruct (Hold v eq_refl) as [[Hsame ->]|[-> Hfresh]].
      + split; [|done]. rewrite Hsame. intros Hva.
        destruct Hinv as [_ Hdis]. by apply Hne, (Hdis o this w v a).
      + split.
        * intros Hb. apply Hfresh in Hb. congruence.
        * intros Hva. destruct Hinv as [_ Hdis]. by apply Hne, (Hdis o this w v a).
    - destruct (Hnew eq_refl) as [-> Hfresh]. split; [|done].
      intros Hb. apply Hfresh in Hb. congruence. }
  split.
  - intros o w Hw. destruct (decide (o = this)) as [->|Hne].
    + rewrite settle_objs in Hw. injection Hw as <-.
      exists ys. by apply owns_settle.
    + rewrite settle_objs_ne in Hw by done.
      destruct Hinv as [Hinv _]. apply (vector_inv_frame s); [by eapply Hinv|].
      intros a Hwa. destruct (Hother o w a Hne Hw Hwa) as [Hn1 Hn2].
      unfold settle; simpl. destruct (buffer_ (data_ v')) as [b|].
      * rewrite lookup_insert_ne by congruence.
        destruct old as [a'|]; simpl; [|done]. rewrite lookup_delete_ne by congruence. done.
      * destruct old as [a'|]; simpl; [|done]. rewrite lookup_delete_ne by congruence. done.
  - intros o1 o2 w1 w2 a Hw1 Hw2 Ha1 Ha2.
    destruct (decide (o1 = this)) as [->|Hne1], (decide (o2 = this)) as [->|Hne2];
      [done| | |].
    + rewrite settle_objs in Hw1. injection Hw1 as <-.
      rewrite settle_objs_ne in Hw2 by done.
      by destruct (Hother o2 w2 a Hne2 Hw2 Ha2).
    + rewrite settle_objs in Hw2. injection Hw2 as <-.
      rewrite settle_objs_ne in Hw1 by done.
      by destruct (Hother o1 w1 a Hne1 Hw1 Ha1).
    + rewrite settle_objs_ne in Hw1, Hw2 by done.
      destruct Hinv as [_ Hdis]. by eapply Hdis.
Qed.

Lemma store_inv_owns s this v :
  store_inv s → objs s !! this = Some v → ∃ xs, owns s v xs.
Proof. intros [Hinv _] Hv. by apply (Hinv this v). Qed.

(** Changing the log alone. *)
Lemma store_inv_add_log s l : store_inv s → store_inv (add_log l s).
Proof. done. Qed.

Lemma store_inv_move_ctor s this other o :
  store_inv s → objs s !! this = None → objs s !! other = Some o →
  store_inv (set_objs (<[other := mkVector (mkRaw None 0) 0]> (<[this := o]> (objs s))) s).
Proof.
  intros [Hinv Hdis] Hthis Hother. assert (this ≠ other) as Hne by congruence. split.
  - intros k w Hw. simpl in Hw. rewrite lookup_insert in Hw. case_decide.
    + injection Hw as <-. exists []. by repeat split.
    + rewrite lookup_insert in Hw. case_decide.
      * injection Hw as <-. by apply (Hinv other o).
      * by apply (Hinv k w).
  - intros o1 o2 w1 w2 a Hw1 Hw2 Ha1 Ha2.
    assert (Hback : ∀ k w, <[other := mkVector (mkRaw None 0) 0]> (<[this := o]> (objs s))
                             !! k = Some w →
              buffer_ (data_ w) = Some a →
              objs s !! (if decide (k = this) then other else k) = Some w ∧ k ≠ other).
    { intros k w Hw Ha. rewrite lookup_insert in Hw. case_decide as Hk1.
      { injection Hw as <-. done. }
      rewrite lookup_insert in Hw. split; [|done]. case_decide as Hk2.
      - injection Hw as <-. by rewrite decide_True.
      - by rewrite decide_False. }
    destruct (Hback o1 w1 Hw1 Ha1) as [H1 Hn1], (Hback o2 w2 Hw2 Ha2) as [H2 Hn2].
    pose proof (Hdis _ _ w1 w2 a H1 H2 Ha1 Ha2) as Heq.
    repeat case_decide; congruence.
Qed.

Lemma store_inv_swap s this other a b :
  store_inv s → objs s !! this = Some a → objs s !! other = Some b →
  store_inv (set_objs (<[other := a]> (<[this := b]> (objs s))) s).
Proof.
  intros [Hinv Hdis] Ha Hb. split.
  - intros k w Hw. simpl in Hw. rewrite !lookup_insert in Hw.
    repeat case_decide; simplify_eq; by eapply Hinv.
  - intros o1 o2 w1 w2 c Hw1 Hw2 Hc1 Hc2.
    assert (Hback : ∀ k w, <[other := a]> (<[this := b]> (objs s)) !! k = Some w →
              objs s !! (if decide (k = other) then this
                         else if decide (k = this) then other else k) = Some w).
    { intros k w Hw. rewrite lookup_insert in Hw. case_decide as Hk1.
      { injection Hw as <-. by rewrite decide_True. }
      rewrite decide_False by done.
      rewrite lookup_insert in Hw. case_decide as Hk2.
      - injection Hw as <-. by rewrite decide_True.
      - by rewrite decide_False. }
    pose proof (Hdis _ _ w1 w2 c (Hback o1 w1 Hw1) (Hback o2 w2 Hw2) Hc1 Hc2) as Heq.
    repeat case_decide; congruence.
Qed.


Lemma store_inv_dtor s this v :
  store_inv s → objs s !! this = Some v →
  ∀ l, store_inv (mkState (delete this (objs s)) (dealloc (buffer_ (data_ v)) (heap s)) l).
Proof.
  intros [Hinv Hdis] Hv l. split.
  - intros o w Hw. simpl in Hw. apply lookup_delete_Some in Hw as [Hne Hw].
    apply (vector_inv_frame s); [by eapply Hinv|].
    intros a Hwa. simpl. destruct (buffer_ (data_ v)) as [a'|] eqn:Hva; [|done].
    simpl. rewrite lookup_delete_ne; [done|]. intros ->.
    by apply Hne, (Hdis this o v w a).
  - intros o1 o2 w1 w2 a Hw1 Hw2. simpl in Hw1, Hw2.
    apply lookup_delete_Some in Hw1 as [_ Hw1].
    apply lookup_delete_Some in Hw2 as [_ Hw2].
    by apply Hdis.
Qed.

(** ** Every operation that returns keeps the store invariant *)

Lemma get_obj_None {A} this (k : Vector → M A) s :
  objs s !! this = None → bind (get_obj this) k s = Undefined.
Proof. intros H. unfold bind, get_obj. by rewrite H. Qed.

Lemma Reserve_inv this n s s' :
  store_inv s → Reserve this n s = Done tt s' → store_inv s'.
Proof.
  intros Hinv Hrun. destruct (objs s !! this) as [v|] eqn:Hv;
    [|unfold Reserve in Hrun; by rewrite get_obj_None in Hrun].
  destruct (store_inv_owns _ _ _ Hinv Hv) as [xs Hown].
  destruct (decide (n ≤ capacity_ (data_ v))) as [Hle|Hgt].
  - rewrite (Reserve_noop _ _ _ _ Hv Hle) in Hrun. by injection Hrun as <-.
  - pose proof (Reserve_grow this n v xs s Hv Hown ltac:(lia)) as Hr.
    destruct (all_good reloc_fails xs); [|destruct Hr as [? Hr]; congruence].
    rewrite Hr in Hrun. injection Hrun as <-.
    destruct Hown as (Hlen & Hsz & _).
    apply store_inv_settle; simpl; [done|done|lia|split; simpl; [done|lia]| |congruence].
    intros v0 Hv0. right. replace v0 with v by congruence. split; [done|].
    intros b Hb. injection Hb as <-. apply fresh_heap.
Qed.

Lemma append_inv this args s s' :
  store_inv s → append this args s = Done tt s' → store_inv s'.
Proof.
  intros Hinv Hrun. destruct (objs s !! this) as [v|] eqn:Hv;
    [|unfold append in Hrun; by rewrite get_obj_None in Hrun].
  destruct (store_inv_owns _ _ _ Hinv Hv) as [xs Hown].
  pose proof (owns_raw_inv _ _ _ Hown) as Hraw.
  destruct (decide (size_ v = capacity_ (data_ v))) as [Hfull|Hroom].
  - pose proof (append_grow this args v xs s Hv Hown Hfull) as Hr.
    destruct (arg_result args) as [[x e]|]; [|destruct Hr as [? Hr]; congruence].
    destruct (all_good reloc_fails xs); [|destruct Hr as [? Hr]; congruence].
    rewrite Hr in Hrun. injection Hrun as <-.
    destruct Hown as (Hlen & Hsz & _).
    apply store_inv_settle; simpl;
      [done|rewrite length_app; simpl; lia|case_decide; lia
      |split; simpl; [done|case_decide; lia]| |congruence].
    intros v0 Hv0. right. replace v0 with v by congruence. split; [done|].
    intros b Hb. injection Hb as <-. apply fresh_heap.
  - destruct Hown as (Hlen & Hsz & Hblk).
    pose proof (append_inplace this args v xs s Hv ltac:(by repeat split) ltac:(lia)) as Hr.
    destruct (arg_result args) as [[x e]|]; [|congruence].
    rewrite Hr in Hrun. injection Hrun as <-.
    apply store_inv_settle; simpl;
      [done|rewrite length_app; simpl; lia|lia|done| |congruence].
    intros v0 Hv0. left. by replace v0 with v by congruence.
Qed.

Lemma EmplaceBack_Done this args s r s' :
  EmplaceBack this args s = Done r s' → append this args s = Done tt s'.
Proof.
  rewrite EmplaceBack_append. destruct (append this args s) as [[] s1| |]; [|done..].
  destruct (objs s1 !! this) as [v|]; [|done].
  unfold RawMemory_index. case_decide; [|done]. unfold ret. intros H'. by injection H' as _ ->.
Qed.

Lemma PopBack_inv this s s' :
  store_inv s → PopBack this s = Done tt s' → store_inv s'.
Proof.
  intros Hinv Hrun. destruct (objs s !! this) as [v|] eqn:Hv;
    [|unfold PopBack in Hrun; by rewrite get_obj_None in Hrun].
  destruct (store_inv_owns _ _ _ Hinv Hv) as [xs Hown].
  pose proof (owns_raw_inv _ _ _ Hown) as Hraw.
  destruct xs as [|x0 xs0] using rev_ind.
  - destruct Hown as (Hlen & _). simpl in Hlen.
    unfold PopBack, bind, ptr_sub in Hrun. rewrite (get_obj_spec _ _ _ Hv) in Hrun.
    vec_simpl. by rewrite decide_False in Hrun by lia.
  - clear IHxs0. rewrite (PopBack_spec _ _ _ _ _ Hv Hown) in Hrun. injection Hrun as <-.
    destruct Hown as (Hlen & Hsz & _). rewrite length_app in Hlen; simpl in Hlen.
    apply store_inv_settle; simpl; [done|lia|lia|done| |congruence].
    intros v0 Hv0. left. by replace v0 with v by congruence.
Qed.

Lemma Resize_inv this n s s' :
  store_inv s → Resize this n s = Done tt s' → store_inv s'.
Proof.
  intros Hinv Hrun. destruct (objs s !! this) as [v|] eqn:Hv;
    [|unfold Resize in Hrun; by rewrite get_obj_None in Hrun].
  destruct (store_inv_owns _ _ _ Hinv Hv) as [xs Hown].
  pose proof (owns_raw_inv _ _ _ Hown) as Hraw.
  destruct (lt_eq_lt_dec n (size_ v)) as [[Hlt| ->]|Hgt].
  - rewrite (Resize_shrink _ _ _ _ _ Hv Hown Hlt) in Hrun. injection Hrun as <-.
    destruct Hown as (Hlen & Hsz & _).
    apply store_inv_settle; simpl; [done|rewrite length_take; lia|lia|done| |congruence].
    intros v0 Hv0. left. by replace v0 with v by congruence.
  - rewrite (Resize_same _ _ _ Hv) in Hrun. by injection Hrun as <-.
  - pose proof (Resize_grow this n v xs s Hv Hown Hgt) as Hr.
    destruct default_ctor as [d|]; [|destruct Hr as [? Hr]; congruence].
    destruct Hown as (Hlen & Hsz & Hblk).
    destruct (decide (n ≤ capacity_ (data_ v))).
    + rewrite Hr in Hrun. injection Hrun as <-.
      apply store_inv_settle; simpl;
        [done|rewrite length_app, length_replicate; lia|lia|done| |congruence].
      intros v0 Hv0. left. by replace v0 with v by congruence.
    + destruct (all_good reloc_fails xs); [|destruct Hr as [? Hr]; congruence].
      rewrite Hr in Hrun. injection Hrun as <-.
      apply store_inv_settle; simpl;
        [done|rewrite length_app, length_replicate; lia|lia
        |split; simpl; [done|lia]| |congruence].
      intros v0 Hv0. right. replace v0 with v by congruence. split; [done|].
      intros b Hb. injection Hb as <-. apply fresh_heap.
Qed.


Lemma new_handle_raw_inv n s : raw_inv (mkRaw (new_handle n s) n).
Proof. unfold raw_inv, new_handle; simpl. by case_decide. Qed.

Lemma new_handle_fresh n s b : new_handle n s = Some b → heap s !! b = None.
Proof.
  unfold new_handle. case_decide; [|done]. intros Hb. injection Hb as <-. apply fresh_heap.
Qed.

Lemma ctor_inv this op s s' :
  store_inv s → objs s !! this = None →
  match op with
  | OpDefaultCtor t | OpSizedCtor t _ | OpCopyCtor t _ | OpMoveCtor t _ => t = this
  | _ => False
  end →
  run_op op s = Done tt s' → store_inv s'.
Proof.
  intros Hinv Hthis Hop Hrun. destruct op; try done; subst this0; simpl in Hrun.
  - rewrite Vector_default_ctor_spec in Hrun by done. injection Hrun as <-.
    apply store_inv_settle; simpl; [done..|congruence|done].
  - pose proof (Vector_sized_ctor_spec this size s Hthis) as Hr.
    destruct default_ctor as [d|].
    + rewrite Hr in Hrun. injection Hrun as <-.
      apply store_inv_settle; simpl;
        [done|by rewrite length_replicate|done|apply new_handle_raw_inv|congruence|].
      intros _. split; [done|]. apply new_handle_fresh.
    + case_decide; [|congruence]. rewrite Hr in Hrun. injection Hrun as <-.
      apply store_inv_settle; simpl; [done..|congruence|done].
  - destruct (objs s !! other) as [o|] eqn:Ho;
      [|unfold Vector_copy_ctor in Hrun; by rewrite get_obj_None in Hrun].
    destruct (store_inv_owns _ _ _ Hinv Ho) as [xs Hown].
    rewrite (Vector_copy_ctor_spec _ _ _ _ _ Hthis Ho Hown) in Hrun.
    destruct (all_good copy_throws xs); [|done]. injection Hrun as <-.
    destruct Hown as (Hlen & _).
    apply store_inv_settle; simpl;
      [done|done|done|apply new_handle_raw_inv|congruence|].
    intros _. split; [done|]. apply new_handle_fresh.
  - destruct (objs s !! other) as [o|] eqn:Ho;
      [|unfold Vector_move_ctor in Hrun; by rewrite get_obj_None in Hrun].
    rewrite (Vector_move_ctor_spec _ _ _ _ Hthis Ho) in Hrun. injection Hrun as <-.
    by apply store_inv_move_ctor.
Qed.

Lemma Vector_dtor_inv this s s' :
  store_inv s → Vector_dtor this s = Done tt s' → store_inv s'.
Proof.
  intros Hinv Hrun. destruct (objs s !! this) as [v|] eqn:Hv;
    [|unfold Vector_dtor in Hrun; by rewrite get_obj_None in Hrun].
  destruct (store_inv_owns _ _ _ Hinv Hv) as [xs Hown].
  rewrite (Vector_dtor_spec _ _ _ _ Hv Hown) in Hrun. injection Hrun as <-.
  by apply store_inv_dtor.
Qed.

Lemma Vector_Swap_inv this other s s' :
  store_inv s → Vector_Swap this other s = Done tt s' → store_inv s'.
Proof.
  intros Hinv Hrun. destruct (objs s !! this) as [a|] eqn:Ha;
    [|unfold Vector_Swap in Hrun; by rewrite get_obj_None in Hrun].
  destruct (objs s !! other) as [b|] eqn:Hb.
  - rewrite (Vector_Swap_spec _ _ _ _ _ Ha Hb) in Hrun. injection Hrun as <-.
    by apply store_inv_swap.
  - unfold Vector_Swap, bind in Hrun. rewrite (get_obj_spec _ _ _ Ha) in Hrun.
    unfold get_obj in Hrun. by rewrite Hb in Hrun.
Qed.

Lemma Vector_copy_assign_inv this rhs s s' :
  store_inv s → Vector_copy_assign this rhs s = Done tt s' → store_inv s'.
Proof.
  intros Hinv Hrun. destruct (decide (this = rhs)) as [->|Hne].
  { rewrite Vector_copy_assign_self in Hrun. by injection Hrun as <-. }
  destruct (objs s !! this) as [v|] eqn:Hv; cycle 1.
  { unfold Vector_copy_assign in Hrun. rewrite decide_True in Hrun by done.
    by rewrite get_obj_None in Hrun. }
  destruct (objs s !! rhs) as [r|] eqn:Hr; cycle 1.
  { unfold Vector_copy_assign in Hrun. rewrite decide_True in Hrun by done.
    unfold bind at 1 in Hrun. rewrite (get_obj_spec _ _ _ Hv) in Hrun.
    by rewrite get_obj_None in Hrun. }
  destruct (store_inv_owns _ _ _ Hinv Hv) as [xs Hxs].
  destruct (store_inv_owns _ _ _ Hinv Hr) as [ys Hys].
  pose proof (owns_raw_inv _ _ _ Hxs) as Hraw.
  assert (Hdisj : ∀ a, buffer_ (data_ v) = Some a → buffer_ (data_ r) ≠ Some a).
  { intros a Ha Hb. destruct Hinv as [_ Hdis]. by apply Hne, (Hdis this rhs v r a). }
  assert (length xs = size_ v ∧ size_ v ≤ capacity_ (data_ v)) as [Hlx Hcx]
    by (by destruct Hxs as (? & ? & _)).
  assert (length ys = size_ r) as Hly by (by destruct Hys).
  destruct (decide (capacity_ (data_ v) < size_ r)) as [Hbig|Hfit].
  - rewrite (Vector_copy_assign_realloc _ _ _ _ _ _ _ Hne Hv Hr Hxs Hys Hbig) in Hrun.
    destruct (all_good copy_throws ys); [|done]. injection Hrun as <-.
    apply store_inv_settle; simpl; [done|done|done|split; simpl; [done|lia]| |congruence].
    intros v0 Hv0. right. replace v0 with v by congruence. split; [done|].
    intros b Hb. injection Hb as <-. apply fresh_heap.
  - destruct (decide (size_ v ≤ size_ r)) as [Hext|Hshr].
    + rewrite <- (take_drop (length xs) ys) in Hys.
      pose proof (Vector_copy_assign_extend this rhs v r xs _ _ s Hne Hv Hr Hxs Hys
                    ltac:(rewrite length_take; lia) Hdisj ltac:(lia)) as Hc.
      destruct (_ && _); [|destruct Hc as (? & Hc & _); congruence].
      rewrite Hc in Hrun. injection Hrun as <-. rewrite take_drop.
      apply store_inv_settle; simpl; [done|done|lia|done| |congruence].
      intros v0 Hv0. left. by replace v0 with v by congruence.
    + rewrite <- (take_drop (length ys) xs) in Hxs.
      pose proof (Vector_copy_assign_shrink this rhs v r _ _ ys s Hne Hv Hr Hxs Hys
                    ltac:(rewrite length_take; lia) Hdisj ltac:(lia)) as Hc.
      destruct (all_good copy_assign_throws ys); [|destruct Hc as (? & Hc & _); congruence].
      rewrite Hc in Hrun. injection Hrun as <-.
      apply store_inv_settle; simpl; [done|done|lia|done| |congruence].
      intros v0 Hv0. left. by replace v0 with v by congruence.
Qed.

Lemma Erase_inv this pos s r s' :
  store_inv s → Erase this pos s = Done r s' → store_inv s'.
Proof.
  intros Hinv Hrun. destruct (objs s !! this) as [v|] eqn:Hv;
    [|unfold Erase in Hrun; by rewrite get_obj_None in Hrun].
  destruct (store_inv_owns _ _ _ Hinv Hv) as [xs Hown].
  pose proof (owns_raw_inv _ _ _ Hown) as Hraw.
  assert (length xs = size_ v ∧ size_ v ≤ capacity_ (data_ v)) as [Hlx Hcx]
    by (by destruct Hown as (? & ? & _)).
  destruct pos as [pb i].
  assert (pb = buffer_ (data_ v) ∧ i + 1 < capacity_ (data_ v) ∧ i + 1 ≤ size_ v)
    as (-> & Hi1 & Hi2).
  { unfold Erase, distance, RawMemory_index, std_move_range, distance in Hrun.
    revert Hrun. munfold. rewrite (get_obj_spec _ _ _ Hv). mred. vec_simpl.
    case_decide as Hd; [|done]. destruct Hd as [-> _]. mred.
    rewrite Nat.sub_0_r. case_decide; [|done]. case_decide; [|done]. mred.
    case_decide as Hd2; [|done]. intros _. destruct Hd2 as [_ Hd2]. simpl in Hd2.
    repeat split; lia. }
  destruct (buffer_ (data_ v)) as [a|] eqn:Hbuf;
    [|apply Hraw in Hbuf; lia].
  assert (i < length xs) as Hi by lia.
  destruct (lookup_lt_is_Some_2 xs i Hi) as [x Hx].
  pose proof (take_drop_middle xs i x Hx) as Hsplit.
  rewrite <- Hsplit in Hown.
  pose proof (Erase_spec this v (take i xs) x (drop (S i) xs) s a Hv Hown Hbuf) as He.
  rewrite length_take, Nat.min_l in He by lia. specialize (He Hi1).
  destruct (all_good move_assign_throws (drop (S i) xs));
    [|destruct He as [? He]; congruence].
  rewrite He in Hrun. injection Hrun as _ <-.
  apply store_inv_settle; simpl;
    [done|rewrite length_app, length_take, length_drop; lia|lia|done| |congruence].
  intros v0 Hv0. left. by replace v0 with v by congruence.
Qed.


Lemma Emplace_inv this pos args s r s' :
  store_inv s → valid_pos s this pos → Emplace this pos args s = Done r s' → store_inv s'.
Proof.
  intros Hinv Hpos Hrun. destruct (objs s !! this) as [v|] eqn:Hv;
    [|unfold Emplace in Hrun; by rewrite get_obj_None in Hrun].
  destruct (Hpos v Hv) as [Hbase Hoff].
  destruct (store_inv_owns _ _ _ Hinv Hv) as [xs Hown].
  pose proof (owns_raw_inv _ _ _ Hown) as Hraw.
  assert (length xs = size_ v ∧ size_ v ≤ capacity_ (data_ v)) as [Hlx Hcx]
    by (by destruct Hown as (? & ? & _)).
  destruct (decide (size_ v = 0)) as [Hz|Hnz].
  { rewrite (Emplace_empty _ _ _ _ _ Hv Hz) in Hrun.
    destruct (append this (std_move args) s) as [[] s1| |] eqn:Happ; [|done..].
    apply (append_inv _ _ _ _ Hinv) in Happ.
    destruct (objs s1 !! this); [|done]. case_decide; [|done]. by injection Hrun as _ <-. }
  destruct pos as [pb i]. simpl in Hbase, Hoff. subst pb.
  destruct (buffer_ (data_ v)) as [a|] eqn:Hbuf; [|apply Hraw in Hbuf; lia].
  destruct (decide (size_ v = capacity_ (data_ v))) as [Hfull|Hroom].
  - rewrite <- (take_drop i xs) in Hown.
    pose proof (Emplace_grow this args v (take i xs) (drop i xs) s a Hv Hown Hbuf Hfull)
      as He.
    rewrite length_take, Nat.min_l in He by lia.
    destruct (arg_result args) as [[x e]|]; [|destruct He as [? He]; congruence].
    destruct (all_good reloc_fails _); [|destruct He as [? He]; congruence].
    rewrite He in Hrun. injection Hrun as _ <-.
    apply store_inv_settle; simpl;
      [done|rewrite length_app; simpl; rewrite length_take, length_drop; lia|lia
      |split; simpl; [done|lia]| |congruence].
    intros v0 Hv0. right. replace v0 with v by congruence. split; [done|].
    intros b Hb. injection Hb as <-. apply fresh_heap.
  - destruct (decide (i = size_ v)) as [->|Hmid].
    { by apply (Emplace_end_inplace this args v s a Hv Hbuf Hnz ltac:(lia)) in Hrun. }
    assert (∃ l2 z, drop i xs = l2 ++ [z]) as (l2 & z & Hd).
    { destruct (drop i xs) as [|y l] eqn:Hdrop using rev_ind.
      - apply (f_equal length) in Hdrop. rewrite length_drop in Hdrop. simpl in Hdrop. lia.
      - by exists l, y. }
    rewrite <- (take_drop i xs), Hd in Hown.
    pose proof (Emplace_inplace this args v (take i xs) l2 z s a Hv Hown Hbuf ltac:(lia))
      as He.
    rewrite length_take, Nat.min_l in He by lia.
    destruct (arg_result args) as [[x e]|]; [|congruence].
    destruct (_ && _); [|destruct He as [? He]; congruence].
    rewrite He in Hrun. injection Hrun as _ <-.
    apply (f_equal length) in Hd. rewrite length_drop, length_app in Hd. simpl in Hd.
    apply store_inv_settle; simpl;
      [done|rewrite length_app; simpl; rewrite length_app, length_take; simpl; lia|lia
      |done| |congruence].
    intros v0 Hv0. left. by replace v0 with v by congruence.
Qed.

Lemma discard_Done {A} (m : M A) s s' :
  discard m s = Done tt s' → ∃ r, m s = Done r s'.
Proof.
  unfold discard, bind, ret. destruct (m s) as [r s1| |]; [|done..].
  intros H. injection H as <-. by exists r.
Qed.

(** Every operation of [Vector] that is called as its contract allows and
    returns leaves the store invariant in place. *)
Lemma run_op_inv o s s' :
  store_inv s → op_pre s o → run_op o s = Done tt s' → store_inv s'.
Proof.
  intros Hinv Hpre Hrun. destruct o; simpl in Hpre, Hrun.
  - by apply (ctor_inv this (OpDefaultCtor this) s s').
  - by apply (ctor_inv this (OpSizedCtor this size) s s').
  - by apply (ctor_inv this (OpCopyCtor this other) s s').
  - by apply (ctor_inv this (OpMoveCtor this other) s s').
  - by eapply Vector_dtor_inv.
  - by eapply Vector_copy_assign_inv.
  - by eapply Vector_Swap_inv.
  - by eapply Vector_Swap_inv.
  - by eapply Reserve_inv.
  - by eapply Resize_inv.
  - by eapply append_inv.
  - by eapply append_inv.
  - apply discard_Done in Hrun as [r Hrun]. apply EmplaceBack_Done in Hrun.
    by eapply append_inv.
  - by eapply PopBack_inv.
  - apply discard_Done in Hrun as [r Hrun]. by eapply Emplace_inv.
  - apply discard_Done in Hrun as [r Hrun]. by eapply Emplace_inv.
  - apply discard_Done in Hrun as [r Hrun]. by eapply Emplace_inv.
  - apply discard_Done in Hrun as [r Hrun]. by eapply Erase_inv.
Qed.

(** Every operation of [RawMemory] yields objects whose handle is null
    exactly when their capacity is 0. *)
Lemma run_raw_op_inv o this other s r s' :
  raw_inv this → raw_inv other → run_raw_op o this other s = Done r s' →
  raw_inv r.1 ∧ raw_inv r.2.
Proof.
  intros Ht Ho Hrun. destruct o; simpl in Hrun; unfold ret in Hrun.
  - injection Hrun as <- _. by split.
  - unfold bind, RawMemory_ctor, bind, Allocate, ret in Hrun.
    case_decide; injection Hrun as <- _; split; try done; split; simpl; intros; done.
  - injection Hrun as <- _. split; simpl; first [exact Ho | exact Ht | done].
  - injection Hrun as <- _. split; simpl; first [exact Ho | exact Ht | done].
  - injection Hrun as <- _. split; simpl; first [exact Ho | exact Ht | done].
Qed.


(** * The claims *)

Lemma EmplaceBack_from_append this args s s' v' :
  append this args s = Done tt s' → objs s' !! this = Some v' →
  0 < size_ v' ≤ capacity_ (data_ v') →
  EmplaceBack this args s = Done (Ptr (buffer_ (data_ v')) (size_ v' - 1)) s'.
Proof.
  intros Happ Hv' Hsz. rewrite EmplaceBack_append, Happ, Hv'.
  unfold RawMemory_index. by rewrite decide_True by lia.
Qed.

Lemma reloc_policy_copy :
  move_if_noexcept_policy = false ↔
  is_nothrow_move_constructible = false ∧ is_copy_constructible = true.
Proof.
  unfold move_if_noexcept_policy.
  destruct is_nothrow_move_constructible, is_copy_constructible; simpl;
    split; try done; intros [? ?]; done.
Qed.

Lemma nothrow_move_never_fails xs :
  is_nothrow_move_constructible = true → all_good move_fails xs = true.
Proof.
  intros Hn. apply all_good_Forall, Forall_forall. intros x _.
  unfold move_fails. by rewrite Hn.
Qed.





(** C5. Move construction hands the storage and the size of the source to
    the new object, which then holds the elements, the size and the
    capacity the source had; the source is left with size 0 and an empty
    storage: null handle, capacity 0. No element is touched. *)
Theorem Vector_move_ctor_transfers this other v xs s :
  objs s !! this = None → objs s !! other = Some v → owns s v xs →
  ∃ s', Vector_move_ctor this other s = Done tt s' ∧
        objs s' !! this = Some v ∧ owns s' v xs ∧
        (∃ w, objs s' !! other = Some w ∧ Size w = 0 ∧ Capacity w = 0 ∧
              buffer_ (data_ w) = None) ∧
        heap s' = heap s ∧ log s' = log s.
Proof.
  intros Hthis Hother Hown. assert (this ≠ other) as Hne by congruence.
  rewrite (Vector_move_ctor_spec _ _ _ _ Hthis Hother). eexists. split; [done|].
  simpl. split.
  { rewrite lookup_insert_ne by done. apply lookup_insert_eq. }
  split; [done|]. split; [|done].
  eexists. split; [apply lookup_insert_eq|done].
Qed.

(** C10. Assigning a vector to itself changes nothing: the object store, the
    heap and the log of element-level operations are those of the call, so
    size, capacity and elements are unchanged and no constructor, destructor
    or assignment of the element type ran. *)
Theorem Vector_copy_assign_self_noop this (s : state) :
  Vector_copy_assign this this s = Done tt s.
Proof. apply Vector_copy_assign_self. Qed.

(** C7. Copy assignment between two different objects, when no copy of an
    element throws: the destination ends with the elements and the size of
    the source, and the source is unchanged. With a source larger than the
    capacity of the destination the elements are copy-constructed into a new
    block of exactly that size and the old elements and block are released;
    with a source that fits and is not shorter, the common prefix is
    copy-assigned and the rest copy-constructed in place; with a shorter
    source its elements are copy-assigned and the excess destroyed. When an
    exception propagates instead, the destination object still has the size
    (and the storage) it had. *)
Theorem Vector_copy_assign_copies this rhs v r xs ys s :
  store_inv s → this ≠ rhs →
  objs s !! this = Some v → objs s !! rhs = Some r → owns s v xs → owns s r ys →
  (all_good copy_throws ys = true → all_good copy_assign_throws ys = true →
   ∃ s' v', Vector_copy_assign this rhs s = Done tt s' ∧
            objs s' !! this = Some v' ∧ Size v' = Size r ∧ owns s' v' ys ∧
            objs s' !! rhs = Some r ∧ owns s' r ys ∧
            log s' = log s ++
              (if decide (capacity_ (data_ v) < size_ r)
               then map EvCopyCtor ys ++ map EvDtor xs
               else if decide (size_ v ≤ size_ r)
               then map EvCopyAssign (take (size_ v) ys)
                      ++ map EvCopyCtor (drop (size_ v) ys)
               else map EvCopyAssign ys ++ map EvDtor (drop (size_ r) xs)) ∧
            (if decide (capacity_ (data_ v) < size_ r)
             then capacity_ (data_ v') = size_ r ∧
                  (∀ a, buffer_ (data_ v') = Some a → heap s !! a = None)
             else data_ v' = data_ v)) ∧
  (∀ s', Vector_copy_assign this rhs s = Throw s' → objs s' !! this = Some v).
Proof.
  intros Hinv Hne Hv Hr Hxs Hys.
  pose proof (owns_raw_inv _ _ _ Hxs) as Hraw.
  assert (Hdisj : ∀ a, buffer_ (data_ v) = Some a → buffer_ (data_ r) ≠ Some a).
  { intros a Ha Hb. destruct Hinv as [_ Hdis]. by apply Hne, (Hdis this rhs v r a). }
  assert (length xs = size_ v ∧ size_ v ≤ capacity_ (data_ v)) as [Hlx Hcx]
    by (by destruct Hxs as (? & ? & _)).
  assert (length ys = size_ r) as Hly by (by destruct Hys).
  assert (Hsrc : ∀ v' zs l old,
            (buffer_ (data_ v') = buffer_ (data_ v) ∨
             ∀ b, buffer_ (data_ v') = Some b → heap s !! b = None) →
            (old = None ∨ old = buffer_ (data_ v)) →
            objs (settle this v' zs l old s) !! rhs = Some r ∧
            owns (settle this v' zs l old s) r ys).
  { intros v' zs l old Hbuf Hold. split; [by rewrite settle_objs_ne|].
    destruct Hys as (Hl & Hle & Hblk). split; [done|]. split; [done|].
    destruct (buffer_ (data_ r)) as [ra|] eqn:Hra; [|done].
    destruct Hblk as [Hc Hblk]. split; [done|].
    assert (heap (settle this v' zs l old s) !! ra = heap s !! ra) as ->; [|done].
    unfold settle; simpl.
    assert (dealloc old (heap s) !! ra = heap s !! ra) as Hd.
    { destruct Hold as [->| ->]; [done|].
      destruct (buffer_ (data_ v)) as [a|] eqn:Ha; [|done]. simpl.
      apply lookup_delete_ne. intros ->. by apply (Hdisj ra). }
    destruct (buffer_ (data_ v')) as [b|] eqn:Hb; [|done].
    rewrite lookup_insert_ne; [done|]. intros ->.
    destruct Hbuf as [Hbuf|Hbuf].
    - by apply (Hdisj ra).
    - rewrite Hbuf in Hblk; done. }
  split.
  - intros Hc1 Hc2.
    destruct (decide (capacity_ (data_ v) < size_ r)) as [Hbig|Hfit].
    + rewrite (Vector_copy_assign_realloc _ _ _ _ _ _ _ Hne Hv Hr Hxs Hys Hbig), Hc1.
      eexists _, _. split; [done|]. split; [apply settle_objs|]. split; [done|].
      split; [apply owns_settle; simpl; [done|done|split; simpl; [done|lia]]|].
      destruct (Hsrc (mkVector (mkRaw (Some (fresh (dom (heap s)))) (size_ r)) (size_ r))
                  ys (map EvCopyCtor ys ++ map EvDtor xs) (buffer_ (data_ v))) as [H1 H2];
        [right; simpl; intros b Hb; injection Hb as <-; apply fresh_heap|by right|].
      split; [done|]. split; [done|]. split; [done|]. simpl. split; [done|].
      intros a Ha. injection Ha as <-. apply fresh_heap.
    + destruct (decide (size_ v ≤ size_ r)) as [Hext|Hshr].
      * pose proof Hys as Hys'. rewrite <- (take_drop (size_ v) ys) in Hys'.
        pose proof (Vector_copy_assign_extend this rhs v r xs _ _ s Hne Hv Hr Hxs Hys'
                      ltac:(rewrite length_take; lia) Hdisj ltac:(lia)) as Hc.
        rewrite <- (take_drop (size_ v) ys), !all_good_app in Hc1, Hc2.
        apply andb_prop in Hc1 as [_ Hc1]. apply andb_prop in Hc2 as [Hc2 _].
        rewrite Hc1, Hc2 in Hc. simpl in Hc. rewrite take_drop in Hc.
        eexists _, _. split; [exact Hc|]. split; [apply settle_objs|]. split; [done|].
        split; [apply owns_settle; simpl; [done|lia|done]|].
        destruct (Hsrc (mkVector (data_ v) (size_ r)) ys
                    (map EvCopyAssign (take (size_ v) ys)
                       ++ map EvCopyCtor (drop (size_ v) ys)) None) as [H1 H2];
          [by left|by left|].
        done.
      * pose proof Hxs as Hxs'. rewrite <- (take_drop (size_ r) xs) in Hxs'.
        pose proof (Vector_copy_assign_shrink this rhs v r _ _ ys s Hne Hv Hr Hxs' Hys
                      ltac:(rewrite length_take; lia) Hdisj ltac:(lia)) as Hc.
        rewrite Hc2 in Hc.
        eexists _, _. split; [exact Hc|]. split; [apply settle_objs|]. split; [done|].
        split; [apply owns_settle; simpl; [done|lia|done]|].
        destruct (Hsrc (mkVector (data_ v) (size_ r)) ys
                    (map EvCopyAssign ys ++ map EvDtor (drop (size_ r) xs)) None)
          as [H1 H2]; [by left|by left|].
        done.
  - intros s' Hthrow.
    destruct (decide (capacity_ (data_ v) < size_ r)) as [Hbig|Hfit].
    + rewrite (Vector_copy_assign_realloc _ _ _ _ _ _ _ Hne Hv Hr Hxs Hys Hbig) in Hthrow.
      destruct (all_good copy_throws ys); [done|]. by injection Hthrow as <-.
    + destruct (decide (size_ v ≤ size_ r)) as [Hext|Hshr].
      * pose proof Hys as Hys'. rewrite <- (take_drop (size_ v) ys) in Hys'.
        pose proof (Vector_copy_assign_extend this rhs v r xs _ _ s Hne Hv Hr Hxs Hys'
                      ltac:(rewrite length_take; lia) Hdisj ltac:(lia)) as Hc.
        destruct (_ && _); [congruence|].
        destruct Hc as (s1 & Hc & Hobjs). rewrite Hc in Hthrow.
        injection Hthrow as <-. by rewrite Hobjs.
      * pose proof Hxs as Hxs'. rewrite <- (take_drop (size_ r) xs) in Hxs'.
        pose proof (Vector_copy_assign_shrink this rhs v r _ _ ys s Hne Hv Hr Hxs' Hys
                      ltac:(rewrite length_take; lia) Hdisj ltac:(lia)) as Hc.
        destruct (all_good copy_assign_throws ys); [congruence|].
        destruct Hc as (s1 & Hc & Hobjs). rewrite Hc in Hthrow.
        injection Hthrow as <-. by rewrite Hobjs.
Qed.


Lemma storage_kept_settle this v xs ys n' l k s :
  objs s !! this = Some v → owns s v xs →
  length ys = n' → n' ≤ capacity_ (data_ v) →
  take k ys = take k xs → k ≤ n' → k ≤ length xs →
  storage_kept this v s (settle this (mkVector (data_ v) n') ys l None s) k.
Proof.
  intros Hv Hown Hlen Hle Htake Hk1 Hk2. split; [|split].
  - eexists. split; [apply settle_objs|done].
  - unfold settle; simpl. destruct (buffer_ (data_ v)) as [a|] eqn:Hb; [|done].
    destruct (owns_Some _ _ _ _ Hown Hb) as (_ & _ & _ & Ha).
    by apply dom_insert_lookup_L.
  - intros a cells Hb Ha.
    destruct (owns_Some _ _ _ _ Hown Hb) as (Hlx & Hsz & _ & Ha').
    rewrite Ha in Ha'. injection Ha' as ->.
    eexists. split; [by apply (settle_heap _ (mkVector (data_ v) n'))|]. simpl.
    split; [rewrite !length_app, !length_map, !length_replicate; lia|].
    intros j Hj.
    rewrite !lookup_app_l by (rewrite length_map; lia).
    rewrite !list_lookup_fmap.
    rewrite <- (lookup_take_lt ys k j), <- (lookup_take_lt xs k j) by done.
    by rewrite Htake.
Qed.

Lemma Erase_Done_valid this pos v s r s' :
  objs s !! this = Some v → Erase this pos s = Done r s' →
  pos = Ptr (buffer_ (data_ v)) (off pos) ∧
  off pos + 1 < capacity_ (data_ v) ∧ off pos + 1 ≤ size_ v.
Proof.
  intros Hv Hrun. destruct pos as [pb i]. simpl.
  unfold Erase, distance, RawMemory_index, std_move_range, distance in Hrun.
  revert Hrun. munfold. rewrite (get_obj_spec _ _ _ Hv). mred. vec_simpl.
  case_decide as Hd; [|done]. destruct Hd as [-> _]. mred.
  rewrite Nat.sub_0_r. case_decide; [|done]. case_decide; [|done]. mred.
  case_decide as Hd2; [|done]. intros _. destruct Hd2 as [_ Hd2]. simpl in Hd2.
  repeat split; lia.
Qed.

Lemma Erase_Throw_frame this pos v s s' :
  objs s !! this = Some v → Erase this pos s = Throw s' →
  objs s' = objs s ∧ dom (heap s') = dom (heap s).
Proof.
  intros Hv Hrun. revert Hrun.
  unfold Erase, distance, RawMemory_index, ptr_sub. munfold.
  rewrite (get_obj_spec _ _ _ Hv). mred.
  case_decide; [|done]. mred. case_decide; [|done]. case_decide; [|done]. mred.
  destruct (std_move_range _ _ _ s) as [[] s1|s1|] eqn:Hm; [| |done].
  - apply heap_only_Done in Hm as [Ho1 Hd1]; [|apply heap_only_std_move_range].
    case_decide; [|done]. mred.
    destruct (destroy_n _ 1 s1) as [[] s2|s2|] eqn:Hdn; [| |done].
    + unfold put_obj. by destruct (objs s2 !! this).
    + intros Hrun. injection Hrun as <-.
      apply heap_only_Throw in Hdn as [Ho2 Hd2]; [|apply heap_only_destroy_n].
      split; congruence.
  - intros Hrun. injection Hrun as <-. eapply heap_only_Throw; [|exact Hm].
    apply heap_only_std_move_range.
Qed.



Lemma capacity_after_bounds n :
  n ≤ capacity_after n ∧
  (0 < n → ∃ k, capacity_after n = 2 ^ k ∧ capacity_after n < 2 * n).
Proof.
  induction n as [|n [IH1 IH2]]; [split; [done|lia]|].
  simpl. destruct (decide (n = capacity_after n)) as [Heq|Hne].
  - destruct (decide (n = 0)) as [->|Hn].
    + split; [lia|]. intros _. exists 0. simpl. lia.
    + destruct (IH2 ltac:(lia)) as (k & Hk & _).
      split; [lia|]. intros _. exists (S k).
      rewrite Nat.pow_succ_r', <- Hk, <- Heq. lia.
  - assert (0 < n) as Hpos by (destruct n; [done|lia]).
    split; [lia|]. intros _. destruct (IH2 Hpos) as (k & Hk & Hlt).
    exists k. split; [done|lia].
Qed.

Lemma capacity_after_closed n :
  capacity_after n = if decide (n = 0) then 0 else 2 ^ Nat.log2_up n.
Proof.
  destruct (decide (n = 0)) as [->|Hn]; [done|].
  destruct (capacity_after_bounds n) as [Hle Hpow].
  destruct (Hpow ltac:(lia)) as (k & Hk & Hlt). rewrite Hk. f_equal.
  symmetry. destruct k as [|k].
  - simpl in Hk. assert (n = 1) as -> by lia. done.
  - apply Nat.log2_up_unique; [lia|]. simpl Nat.pred.
    rewrite Hk, Nat.pow_succ_r' in *. lia.
Qed.

Lemma run_append_append this c s :
  run_append this c s
  = match append this (call_arg c) s with
    | Done _ s' =>
        match c, objs s' !! this with
        | CallEmplaceBack _, Some v =>
            if decide (size_ v - 1 < capacity_ (data_ v)) then Done tt s' else Undefined
        | CallEmplaceBack _, None => Undefined
        | _, _ => Done tt s'
        end
    | Throw s' => Throw s'
    | Undefined => Undefined
    end.
Proof.
  destruct c as [x|x|a]; simpl.
  - rewrite PushBack_append. by destruct (append _ _ s) as [[] ?| |].
  - rewrite PushBack_rvalue_append. by destruct (append _ _ s) as [[] ?| |].
  - unfold discard, bind. rewrite EmplaceBack_append.
    destruct (append this a s) as [[] s'| |]; [|done..].
    destruct (objs s' !! this) as [v|]; [|done].
    unfold RawMemory_index. by case_decide.
Qed.

(** One append on an object that holds [xs]. *)
Lemma run_append_spec this c x e v xs s :
  objs s !! this = Some v → owns s v xs →
  arg_result (call_arg c) = Some (x, e) → all_good reloc_fails xs = true →
  ∃ s' v', run_append this c s = Done tt s' ∧
           objs s' !! this = Some v' ∧ owns s' v' (xs ++ [x]) ∧
           size_ v' = size_ v + 1 ∧
           capacity_ (data_ v')
           = (if decide (size_ v = capacity_ (data_ v))
              then (if decide (capacity_ (data_ v) = 0) then 1 else capacity_ (data_ v) * 2)
              else capacity_ (data_ v)) ∧
           (∀ o, o ≠ this → objs s' !! o = objs s !! o).
Proof.
  intros Hv Hown Harg Hok. rewrite run_append_append.
  pose proof (owns_raw_inv _ _ _ Hown) as Hraw.
  assert (length xs = size_ v ∧ size_ v ≤ capacity_ (data_ v)) as [Hlx Hcx]
    by (by destruct Hown as (? & ? & _)).
  assert (Hfin : ∀ v' l old,
            size_ v' = size_ v + 1 → size_ v' ≤ capacity_ (data_ v') → raw_inv (data_ v') →
            append this (call_arg c) s = Done tt (settle this v' (xs ++ [x]) l old s) →
            ∃ s', match append this (call_arg c) s with
                  | Done _ s' =>
                      match c, objs s' !! this with
                      | CallEmplaceBack _, Some v =>
                          if decide (size_ v - 1 < capacity_ (data_ v))
                          then Done tt s' else Undefined
                      | CallEmplaceBack _, None => Undefined
                      | _, _ => Done tt s'
                      end
                  | Throw s' => Throw s'
                  | Undefined => Undefined
                  end = Done tt s' ∧
                  objs s' !! this = Some v' ∧ owns s' v' (xs ++ [x]) ∧
                  (∀ o, o ≠ this → objs s' !! o = objs s !! o)).
  { intros v' l old Hsz Hle Hr Happ. rewrite Happ, settle_objs.
    eexists. split.
    - destruct c; [done|done|]. by rewrite decide_True by lia.
    - split; [apply settle_objs|]. split.
      + apply owns_settle; [rewrite length_app; simpl; lia|done..].
      + intros o Ho. by apply settle_objs_ne. }
  destruct (decide (size_ v = capacity_ (data_ v))) as [Hfull|Hroom].
  - pose proof (append_grow this (call_arg c) v xs s Hv Hown Hfull) as Hr.
    rewrite Harg, Hok in Hr.
    edestruct Hfin as (s' & H1 & H2 & H3 & H4); [| | |exact Hr|]; simpl.
    + done.
    + case_decide; lia.
    + split; simpl; [done|case_decide; lia].
    + eexists _, _. split; [exact H1|]. split; [exact H2|]. split; [done|].
      split; [done|]. split; [|done]. simpl. rewrite Hfull.
      by destruct (decide (capacity_ (data_ v) = 0)).
  - pose proof (append_inplace this (call_arg c) v xs s Hv Hown ltac:(lia)) as Hr.
    rewrite Harg in Hr.
    edestruct Hfin as (s' & H1 & H2 & H3 & H4); [| | |exact Hr|]; simpl.
    + done.
    + lia.
    + done.
    + eexists _, _. split; [exact H1|]. split; [exact H2|].
      split; [done|]. split; [simpl; lia|]. by split.
Qed.

Lemma run_appends_spec cs : ∀ this xs0 xs v s,
  objs s !! this = Some v → owns s v xs0 →
  calls_construct cs xs → all_good reloc_fails (xs0 ++ xs) = true →
  capacity_ (data_ v) = capacity_after (size_ v) →
  ∃ s' v', run_appends this cs s = Done tt s' ∧
           objs s' !! this = Some v' ∧ owns s' v' (xs0 ++ xs) ∧
           size_ v' = size_ v + length cs ∧
           capacity_ (data_ v') = capacity_after (size_ v + length cs).
Proof.
  induction cs as [|c cs IH]; intros this xs0 xs v s Hv Hown Hcs Hok Hcap.
  - apply Forall2_nil_inv_l in Hcs as ->. rewrite app_nil_r, !Nat.add_0_r.
    by exists s, v.
  - apply Forall2_cons_inv_l in Hcs as (x & xs' & [e Hx] & Hcs & ->).
    rewrite all_good_app in Hok. apply andb_prop in Hok as [Hok0 Hok1].
    destruct (run_append_spec this c x e v xs0 s Hv Hown Hx Hok0)
      as (s1 & v1 & Hrun & Hv1 & Hown1 & Hsz1 & Hcap1 & _).
    destruct (IH this (xs0 ++ [x]) xs' v1 s1 Hv1 Hown1 Hcs) as (s2 & v2 & H2).
    + rewrite <- app_assoc. simpl. by rewrite all_good_app, Hok0.
    + rewrite Hcap1, Hsz1, Nat.add_1_r. simpl. rewrite <- Hcap.
      destruct (decide (size_ v = capacity_ (data_ v))) as [Heq|Hne].
      * rewrite <- Heq. by repeat case_decide.
      * done.
    + destruct H2 as (Hrun2 & Hv2 & Hown2 & Hsz2 & Hcap2).
      exists s2, v2. split.
      { simpl. unfold bind. by rewrite Hrun. }
      split; [done|]. rewrite <- app_assoc in Hown2. split; [done|].
      simpl. rewrite Hsz2, Hcap2, Hsz1. split; [lia|]. f_equal. lia.
Qed.

(** C6. A default-constructed vector has size 0 and capacity 0. After [n]
    calls of [PushBack] or [EmplaceBack] whose constructors do not throw,
    its size is [n], it holds the appended elements in order, and its
    capacity is the least power of two that is at least [n]: 1, 2, 4, 4, 8,
    ... Each call adds one to the size; it changes the capacity exactly when
    the size equals the capacity, from 0 to 1 and otherwise to its double. *)
Theorem append_sequence_capacity this cs xs s :
  objs s !! this = None → calls_construct cs xs → all_good reloc_fails xs = true →
  (∃ s' v, (do! Vector_default_ctor this in run_appends this cs) s = Done tt s' ∧
           objs s' !! this = Some v ∧ owns s' v xs ∧
           Size v = length cs ∧
           Capacity v = if decide (length cs = 0) then 0 else 2 ^ Nat.log2_up (length cs)) ∧
  (∀ k, k < length cs →
    ∃ s1 v1 s2 v2 c,
      (do! Vector_default_ctor this in run_appends this (take k cs)) s = Done tt s1 ∧
      objs s1 !! this = Some v1 ∧ Size v1 = k ∧ cs !! k = Some c ∧
      run_append this c s1 = Done tt s2 ∧
      objs s2 !! this = Some v2 ∧ Size v2 = k + 1 ∧
      Capacity v2 = if decide (Size v1 = Capacity v1)
                    then (if decide (Capacity v1 = 0) then 1 else Capacity v1 * 2)
                    else Capacity v1).
Proof.
  intros Hthis Hcs Hok.
  assert (Hstart : ∀ cs' xs', calls_construct cs' xs' → all_good reloc_fails xs' = true →
            ∃ s' v, (do! Vector_default_ctor this in run_appends this cs') s = Done tt s' ∧
                    objs s' !! this = Some v ∧ owns s' v xs' ∧
                    size_ v = length cs' ∧
                    capacity_ (data_ v) = capacity_after (length cs')).
  { intros cs' xs' Hcs' Hok'. unfold bind.
    rewrite (Vector_default_ctor_spec _ _ Hthis).
    set (s0 := settle this (mkVector RawMemory_default 0) [] [] None s).
    destruct (run_appends_spec cs' this [] xs' (mkVector RawMemory_default 0) s0)
      as (s' & v' & H1 & H2 & H3 & H4 & H5); [apply settle_objs| |done|done|done|].
    - by apply owns_settle.
    - by exists s', v'. }
  split.
  - destruct (Hstart cs xs Hcs Hok) as (s' & v & H1 & H2 & H3 & H4 & H5).
    exists s', v. unfold Size, Capacity, RawMemory_Capacity.
    by rewrite H5, capacity_after_closed.
  - intros k Hk.
    destruct (lookup_lt_is_Some_2 cs k Hk) as [c Hc].
    pose proof (Forall2_length _ _ _ Hcs) as Hlen.
    destruct (lookup_lt_is_Some_2 xs k ltac:(lia)) as [x Hx].
    pose proof (Forall2_lookup_lr _ _ _ _ _ _ Hcs Hc Hx) as [e He].
    rewrite <- (take_drop k xs), all_good_app in Hok. apply andb_prop in Hok as [Hok1 _].
    destruct (Hstart (take k cs) (take k xs) ltac:(by apply Forall2_take) Hok1)
      as (s1 & v1 & H1 & H2 & H3 & H4 & H5).
    rewrite length_take, Nat.min_l in H4 by lia.
    destruct (run_append_spec this c x e v1 (take k xs) s1 H2 H3 He Hok1)
      as (s2 & v2 & Hrun & Hv2 & Hown2 & Hsz2 & Hcap2 & _).
    exists s1, v1, s2, v2, c. unfold Size, Capacity, RawMemory_Capacity.
    repeat split; try done. lia.
Qed.


(** [Insert] in front of an element, then [Erase] at the returned position:
    when no operation of the element type throws, the vector holds the
    elements and has the size it had before, and both calls return the
    position of the insertion. *)
Lemma Emplace_Erase_roundtrip this args v l1 l2 x e s a :
  objs s !! this = Some v → owns s v (l1 ++ l2) → buffer_ (data_ v) = Some a →
  l2 ≠ [] → arg_result args = Some (x, e) →
  all_good reloc_fails (l1 ++ l2) = true → all_good move_fails l2 = true →
  all_good move_assign_throws (x :: l2) = true →
  ∃ p s1 s2 v2,
    Emplace this (Ptr (Some a) (length l1)) args s = Done p s1 ∧
    off p = length l1 ∧ cell_at s1 p = Some (Some x) ∧
    Erase this p s1 = Done p s2 ∧
    objs s2 !! this = Some v2 ∧ owns s2 v2 (l1 ++ l2) ∧ size_ v2 = size_ v.
Proof.
  intros Hv Hown Hbuf Hne Harg Hreloc Hmove Hassign.
  pose proof Hown as (Hlen & Hle & _). rewrite length_app in Hlen.
  assert (0 < length l2) as Hl2 by (destruct l2; [done|simpl; lia]).
  simpl in Hassign. apply andb_prop in Hassign as [Hx Hassign].
  apply negb_true_iff in Hx.
  assert (Hfin : ∀ v1 l old b,
    Emplace this (Ptr (Some a) (length l1)) args s
    = Done (Ptr (Some b) (length l1)) (settle this v1 (l1 ++ x :: l2) l old s) →
    buffer_ (data_ v1) = Some b → size_ v1 = size_ v + 1 →
    size_ v1 ≤ capacity_ (data_ v1) → length l1 + 1 < capacity_ (data_ v1) →
    ∃ p s1 s2 v2,
      Emplace this (Ptr (Some a) (length l1)) args s = Done p s1 ∧
      off p = length l1 ∧ cell_at s1 p = Some (Some x) ∧
      Erase this p s1 = Done p s2 ∧
      objs s2 !! this = Some v2 ∧ owns s2 v2 (l1 ++ l2) ∧ size_ v2 = size_ v).
  { intros v1 l old b Hrun Hb Hsz Hcap Hlt.
    set (s1 := settle this v1 (l1 ++ x :: l2) l old s) in *.
    assert (owns s1 v1 (l1 ++ x :: l2)) as Hown1.
    { apply owns_settle; [rewrite length_app; simpl; lia|done|].
      split; [congruence|]. intros Hc. lia. }
    pose proof (Erase_spec this v1 l1 x l2 s1 b (settle_objs _ _ _ _ _ _) Hown1 Hb Hlt)
      as Herase.
    rewrite Hassign in Herase.
    eexists _, _, _, _. split; [exact Hrun|]. split; [done|].
    split.
    { unfold cell_at. cbn [base off option_bind mbind].
      unfold s1. rewrite (settle_heap _ _ _ _ _ _ _ Hb). simpl.
      rewrite map_app, <- app_assoc, lookup_app_r by (by rewrite length_map).
      by rewrite length_map, Nat.sub_diag. }
    split; [exact Herase|]. split; [apply settle_objs|].
    split; [|simpl; lia].
    apply owns_settle; simpl; [rewrite length_app; lia|lia|].
    split; simpl; [congruence|]. intros Hc. lia. }
  destruct (decide (size_ v = capacity_ (data_ v))) as [Hfull|Hroom].
  - pose proof (Emplace_grow this args v l1 l2 s a Hv Hown Hbuf Hfull) as Hr.
    rewrite Harg, Hreloc in Hr.
    eapply Hfin; [exact Hr|done|done|simpl; lia|simpl; lia].
  - destruct l2 as [|y l2 _] using rev_ind; [done|].
    rewrite all_good_app in Hmove, Hassign.
    apply andb_prop in Hmove as [_ Hz]. apply andb_prop in Hassign as [Hl2' _].
    simpl in Hz. rewrite andb_true_r in Hz. apply negb_true_iff in Hz.
    pose proof (Emplace_inplace this args v l1 l2 y s a Hv Hown Hbuf ltac:(lia)) as Hr.
    rewrite Harg, Hz, Hl2', Hx in Hr. simpl in Hr.
    rewrite length_app in *. simpl in *.
    eapply Hfin; [exact Hr|done|done|simpl; lia|simpl; lia].
Qed.


(** * Further properties of the operations *)

Lemma settle_heap_ne this v' ys l old s a :
  buffer_ (data_ v') ≠ Some a → old ≠ Some a →
  heap (settle this v' ys l old s) !! a = heap s !! a.
Proof.
  intros Hb Ho. unfold settle; simpl.
  assert (dealloc old (heap s) !! a = heap s !! a) as Hd.
  { destruct old as [a'|]; simpl; [|done]. apply lookup_delete_ne. congruence. }
  destruct (buffer_ (data_ v')) as [b|]; [|done].
  rewrite lookup_insert_ne by congruence. done.
Qed.

Lemma new_handle_ne n s a : is_Some (heap s !! a) → new_handle n s ≠ Some a.
Proof.
  intros [cells Ha] Hn. apply new_handle_fresh in Hn. congruence.
Qed.


(** X2. [Vector(const Vector& other)]. When no copy throws, the new vector
    holds the elements of [other] in a block of its own, newly allocated,
    and its capacity is the size of [other], not the capacity of [other];
    [other] keeps its elements. When the copy of an element throws, the
    copies made so far are destroyed in the order they were made, the new
    block is released, no object is created, and the object store and the
    heap are those of the call. *)
Theorem Vector_copy_ctor_deep_copy this other o xs s :
  objs s !! this = None → objs s !! other = Some o → owns s o xs →
  (all_good copy_throws xs = true →
     ∃ s' v, Vector_copy_ctor this other s = Done tt s' ∧
             objs s' !! this = Some v ∧ owns s' v xs ∧
             Size v = Size o ∧ Capacity v = Size o ∧
             (∀ a, buffer_ (data_ v) = Some a → heap s !! a = None) ∧
             (∀ a, buffer_ (data_ v) = Some a → buffer_ (data_ o) ≠ Some a) ∧
             objs s' !! other = Some o ∧ owns s' o xs) ∧
  (all_good copy_throws xs = false →
     ∃ s', Vector_copy_ctor this other s = Throw s' ∧
           objs s' = objs s ∧ heap s' = heap s ∧
           log s' = log s ++ map EvCopyCtor (good_prefix copy_throws xs)
                          ++ map EvDtor (good_prefix copy_throws xs)).
Proof.
  intros Hthis Hother Hown.
  pose proof (Vector_copy_ctor_spec this other o xs s Hthis Hother Hown) as Hr.
  assert (this ≠ other) as Hne by congruence.
  split; intros Hok; rewrite Hok in Hr.
  - eexists _, _. split; [exact Hr|]. split; [apply settle_objs|].
    pose proof Hown as (Hlen & Hle & Hblk).
    split; [apply owns_settle; simpl; [done|done|apply new_handle_raw_inv]|].
    split; [done|]. split; [done|]. split; [intros a; apply new_handle_fresh|].
    assert (∀ a, new_handle (size_ o) s = Some a → buffer_ (data_ o) ≠ Some a) as Hfresh.
    { intros a Ha Hoa. apply new_handle_fresh in Ha.
      destruct (owns_Some _ _ _ _ Hown Hoa) as (_ & _ & _ & Hcells). congruence. }
    split; [exact Hfresh|]. split; [by rewrite settle_objs_ne|].
    split; [done|]. split; [done|].
    destruct (buffer_ (data_ o)) as [a|] eqn:Hoa; [|done].
    destruct Hblk as [Hc Hcells]. split; [done|].
    rewrite settle_heap_ne; simpl; [done| |done].
    intros Ha. by apply (Hfresh a).
  - eexists. split; [exact Hr|]. by repeat split.
Qed.

(** X3. [~Vector()]. The destructor destroys the elements from the first to
    the last, releases the block and ends the object; every other object
    and every other block is untouched. *)
Theorem Vector_dtor_releases this v xs s :
  objs s !! this = Some v → owns s v xs →
  ∃ s', Vector_dtor this s = Done tt s' ∧
        objs s' !! this = None ∧
        log s' = log s ++ map EvDtor xs ∧
        (∀ a, buffer_ (data_ v) = Some a → heap s' !! a = None) ∧
        (∀ o, o ≠ this → objs s' !! o = objs s !! o) ∧
        (∀ a, buffer_ (data_ v) ≠ Some a → heap s' !! a = heap s !! a).
Proof.
  intros Hv Hown. eexists. split; [by apply (Vector_dtor_spec this v xs)|]. simpl.
  split; [apply lookup_delete_eq|]. split; [done|]. split; [|split].
  - intros a ->. apply lookup_delete_eq.
  - intros o Ho. by apply lookup_delete_ne.
  - intros a Ha. destruct (buffer_ (data_ v)) as [b|]; simpl; [|done].
    apply lookup_delete_ne. congruence.
Qed.

(** X4. A temporary copy leaves nothing behind: copy-constructing a vector
    and destroying the copy ends in the object store and the heap of the
    start, after one copy construction and one destruction per element. *)
Theorem Vector_copy_then_destroy this other o xs s :
  objs s !! this = None → objs s !! other = Some o → owns s o xs →
  all_good copy_throws xs = true →
  ∃ s', bind (Vector_copy_ctor this other) (λ _, Vector_dtor this) s = Done tt s' ∧
        objs s' = objs s ∧ heap s' = heap s ∧
        log s' = log s ++ map EvCopyCtor xs ++ map EvDtor xs.
Proof.
  intros Hthis Hother Hown Hok.
  pose proof (Vector_copy_ctor_spec this other o xs s Hthis Hother Hown) as Hr.
  rewrite Hok in Hr. unfold bind. rewrite Hr.
  set (v := mkVector (mkRaw (new_handle (size_ o) s) (size_ o)) (size_ o)).
  set (s1 := settle this v xs (map EvCopyCtor xs) None s).
  destruct Hown as (Hlen & _).
  assert (owns s1 v xs) as Hown1
    by (apply owns_settle; simpl; [done|done|apply new_handle_raw_inv]).
  rewrite (Vector_dtor_spec this v xs s1 (settle_objs _ _ _ _ _ _) Hown1).
  eexists. split; [done|]. simpl. split; [|split].
  - apply delete_insert_id. done.
  - unfold new_handle. case_decide; simpl; [|done].
    apply delete_insert_id, fresh_heap.
  - by rewrite <- app_assoc.
Qed.


Lemma swap_back (m : gmap oid Vector) this other a b :
  m !! this = Some a → m !! other = Some b →
  <[other := b]> (<[this := a]> (<[other := a]> (<[this := b]> m))) = m.
Proof.
  intros Ha Hb. apply map_eq. intros k.
  repeat (rewrite lookup_insert; case_decide; subst; [congruence|]). done.
Qed.

(** X5. [Swap] exchanges the storage and the size of two vectors: each one
    ends with the elements, the size and the capacity of the other. No
    element is constructed, assigned or destroyed, no block is allocated or
    released, and a second [Swap] restores the state of the start. *)
Theorem Vector_Swap_exchanges this other a b xs ys s :
  this ≠ other →
  objs s !! this = Some a → objs s !! other = Some b →
  owns s a xs → owns s b ys →
  ∃ s', Vector_Swap this other s = Done tt s' ∧
        objs s' !! this = Some b ∧ objs s' !! other = Some a ∧
        owns s' b ys ∧ owns s' a xs ∧
        heap s' = heap s ∧ log s' = log s ∧
        (∀ o, o ≠ this → o ≠ other → objs s' !! o = objs s !! o) ∧
        Vector_Swap this other s' = Done tt s.
Proof.
  intros Hne Ha Hb Hxs Hys. eexists.
  split; [by apply Vector_Swap_spec|]. simpl.
  assert (<[other:=a]> (<[this:=b]> (objs s)) !! this = Some b) as Ht
    by (by rewrite lookup_insert_ne, lookup_insert_eq).
  assert (<[other:=a]> (<[this:=b]> (objs s)) !! other = Some a) as Ho
    by apply lookup_insert_eq.
  split; [done|]. split; [done|]. split; [done|]. split; [done|].
  split; [done|]. split; [done|]. split.
  - intros o H1 H2. by rewrite !lookup_insert_ne.
  - rewrite (Vector_Swap_spec this other b a) by done. f_equal.
    apply state_eq; simpl; [|done..]. by apply swap_back.
Qed.

(** X6. [operator=(Vector&&)] is a [Swap]: the destination takes over the
    elements of the source, and the elements the destination held are not
    destroyed but handed to the source, with their block. Moving a vector
    onto itself changes nothing. *)
Theorem Vector_move_assign_hands_over this rhs v r xs ys s :
  objs s !! this = Some v → objs s !! rhs = Some r →
  owns s v xs → owns s r ys →
  (this ≠ rhs →
     ∃ s', Vector_move_assign this rhs s = Done tt s' ∧
           objs s' !! this = Some r ∧ owns s' r ys ∧
           objs s' !! rhs = Some v ∧ owns s' v xs ∧
           Size v = length xs ∧
           heap s' = heap s ∧ log s' = log s) ∧
  (this = rhs → Vector_move_assign this rhs s = Done tt s).
Proof.
  intros Hv Hr Hxs Hys. unfold Vector_move_assign.
  rewrite (Vector_Swap_spec this rhs v r s Hv Hr). split.
  - intros Hne. eexists. split; [done|]. simpl.
    split; [by rewrite lookup_insert_ne, lookup_insert_eq|]. split; [done|].
    split; [apply lookup_insert_eq|]. split; [done|].
    split; [by destruct Hxs as [-> _]|done].
  - intros ->. f_equal. apply state_eq; simpl; [|done..].
    assert (v = r) as -> by congruence.
    rewrite insert_insert_eq. by apply insert_id.
Qed.



(** X9. [Resize(n)] below the size keeps the first [n] elements and destroys
    the others, from the first of them to the last, in place; [Resize] to
    the current size does nothing; [Resize(0)] leaves an empty vector that
    keeps its capacity. *)
Theorem Resize_shrink_destroys_tail this n v xs s :
  objs s !! this = Some v → owns s v xs → n ≤ size_ v →
  ∃ s', Resize this n s = Done tt s' ∧
        objs s' !! this = Some (mkVector (data_ v) n) ∧
        owns s' (mkVector (data_ v) n) (take n xs) ∧
        log s' = log s ++ map EvDtor (drop n xs) ∧
        (n = size_ v → s' = s).
Proof.
  intros Hv Hown Hle. pose proof Hown as (Hlen & Hcap & _).
  destruct (decide (n = size_ v)) as [->|Hne].
  - exists s. split; [by apply Resize_same|].
    replace (mkVector (data_ v) (size_ v)) with v by (by destruct v).
    rewrite <- Hlen, take_ge, drop_ge, app_nil_r by lia. done.
  - eexists. split; [apply (Resize_shrink this n v xs); [done..|lia]|].
    split; [apply settle_objs|]. split; [|done].
    apply owns_settle; simpl; [rewrite length_take; lia|lia|].
    by apply (owns_raw_inv s v xs).
Qed.

(** X10. [PopBack] on a vector that holds [ys] followed by [x] destroys [x]
    and leaves [ys] in the same storage. On an empty vector the address
    [data_.GetAddress() + size_ - 1] lies in front of the block, and the
    call has no defined result. *)
Theorem PopBack_removes_last this v xs s :
  objs s !! this = Some v → owns s v xs →
  (xs = [] → PopBack this s = Undefined) ∧
  (∀ ys x, xs = ys ++ [x] →
     ∃ s', PopBack this s = Done tt s' ∧
           objs s' !! this = Some (mkVector (data_ v) (size_ v - 1)) ∧
           owns s' (mkVector (data_ v) (size_ v - 1)) ys ∧
           log s' = log s ++ [EvDtor x]).
Proof.
  intros Hv Hown. split.
  - intros ->. destruct Hown as (Hlen & _). simpl in Hlen.
    unfold PopBack, bind, ptr_sub. rewrite (get_obj_spec _ _ _ Hv).
    vec_simpl. by rewrite decide_False by lia.
  - intros ys x ->. eexists. split; [by apply (PopBack_spec this v ys x)|].
    split; [apply settle_objs|]. split; [|done].
    pose proof Hown as (Hlen & Hcap & _). rewrite length_app in Hlen. simpl in Hlen.
    apply owns_settle; simpl; [lia|lia|by apply (owns_raw_inv s v (ys ++ [x]))].
Qed.


(** An append that succeeds, on either path. *)
Lemma append_ok this args x e v xs s :
  objs s !! this = Some v → owns s v xs →
  arg_result args = Some (x, e) → all_good reloc_fails xs = true →
  ∃ v' l old,
    append this args s = Done tt (settle this v' (xs ++ [x]) l old s) ∧
    size_ v' = size_ v + 1 ∧ size_ v' ≤ capacity_ (data_ v') ∧ raw_inv (data_ v') ∧
    capacity_ (data_ v) ≤ capacity_ (data_ v') ∧
    (size_ v < capacity_ (data_ v) → data_ v' = data_ v ∧ l = [e] ∧ old = None) ∧
    capacity_ (data_ v')
    = (if decide (size_ v = capacity_ (data_ v))
       then (if decide (size_ v = 0) then 1 else size_ v * 2)
       else capacity_ (data_ v)) ∧
    l = [e] ++ (if decide (size_ v = capacity_ (data_ v))
                then map reloc_event xs ++ map EvDtor (reloc_left <$> xs)
                else []).
Proof.
  intros Hv Hown Harg Hok. pose proof Hown as (Hlen & Hle & _).
  destruct (decide (size_ v = capacity_ (data_ v))) as [Hfull|Hroom].
  - pose proof (append_grow this args v xs s Hv Hown Hfull) as Hr.
    rewrite Harg, Hok in Hr. eexists _, _, _. split; [exact Hr|]. simpl.
    split; [done|]. split; [case_decide; lia|].
    split; [split; simpl; [done|case_decide; lia]|]. split; [case_decide; lia|].
    split; [lia|done].
  - pose proof (append_inplace this args v xs s Hv Hown ltac:(lia)) as Hr.
    rewrite Harg in Hr. eexists _, _, _. split; [exact Hr|]. simpl.
    split; [done|]. split; [lia|]. split; [by apply (owns_raw_inv s v xs)|].
    split; [done|done].
Qed.

(** X11. [PushBack(x)] followed by [PopBack()], when the copy of [x] and the
    relocation do not throw: the vector holds the elements and has the size
    it had before, and the copy of [x] is the one object destroyed last.
    The capacity is not given back: it is the one [PushBack] left, and the
    storage is the one of the start when there was room for [x]. *)
Theorem PushBack_PopBack_roundtrip this v xs x s :
  objs s !! this = Some v → owns s v xs →
  copy_throws x = false → all_good reloc_fails xs = true →
  ∃ s1 s2 v2 l,
    PushBack this x s = Done tt s1 ∧ PopBack this s1 = Done tt s2 ∧
    objs s2 !! this = Some v2 ∧ owns s2 v2 xs ∧ Size v2 = Size v ∧
    Capacity v ≤ Capacity v2 ∧
    (Size v < Capacity v → data_ v2 = data_ v) ∧
    log s2 = log s ++ l ++ [EvDtor x].
Proof.
  intros Hv Hown Hx Hok.
  destruct (append_ok this (ConstLvalue x) x (EvCopyCtor x) v xs s Hv Hown)
    as (v1 & l & old & Happ & Hsz & Hcap & Hraw & Hmono & Hroom & _);
    [by simpl; rewrite Hx|done|].
  set (s1 := settle this v1 (xs ++ [x]) l old s) in *.
  pose proof Hown as (Hlen & Hle & _).
  assert (owns s1 v1 (xs ++ [x])) as Hown1
    by (apply owns_settle; [rewrite length_app; simpl; lia|done..]).
  pose proof (PopBack_spec this v1 xs x s1 (settle_objs _ _ _ _ _ _) Hown1) as Hpop.
  eexists s1, _, _, l. split; [by rewrite PushBack_append|]. split; [exact Hpop|].
  split; [apply settle_objs|].
  split; [apply owns_settle; simpl; [lia|lia|done]|].
  unfold Size, Capacity, RawMemory_Capacity. simpl.
  split; [lia|]. split; [done|]. split; [|by rewrite <- app_assoc].
  intros Hlt. by destruct (Hroom Hlt).
Qed.

(** X12. [EmplaceBack] returns a reference to the element it appended: the
    address of the cell behind the former last element, in the storage the
    vector has after the call, and that cell holds the new element. It is
    the address [operator[]] gives for the index [size - 1]. *)
Theorem EmplaceBack_returns_new_element this args x e v xs s :
  objs s !! this = Some v → owns s v xs →
  arg_result args = Some (x, e) → all_good reloc_fails xs = true →
  ∃ p s' v',
    EmplaceBack this args s = Done p s' ∧
    objs s' !! this = Some v' ∧ owns s' v' (xs ++ [x]) ∧
    p = begin_ v' +ₚ Size v ∧ load p s' = Done x s' ∧
    Vector_index v' (Size v' - 1) s' = Done p s'.
Proof.
  intros Hv Hown Harg Hok.
  destruct (append_ok this args x e v xs s Hv Hown Harg Hok)
    as (v1 & l & old & Happ & Hsz & Hcap & Hraw & _).
  set (s1 := settle this v1 (xs ++ [x]) l old s) in *.
  pose proof Hown as (Hlen & Hle & _).
  assert (owns s1 v1 (xs ++ [x])) as Hown1
    by (apply owns_settle; [rewrite length_app; simpl; lia|done..]).
  destruct (buffer_ (data_ v1)) as [b|] eqn:Hb; [|apply Hraw in Hb; lia].
  exists (Ptr (Some b) (size_ v1 - 1)), s1, v1.
  split.
  { rewrite <- Hb. apply EmplaceBack_from_append; [done|apply settle_objs|lia]. }
  split; [apply settle_objs|]. split; [done|].
  unfold begin_, Size, GetAddress, ptr_add, Vector_index, RawMemory_index. simpl.
  rewrite Hb. split; [f_equal; lia|]. split.
  - destruct (owns_Some _ _ _ _ Hown1 Hb) as (_ & _ & _ & Hcells).
    eapply load_at; [exact Hcells| |].
    + rewrite map_app, <- app_assoc. simpl. reflexivity.
    + rewrite length_map. lia.
  - rewrite !decide_True by lia. done.
Qed.

(** One append where there is room for it. *)
Lemma run_append_inplace this c x e v xs s :
  objs s !! this = Some v → owns s v xs →
  arg_result (call_arg c) = Some (x, e) → size_ v < capacity_ (data_ v) →
  run_append this c s
  = Done tt (settle this (mkVector (data_ v) (size_ v + 1)) (xs ++ [x]) [e] None s).
Proof.
  intros Hv Hown Harg Hroom. rewrite run_append_append.
  rewrite (append_inplace this (call_arg c) v xs s Hv Hown Hroom), Harg.
  rewrite settle_objs. destruct c; [done..|]. simpl. by rewrite decide_True by lia.
Qed.

Lemma run_appends_inplace cs : ∀ this v xs ys s,
  objs s !! this = Some v → owns s v xs →
  calls_construct cs ys → size_ v + length cs ≤ capacity_ (data_ v) →
  cs ≠ [] →
  ∃ l, length l = length cs ∧
       run_appends this cs s
       = Done tt (settle this (mkVector (data_ v) (size_ v + length cs)) (xs ++ ys) l None s).
Proof.
  induction cs as [|c cs IH]; intros this v xs ys s Hv Hown Hcs Hfit Hne; [done|].
  apply Forall2_cons_inv_l in Hcs as (x & ys' & [e Hx] & Hcs & ->).
  simpl in Hfit. pose proof Hown as (Hlen & Hle & _).
  pose proof (owns_raw_inv _ _ _ Hown) as Hraw.
  destruct (buffer_ (data_ v)) as [b|] eqn:Hb; [|apply Hraw in Hb; lia].
  pose proof (run_append_inplace this c x e v xs s Hv Hown Hx ltac:(lia)) as Hone.
  set (v1 := mkVector (data_ v) (size_ v + 1)) in *.
  set (s1 := settle this v1 (xs ++ [x]) [e] None s) in *.
  simpl. unfold bind. rewrite Hone.
  destruct cs as [|c' cs'].
  - apply Forall2_nil_inv_l in Hcs as ->. exists [e]. split; [done|]. simpl. done.
  - assert (owns s1 v1 (xs ++ [x])) as Hown1
      by (apply owns_settle; [rewrite length_app; simpl; lia|simpl; lia|done]).
    destruct (IH this v1 (xs ++ [x]) ys' s1 (settle_objs _ _ _ _ _ _) Hown1 Hcs
                ltac:(simpl in *; lia) ltac:(done)) as (l & Hl & Hrun).
    exists (e :: l). split; [simpl; by rewrite Hl|]. rewrite Hrun. f_equal.
    unfold s1. rewrite (settle_settle _ _ _ _ _ _ _ _ _ b) by done.
    replace (mkVector (data_ v1) (size_ v1 + length (c' :: cs')))
      with (mkVector (data_ v) (size_ v + length (c :: c' :: cs')))
      by (unfold v1; simpl; f_equal; lia).
    by rewrite <- app_assoc.
Qed.



(** The state an append that fails leaves: when the constructor of the new
    element throws, and when the relocation by copy construction throws. *)
Lemma append_throw this args v xs s :
  objs s !! this = Some v → owns s v xs →
  match arg_result args with
  | None => ∃ s', append this args s = Throw s' ∧ s' = s
  | Some (x, e) =>
      size_ v = capacity_ (data_ v) → move_if_noexcept_policy = false →
      all_good copy_throws xs = false →
      append this args s
      = Throw (add_log ([e] ++ map EvCopyCtor (good_prefix copy_throws xs)
                            ++ map EvDtor (good_prefix copy_throws xs)) s)
  end.
Proof.
  intros Hv Hown. pose proof Hown as (Hlen0 & Hle0 & _).
  destruct (decide (size_ v = capacity_ (data_ v))) as [Hfull|Hroom]; cycle 1.
  { pose proof (append_inplace this args v xs s Hv Hown ltac:(lia)) as Hr.
    destruct (arg_result args) as [[x e]|]; [done|]. by exists s. }
  unfold append.
  pose proof (fresh_heap s) as Hfresh. set (b := fresh (dom (heap s))) in *.
  destruct v as [[[a|] c] sz]; vec_simpl.
  - destruct (owns_Some _ _ _ _ Hown eq_refl) as (Hlen & Hle & Hc & Ha); vec_simpl.
    subst sz c. assert (a ≠ b) as Hab by congruence.
    rewrite Nat.sub_diag in Ha. simpl in Ha.
    set (s1 := upd b (replicate (length xs * 2) None) [] s).
    assert (construct_at (Ptr (Some b) (0 + length xs)) args s1
            = match arg_result args with
              | Some (x, e) =>
                  Done tt (upd b (replicate (length xs) None ++ Some x
                                    :: replicate ((length xs * 2) - length xs - 1) None) [e] s1)
              | None => Throw s1
              end) as Hcons.
    { apply (construct_at_spec s1 b (replicate (length xs * 2) None) _ _ None);
        [apply heap_upd_eq| |by rewrite length_replicate].
      change (None :: ?l) with (replicate 1 (@None T) ++ l).
      rewrite <- !replicate_add. f_equal. lia. }
    destruct (arg_result args) as [[x e]|].
    + intros _ Hpol Hbad.
      munfold. do 3 mstep. rewrite RawMemory_ctor_spec by lia. fold b s1. mred. vec_simpl.
      rewrite Hcons. mred. rewrite Hpol.
      rewrite (uninitialized_copy_n_spec _ a b xs [] [] []
                 (replicate (length xs) None)
                 (Some x :: replicate ((length xs * 2) - length xs - 1) None) 0 0);
        [|done|rewrite heap_upd_ne by done; unfold s1; by rewrite heap_upd_ne|by rewrite heap_upd_eq
         |by rewrite length_replicate|done..].
      cbv zeta. rewrite Hbad. mred. mstep.
      f_equal. apply state_eq; simpl; [done|heap_eq|by list_norm].
    + exists s.
      munfold. do 3 mstep. rewrite RawMemory_ctor_spec by lia. fold b s1. mred. vec_simpl.
      rewrite Hcons. mred. erewrite Deallocate_spec by apply heap_upd_eq.
      split; [|done]. f_equal. apply state_eq; simpl; [done|heap_eq|by list_norm].
  - destruct (owns_None _ _ _ Hown eq_refl) as (Hxs & Hsz & Hc); vec_simpl; subst.
    simpl. destruct (arg_result args) as [[x e]|] eqn:Harg; [done|].
    exists s. munfold. do 3 mstep. rewrite RawMemory_ctor_spec by lia. fold b. mred.
    vec_simpl.
    erewrite (construct_at_spec _ b _ [] [] None); [|apply heap_upd_eq|done..].
    rewrite Harg. mred. erewrite Deallocate_spec by apply heap_upd_eq.
    split; [|done]. f_equal. apply state_eq; simpl; [done|heap_eq|by list_norm].
Qed.

(** X14. [PushBack(const T&)] that fails. When the copy of the argument
    throws, with or without reallocation, the exception leaves the state of
    the call. When the vector is full, its elements are relocated by copy
    construction and one of these copies throws, the exception leaves the
    object store and the heap of the call: the copies made are destroyed
    and the new block is released. The copy of the argument, constructed in
    the new block before the relocation, is not destroyed: its constructor
    is in the log and its destructor is not. *)
Theorem PushBack_throw_keeps_vector this x v xs s :
  objs s !! this = Some v → owns s v xs →
  (copy_throws x = true → PushBack this x s = Throw s) ∧
  (copy_throws x = false → size_ v = capacity_ (data_ v) →
   move_if_noexcept_policy = false → all_good copy_throws xs = false →
   ∃ s', PushBack this x s = Throw s' ∧
         objs s' = objs s ∧ heap s' = heap s ∧
         log s' = log s ++ [EvCopyCtor x]
                    ++ map EvCopyCtor (good_prefix copy_throws xs)
                    ++ map EvDtor (good_prefix copy_throws xs)).
Proof.
  intros Hv Hown. rewrite PushBack_append.
  pose proof (append_throw this (ConstLvalue x) v xs s Hv Hown) as Hr. simpl in Hr.
  split; intros Hx; rewrite Hx in Hr.
  - by destruct Hr as (s' & -> & ->).
  - intros Hfull Hpol Hbad. eexists. split; [by apply Hr|]. done.
Qed.


(** X15. Element access. For an index below the size, [operator[]] gives the
    address [begin() + index], and the cell there holds the element of that
    index; for an index from the size on, its assertion fails. The range
    from [begin()] to [end()] has as many cells as the vector has elements,
    and in a vector without storage both are the null pointer. *)
Theorem Vector_index_bounds v xs s i :
  owns s v xs →
  (i < Size v →
     ∃ x, xs !! i = Some x ∧
          Vector_index v i s = Done (begin_ v +ₚ i) s ∧
          load (begin_ v +ₚ i) s = Done x s) ∧
  (Size v ≤ i → Vector_index v i s = Undefined) ∧
  distance (begin_ v) (end_ v) s = Done (Size v) s ∧
  (buffer_ (data_ v) = None → begin_ v = Ptr None 0 ∧ end_ v = Ptr None 0).
Proof.
  intros Hown. pose proof Hown as (Hlen & Hle & _).
  unfold Size, Vector_index, RawMemory_index, begin_, end_, GetAddress, ptr_add, distance.
  simpl. split; [|split; [|split]].
  - intros Hi. destruct (lookup_lt_is_Some_2 xs i ltac:(lia)) as [x Hx].
    exists x. split; [done|]. rewrite !decide_True by lia. split; [done|].
    destruct (buffer_ (data_ v)) as [a|] eqn:Ha.
    + destruct (owns_Some _ _ _ _ Hown Ha) as (_ & _ & _ & Hcells).
      pose proof (take_drop_middle xs i x Hx) as Hsplit.
      eapply load_at; [exact Hcells| |].
      * rewrite <- Hsplit at 1. rewrite map_app, <- app_assoc. simpl. reflexivity.
      * rewrite length_map, length_take. lia.
    + destruct (owns_None _ _ _ Hown Ha) as (_ & Hz & _). lia.
  - intros Hi. by rewrite decide_False by lia.
  - rewrite decide_True by (split; [done|lia]). unfold ret. f_equal. lia.
  - intros Ha. destruct (owns_None _ _ _ Hown Ha) as (_ & -> & _). by rewrite Ha.
Qed.

(** X16. [Emplace] in front of an element, and [Emplace] at any position of
    a full vector, when nothing throws: the new element stands at the
    position asked for, the elements before it keep their order and those
    from the position on follow it. The call returns the address of the new
    element in the storage the vector has afterwards. A full vector moves to
    a new block of twice the capacity and releases the old one; a vector
    with room keeps its storage. *)
Theorem Emplace_inserts this args v l1 l2 x e s a :
  objs s !! this = Some v → owns s v (l1 ++ l2) → buffer_ (data_ v) = Some a →
  arg_result args = Some (x, e) →
  (size_ v = capacity_ (data_ v) → all_good reloc_fails (l1 ++ l2) = true →
     ∃ p s' v', Emplace this (begin_ v +ₚ length l1) args s = Done p s' ∧
                objs s' !! this = Some v' ∧ owns s' v' (l1 ++ x :: l2) ∧
                p = begin_ v' +ₚ length l1 ∧ load p s' = Done x s' ∧
                Size v' = Size v + 1 ∧ Capacity v' = 2 * Capacity v ∧
                heap s !! fresh (dom (heap s)) = None ∧
                buffer_ (data_ v') = Some (fresh (dom (heap s))) ∧
                heap s' !! a = None) ∧
  (size_ v < capacity_ (data_ v) →
   ∀ l2' z, l2 = l2' ++ [z] → move_fails z = false →
     all_good move_assign_throws l2' = true → move_assign_throws x = false →
     ∃ s', Emplace this (begin_ v +ₚ length l1) args s
           = Done (begin_ v +ₚ length l1) s' ∧
           objs s' !! this = Some (mkVector (data_ v) (size_ v + 1)) ∧
           owns s' (mkVector (data_ v) (size_ v + 1)) (l1 ++ x :: l2) ∧
           load (begin_ v +ₚ length l1) s' = Done x s' ∧
           log s' = log s ++ [e; EvMoveCtor z] ++ map EvMoveAssign (reverse l2')
                      ++ [EvMoveAssign x; EvDtor (moved_from x)]).
Proof.
  intros Hv Hown Hbuf Harg. pose proof Hown as (Hlen & Hle & _).
  rewrite length_app in Hlen.
  pose proof (owns_raw_inv _ _ _ Hown) as Hraw.
  assert (capacity_ (data_ v) ≠ 0) as Hcz
    by (intros Hc; apply Hraw in Hc; congruence).
  assert (begin_ v +ₚ length l1 = Ptr (Some a) (length l1)) as ->
    by (unfold begin_, GetAddress, ptr_add; simpl; by rewrite Hbuf).
  assert (Hload : ∀ v' l old b,
            buffer_ (data_ v') = Some b → size_ v' = size_ v + 1 →
            size_ v' ≤ capacity_ (data_ v') →
            load (Ptr (Some b) (length l1)) (settle this v' (l1 ++ x :: l2) l old s)
            = Done x (settle this v' (l1 ++ x :: l2) l old s)).
  { intros v' l old b Hb Hsz Hcap.
    eapply load_at; [by apply settle_heap| |].
    - rewrite map_app, <- app_assoc. simpl. reflexivity.
    - by rewrite length_map. }
  split.
  - intros Hfull Hok.
    pose proof (Emplace_grow this args v l1 l2 s a Hv Hown Hbuf Hfull) as Hr.
    rewrite Harg, Hok in Hr. eexists _, _, _. split; [exact Hr|].
    split; [apply settle_objs|]. split.
    { apply owns_settle; simpl; [rewrite length_app; simpl; lia|lia|].
      split; simpl; [done|lia]. }
    split; [done|]. split; [apply Hload; simpl; [done|done|lia]|].
    unfold Size, Capacity, RawMemory_Capacity. simpl.
    split; [done|]. split; [lia|]. split; [apply fresh_heap|]. split; [done|].
    rewrite lookup_insert_ne; [apply lookup_delete_eq|].
    intros <-. destruct (owns_Some _ _ _ _ Hown Hbuf) as (_ & _ & _ & Hcells).
    by rewrite fresh_heap in Hcells.
  - intros Hroom l2' z -> Hz Hl2 Hx.
    pose proof (Emplace_inplace this args v l1 l2' z s a Hv Hown Hbuf Hroom) as Hr.
    rewrite Harg, Hz, Hl2, Hx in Hr. simpl in Hr.
    rewrite length_app in Hlen. simpl in Hlen.
    eexists. split; [exact Hr|]. split; [apply settle_objs|]. split.
    { apply owns_settle; simpl; [|lia|done].
      rewrite length_app. simpl. rewrite length_app. simpl. lia. }
    split; [apply Hload; simpl; [done|done|lia]|done].
Qed.

(** X17. [Emplace] on an empty vector does not look at its position: for any
    pointer [pos] it behaves as [EmplaceBack], the vector then holds the one
    new element, and the call returns its address, [begin()]. The arguments
    are passed on with [std::move]: an lvalue argument is move-constructed
    from, where [Emplace] on a vector with elements copies it. *)
Theorem Emplace_on_empty_ignores_pos this pos args x e v s :
  objs s !! this = Some v → owns s v [] →
  arg_result (std_move args) = Some (x, e) →
  ∃ s' v', Emplace this pos args s = Done (begin_ v') s' ∧
           objs s' !! this = Some v' ∧ owns s' v' [x] ∧
           Size v' = 1 ∧ Capacity v' = Capacity v `max` 1 ∧
           log s' = log s ++ [e] ∧
           load (begin_ v') s' = Done x s' ∧
           (∀ y, args = Lvalue y → move_fails y = false ∧ e = EvMoveCtor y).
Proof.
  intros Hv Hown Harg. pose proof Hown as (Hlen & Hle & _). simpl in Hlen.
  destruct (append_ok this (std_move args) x e v [] s Hv Hown Harg eq_refl)
    as (v1 & l & old & Happ & Hsz & Hcap & Hraw & Hmono & Hroom & Hcapv & Hl).
  set (s1 := settle this v1 [x] l old s) in *.
  assert (owns s1 v1 [x]) as Hown1 by (apply owns_settle; [simpl; lia|done..]).
  destruct (buffer_ (data_ v1)) as [b|] eqn:Hb; [|apply Hraw in Hb; lia].
  exists s1, v1. split.
  { rewrite (Emplace_empty this pos args v s Hv ltac:(lia)), Happ.
    unfold s1 at 1. rewrite settle_objs. rewrite decide_True by lia.
    unfold begin_, GetAddress. rewrite Hb. do 2 f_equal. lia. }
  split; [apply settle_objs|]. split; [done|].
  unfold Size, Capacity, RawMemory_Capacity.
  split; [lia|]. split.
  { rewrite Hcapv. repeat case_decide; lia. }
  split.
  { unfold s1. rewrite settle_log, Hl. by case_decide. }
  split.
  { unfold begin_, GetAddress. rewrite Hb.
    destruct (owns_Some _ _ _ _ Hown1 Hb) as (_ & _ & _ & Hcells).
    eapply (load_at _ _ _ []); [exact Hcells|simpl; reflexivity|done]. }
  intros y ->. simpl in Harg. destruct (move_fails y); [done|].
  by injection Harg as _ <-.
Qed.

Lemma Erase_end this v s :
  objs s !! this = Some v → Erase this (end_ v) s = Undefined.
Proof.
  intros Hv. unfold Erase, distance, RawMemory_index, std_move_range, distance.
  munfold. rewrite (get_obj_spec _ _ _ Hv). mred. vec_simpl.
  rewrite decide_True by (split; [done|lia]). mred.
  case_decide; [|done]. mred. case_decide; [|done]. mred.
  rewrite decide_False; [done|]. simpl. lia.
Qed.

(** X18. [Erase] of an element that is not in the last cell of the block,
    when no move assignment throws: the elements behind it move one cell to
    the front, by move assignment from front to back, the object left in
    the last occupied cell is destroyed, and the call returns the position
    it was given, now that of the element that followed. The storage is
    kept. [Erase(end())] has no defined result. *)
Theorem Erase_removes this v l1 x l2 s a :
  objs s !! this = Some v → owns s v (l1 ++ x :: l2) → buffer_ (data_ v) = Some a →
  (length l1 + 1 < capacity_ (data_ v) → all_good move_assign_throws l2 = true →
     ∃ s', Erase this (begin_ v +ₚ length l1) s = Done (begin_ v +ₚ length l1) s' ∧
           objs s' !! this = Some (mkVector (data_ v) (size_ v - 1)) ∧
           owns s' (mkVector (data_ v) (size_ v - 1)) (l1 ++ l2) ∧
           log s' = log s ++ map EvMoveAssign l2 ++ [EvDtor (hole_left x l2)] ∧
           (l2 = [] → hole_left x l2 = x) ∧
           (∀ l2' z, l2 = l2' ++ [z] → hole_left x l2 = moved_from z)) ∧
  Erase this (end_ v) s = Undefined.
Proof.
  intros Hv Hown Hbuf. split; [|by apply Erase_end].
  intros Hcap Hok.
  assert (begin_ v +ₚ length l1 = Ptr (Some a) (length l1)) as ->
    by (unfold begin_, GetAddress, ptr_add; simpl; by rewrite Hbuf).
  pose proof (Erase_spec this v l1 x l2 s a Hv Hown Hbuf Hcap) as Hr.
  rewrite Hok in Hr. eexists. split; [exact Hr|].
  split; [apply settle_objs|].
  pose proof Hown as (Hlen & Hle & _). rewrite length_app in Hlen. simpl in Hlen.
  split.
  { apply owns_settle; simpl; [rewrite length_app; lia|lia|].
    by apply (owns_raw_inv s v (l1 ++ x :: l2)). }
  split; [done|]. split.
  - by intros ->.
  - intros l2' z ->. unfold hole_left. by rewrite last_snoc.
Qed.


Lemma effect_on_settle this v v' ys l old n s :
  size_ v' = n → capacity_ (data_ v) ≤ capacity_ (data_ v') →
  (capacity_ (data_ v') = capacity_ (data_ v) → data_ v' = data_ v) →
  (data_ v' = data_ v ∧ old = None) ∨ old = buffer_ (data_ v) →
  effect_on this v n s (settle this v' ys l old s).
Proof.
  intros Hn Hcap Hsame Hold. exists v'. split; [apply settle_objs|].
  repeat (split; [done|]). split; [intros o Ho; by apply settle_objs_ne|].
  intros a Ha. destruct (decide (buffer_ (data_ v') = Some a)) as [Hb|Hb]; [by left|].
  right. unfold settle in Ha; simpl in Ha.
  assert (is_Some (dealloc old (heap s) !! a)) as Hd.
  { destruct (buffer_ (data_ v')) as [b|]; [|done].
    rewrite lookup_insert_ne in Ha by congruence. done. }
  destruct Hold as [[Hdata ->]| ->].
  - simpl in Hd. split; [done|]. by rewrite Hdata.
  - destruct (buffer_ (data_ v)) as [a'|]; simpl in Hd; [|done].
    apply lookup_delete_is_Some in Hd as [Hne Hd]. split; [done|]. congruence.
Qed.

Lemma effect_on_same this v s :
  objs s !! this = Some v → effect_on this v (size_ v) s s.
Proof. intros Hv. exists v. repeat (split; [done|]). intros a Ha. right. by split. Qed.

Lemma Reserve_effect this n v s s' :
  store_inv s → objs s !! this = Some v → Reserve this n s = Done tt s' →
  effect_on this v (size_ v) s s'.
Proof.
  intros Hinv Hv Hrun. destruct (store_inv_owns _ _ _ Hinv Hv) as [xs Hown].
  destruct (decide (n ≤ capacity_ (data_ v))) as [Hle|Hgt].
  - rewrite (Reserve_noop _ _ _ _ Hv Hle) in Hrun. injection Hrun as <-.
    by apply effect_on_same.
  - pose proof (Reserve_grow this n v xs s Hv Hown ltac:(lia)) as Hr.
    destruct (all_good reloc_fails xs); [|destruct Hr as [? Hr]; congruence].
    rewrite Hr in Hrun. injection Hrun as <-.
    apply effect_on_settle; simpl; [done|lia|lia|by right].
Qed.

Lemma append_effect this args v s s' :
  store_inv s → objs s !! this = Some v → append this args s = Done tt s' →
  effect_on this v (size_ v + 1) s s'.
Proof.
  intros Hinv Hv Hrun. destruct (store_inv_owns _ _ _ Hinv Hv) as [xs Hown].
  pose proof Hown as (Hlen & Hle & _).
  destruct (decide (size_ v = capacity_ (data_ v))) as [Hfull|Hroom].
  - pose proof (append_grow this args v xs s Hv Hown Hfull) as Hr.
    destruct (arg_result args) as [[x e]|]; [|destruct Hr as [? Hr]; congruence].
    destruct (all_good reloc_fails xs); [|destruct Hr as [? Hr]; congruence].
    rewrite Hr in Hrun. injection Hrun as <-.
    apply effect_on_settle; simpl; [done|case_decide; lia|case_decide; lia|by right].
  - pose proof (append_inplace this args v xs s Hv Hown ltac:(lia)) as Hr.
    destruct (arg_result args) as [[x e]|]; [|congruence].
    rewrite Hr in Hrun. injection Hrun as <-.
    apply effect_on_settle; simpl; [done|done|done|by left].
Qed.

Lemma PopBack_effect this v s s' :
  store_inv s → objs s !! this = Some v → PopBack this s = Done tt s' →
  effect_on this v (size_ v - 1) s s'.
Proof.
  intros Hinv Hv Hrun. destruct (store_inv_owns _ _ _ Hinv Hv) as [xs Hown].
  destruct xs as [|x0 xs0 _] using rev_ind.
  - destruct Hown as (Hlen & _). simpl in Hlen.
    unfold PopBack, bind, ptr_sub in Hrun. rewrite (get_obj_spec _ _ _ Hv) in Hrun.
    vec_simpl. by rewrite decide_False in Hrun by lia.
  - rewrite (PopBack_spec _ _ _ _ _ Hv Hown) in Hrun. injection Hrun as <-.
    apply effect_on_settle; simpl; [done|done|done|by left].
Qed.

Lemma Resize_effect this n v s s' :
  store_inv s → objs s !! this = Some v → Resize this n s = Done tt s' →
  effect_on this v n s s'.
Proof.
  intros Hinv Hv Hrun. destruct (store_inv_owns _ _ _ Hinv Hv) as [xs Hown].
  destruct (lt_eq_lt_dec n (size_ v)) as [[Hlt| ->]|Hgt].
  - rewrite (Resize_shrink _ _ _ _ _ Hv Hown Hlt) in Hrun. injection Hrun as <-.
    apply effect_on_settle; simpl; [done|done|done|by left].
  - rewrite (Resize_same _ _ _ Hv) in Hrun. injection Hrun as <-.
    by apply effect_on_same.
  - pose proof (Resize_grow this n v xs s Hv Hown Hgt) as Hr.
    destruct default_ctor as [d|]; [|destruct Hr as [? Hr]; congruence].
    destruct (decide (n ≤ capacity_ (data_ v))).
    + rewrite Hr in Hrun. injection Hrun as <-. apply effect_on_settle; simpl; [done|done|done|by left].
    + destruct (all_good reloc_fails xs); [|destruct Hr as [? Hr]; congruence].
      rewrite Hr in Hrun. injection Hrun as <-.
      apply effect_on_settle; simpl; [done|lia|lia|by right].
Qed.

Lemma Erase_effect this pos v s r s' :
  store_inv s → objs s !! this = Some v → Erase this pos s = Done r s' →
  effect_on this v (size_ v - 1) s s'.
Proof.
  intros Hinv Hv Hrun. destruct (store_inv_owns _ _ _ Hinv Hv) as [xs Hown].
  pose proof (owns_raw_inv _ _ _ Hown) as Hraw.
  pose proof Hown as (Hlx & Hcx & _).
  destruct (Erase_Done_valid this pos v s r s' Hv Hrun) as (Hpos & Hi1 & Hi2).
  destruct (buffer_ (data_ v)) as [a|] eqn:Hbuf; [|apply Hraw in Hbuf; lia].
  assert (off pos < length xs) as Hi by lia.
  destruct (lookup_lt_is_Some_2 xs (off pos) Hi) as [x Hx].
  rewrite <- (take_drop_middle xs (off pos) x Hx) in Hown.
  pose proof (Erase_spec this v (take (off pos) xs) x (drop (S (off pos)) xs) s a
                Hv Hown Hbuf) as He.
  rewrite length_take, Nat.min_l in He by lia. specialize (He Hi1).
  rewrite Hpos in Hrun.
  destruct (all_good move_assign_throws (drop (S (off pos)) xs));
    [|destruct He as [? He]; congruence].
  rewrite He in Hrun. injection Hrun as _ <-.
  apply effect_on_settle; simpl; [done|done|done|by left].
Qed.

Lemma Emplace_effect this pos args v s r s' :
  store_inv s → objs s !! this = Some v → valid_pos s this pos →
  Emplace this pos args s = Done r s' →
  effect_on this v (size_ v + 1) s s'.
Proof.
  intros Hinv Hv Hpos Hrun. destruct (Hpos v Hv) as [Hbase Hoff].
  destruct (store_inv_owns _ _ _ Hinv Hv) as [xs Hown].
  pose proof (owns_raw_inv _ _ _ Hown) as Hraw.
  pose proof Hown as (Hlx & Hcx & _).
  destruct (decide (size_ v = 0)) as [Hz|Hnz].
  { rewrite (Emplace_empty _ _ _ _ _ Hv Hz) in Hrun.
    destruct (append this (std_move args) s) as [[] s1| |] eqn:Happ; [|done..].
    apply (append_effect _ _ _ _ _ Hinv Hv) in Happ.
    destruct (objs s1 !! this); [|done]. case_decide; [|done]. by injection Hrun as _ <-. }
  destruct pos as [pb i]. simpl in Hbase, Hoff. subst pb.
  destruct (buffer_ (data_ v)) as [a|] eqn:Hbuf; [|apply Hraw in Hbuf; lia].
  destruct (decide (size_ v = capacity_ (data_ v))) as [Hfull|Hroom].
  - rewrite <- (take_drop i xs) in Hown.
    pose proof (Emplace_grow this args v (take i xs) (drop i xs) s a Hv Hown Hbuf Hfull)
      as He.
    rewrite length_take, Nat.min_l in He by lia.
    destruct (arg_result args) as [[x e]|]; [|destruct He as [? He]; congruence].
    destruct (all_good reloc_fails _); [|destruct He as [? He]; congruence].
    rewrite He in Hrun. injection Hrun as _ <-.
    apply effect_on_settle; simpl; [done|lia|lia|by right].
  - destruct (decide (i = size_ v)) as [->|Hmid].
    { by apply (Emplace_end_inplace this args v s a Hv Hbuf Hnz ltac:(lia)) in Hrun. }
    assert (∃ l2 z, drop i xs = l2 ++ [z]) as (l2 & z & Hd).
    { destruct (drop i xs) as [|y l _] eqn:Hdrop using rev_ind.
      - apply (f_equal length) in Hdrop. rewrite length_drop in Hdrop. simpl in Hdrop. lia.
      - by exists l, y. }
    rewrite <- (take_drop i xs), Hd in Hown.
    pose proof (Emplace_inplace this args v (take i xs) l2 z s a Hv Hown Hbuf ltac:(lia))
      as He.
    rewrite length_take, Nat.min_l in He by lia.
    destruct (arg_result args) as [[x e]|]; [|congruence].
    destruct (_ && _); [|destruct He as [? He]; congruence].
    rewrite He in Hrun. injection Hrun as _ <-.
    apply effect_on_settle; simpl; [done|done|done|by left].
Qed.

Lemma mutators_effect o this v s s' :
  store_inv s → op_pre s o → op_target o = Some this → objs s !! this = Some v →
  run_op o s = Done tt s' →
  effect_on this v (size_after o (size_ v)) s s'.
Proof.
  intros Hinv Hpre Ht Hv Hrun.
  destruct o; simpl in Ht; try discriminate Ht; injection Ht as ->;
    simpl in Hpre, Hrun; simpl.
  - by eapply Reserve_effect.
  - by eapply Resize_effect.
  - by eapply append_effect.
  - by eapply append_effect.
  - apply discard_Done in Hrun as [r Hrun]. apply EmplaceBack_Done in Hrun.
    by eapply append_effect.
  - by eapply PopBack_effect.
  - apply discard_Done in Hrun as [r Hrun]. by eapply Emplace_effect.
  - apply discard_Done in Hrun as [r Hrun]. by eapply Emplace_effect.
  - apply discard_Done in Hrun as [r Hrun]. by eapply Emplace_effect.
  - apply discard_Done in Hrun as [r Hrun]. by eapply Erase_effect.
Qed.

(** X19. The member functions that change a vector in place never give
    capacity back and touch no other object. On every normal return of
    [Reserve], [Resize], [PushBack], [EmplaceBack], [PopBack], [Emplace],
    [Insert] and [Erase], the capacity is at least what it was; when it is
    what it was, the vector is in the storage it had; and the size is the
    one the call asks for: unchanged by [Reserve], the new size for
    [Resize], one more for an insertion and one less for a removal. *)
Theorem mutators_never_shrink_capacity o this v s s' :
  store_inv s → op_pre s o → op_target o = Some this → objs s !! this = Some v →
  run_op o s = Done tt s' →
  ∃ v', objs s' !! this = Some v' ∧
        Size v' = size_after o (Size v) ∧
        Capacity v ≤ Capacity v' ∧
        (Capacity v' = Capacity v → data_ v' = data_ v) ∧
        (∀ o', o' ≠ this → objs s' !! o' = objs s !! o').
Proof.
  intros Hinv Hpre Ht Hv Hrun.
  destruct (mutators_effect o this v s s' Hinv Hpre Ht Hv Hrun)
    as (v' & Hv' & Hsz & Hcap & Hsame & Hframe & _).
  exists v'. unfold Size, Capacity, RawMemory_Capacity. by repeat split.
Qed.

(** X20. Copy assignment from a source with more elements than the
    destination has capacity gives the strong guarantee: the copy is built
    in a temporary vector first, so when the copy of an element throws, the
    copies made are destroyed, the block of the temporary is released, and
    the destination, the source and the heap are those of the call. *)
Theorem Vector_copy_assign_realloc_strong this rhs v r xs ys s :
  this ≠ rhs → objs s !! this = Some v → objs s !! rhs = Some r →
  owns s v xs → owns s r ys → capacity_ (data_ v) < size_ r →
  all_good copy_throws ys = false →
  ∃ s', Vector_copy_assign this rhs s = Throw s' ∧
        objs s' = objs s ∧ heap s' = heap s ∧
        owns s' v xs ∧ owns s' r ys ∧
        log s' = log s ++ map EvCopyCtor (good_prefix copy_throws ys)
                       ++ map EvDtor (good_prefix copy_throws ys).
Proof.
  intros Hne Hv Hr Hxs Hys Hbig Hbad.
  pose proof (Vector_copy_assign_realloc this rhs v r xs ys s Hne Hv Hr Hxs Hys Hbig) as Hc.
  rewrite Hbad in Hc. eexists. split; [exact Hc|].
  split; [done|]. split; [done|]. split; [exact Hxs|]. split; [exact Hys|done].
Qed.



Lemma blocks_owned_effect this v n s s' :
  blocks_owned s → objs s !! this = Some v → effect_on this v n s s' →
  blocks_owned s'.
Proof.
  intros Hown Hv (v' & Hv' & _ & _ & _ & Hframe & Hheap) a Ha.
  destruct (Hheap a Ha) as [Hb|[Hs Hkeep]]; [by exists this, v'|].
  destruct (Hown a Hs) as (o & w & Hw & Hwa).
  destruct (decide (o = this)) as [->|Hne].
  - exists this, v'. split; [done|]. apply Hkeep. congruence.
  - exists o, w. by rewrite Hframe.
Qed.

Lemma blocks_owned_settle_new this v' ys l s :
  blocks_owned s → objs s !! this = None →
  blocks_owned (settle this v' ys l None s).
Proof.
  intros Hown Hthis a Ha.
  destruct (decide (buffer_ (data_ v') = Some a)) as [Hb|Hb].
  { exists this, v'. split; [apply settle_objs|done]. }
  rewrite settle_heap_ne in Ha by done.
  destruct (Hown a Ha) as (o & w & Hw & Hwa). exists o, w.
  rewrite settle_objs_ne by congruence. done.
Qed.

Lemma Vector_copy_assign_effect this rhs v r s s' :
  store_inv s → objs s !! this = Some v → objs s !! rhs = Some r →
  Vector_copy_assign this rhs s = Done tt s' →
  effect_on this v (size_ r) s s'.
Proof.
  intros Hinv Hv Hr Hrun. destruct (decide (this = rhs)) as [->|Hne].
  { rewrite Vector_copy_assign_self in Hrun. injection Hrun as <-.
    replace r with v by congruence. by apply effect_on_same. }
  destruct (store_inv_owns _ _ _ Hinv Hv) as [xs Hxs].
  destruct (store_inv_owns _ _ _ Hinv Hr) as [ys Hys].
  assert (Hdisj : ∀ a, buffer_ (data_ v) = Some a → buffer_ (data_ r) ≠ Some a).
  { intros a Ha Hb. destruct Hinv as [_ Hdis]. by apply Hne, (Hdis this rhs v r a). }
  assert (length xs = size_ v ∧ size_ v ≤ capacity_ (data_ v)) as [Hlx Hcx]
    by (by destruct Hxs as (? & ? & _)).
  assert (length ys = size_ r) as Hly by (by destruct Hys).
  destruct (decide (capacity_ (data_ v) < size_ r)) as [Hbig|Hfit].
  - rewrite (Vector_copy_assign_realloc _ _ _ _ _ _ _ Hne Hv Hr Hxs Hys Hbig) in Hrun.
    destruct (all_good copy_throws ys); [|done]. injection Hrun as <-.
    apply effect_on_settle; simpl; [done|lia|lia|by right].
  - destruct (decide (size_ v ≤ size_ r)) as [Hext|Hshr].
    + rewrite <- (take_drop (length xs) ys) in Hys.
      pose proof (Vector_copy_assign_extend this rhs v r xs _ _ s Hne Hv Hr Hxs Hys
                    ltac:(rewrite length_take; lia) Hdisj ltac:(lia)) as Hc.
      destruct (_ && _); [|destruct Hc as (? & Hc & _); congruence].
      rewrite Hc in Hrun. injection Hrun as <-.
      apply effect_on_settle; simpl; [done|done|done|by left].
    + rewrite <- (take_drop (length ys) xs) in Hxs.
      pose proof (Vector_copy_assign_shrink this rhs v r _ _ ys s Hne Hv Hr Hxs Hys
                    ltac:(rewrite length_take; lia) Hdisj ltac:(lia)) as Hc.
      destruct (all_good copy_assign_throws ys); [|destruct Hc as (? & Hc & _); congruence].
      rewrite Hc in Hrun. injection Hrun as <-.
      apply effect_on_settle; simpl; [done|done|done|by left].
Qed.

Lemma swap_owned this other s s' :
  blocks_owned s → Vector_Swap this other s = Done tt s' → blocks_owned s'.
Proof.
  intros Hown Hrun. destruct (objs s !! this) as [a|] eqn:Ha;
    [|unfold Vector_Swap in Hrun; by rewrite get_obj_None in Hrun].
  destruct (objs s !! other) as [b|] eqn:Hb; cycle 1.
  { unfold Vector_Swap, bind in Hrun. rewrite (get_obj_spec _ _ _ Ha) in Hrun.
    unfold get_obj in Hrun. by rewrite Hb in Hrun. }
  rewrite (Vector_Swap_spec _ _ _ _ _ Ha Hb) in Hrun. injection Hrun as <-.
  intros c Hc. destruct (Hown c Hc) as (k & u & Hu & Huc). simpl.
  destruct (decide (k = this)) as [->|Hk1].
  - exists other, u. split; [|done]. rewrite lookup_insert_eq. congruence.
  - destruct (decide (k = other)) as [->|Hk2].
    + exists this, u. split; [|done].
      rewrite lookup_insert_ne, lookup_insert_eq by congruence. congruence.
    + exists k, u. split; [|done]. by rewrite !lookup_insert_ne by congruence.
Qed.

(** X23. No operation that returns leaks a block. In a store where no two
    vectors share a block and every allocated block is the storage of some
    vector, every constructor, the destructor, both assignments, [Swap] and
    every member function that changes a vector in place leave, on a normal
    return, a store in which again every allocated block is the storage of
    some vector: a block whose vector left it has been released. *)
Theorem run_op_leaks_no_block o s s' :
  store_inv s → blocks_owned s → op_pre s o →
  run_op o s = Done tt s' → blocks_owned s'.
Proof.
  intros Hinv Hown Hpre Hrun.
  destruct (op_target o) as [this|] eqn:Ht.
  { destruct (objs s !! this) as [v|] eqn:Hv.
    - eapply (blocks_owned_effect this v); [done..|].
      by apply mutators_effect.
    - destruct o; simpl in Ht; try discriminate Ht; injection Ht as ->; simpl in Hrun;
        try (apply discard_Done in Hrun as [r Hrun]);
        try (apply EmplaceBack_Done in Hrun);
        unfold Reserve, Resize, PushBack, PushBack_rvalue, append, PopBack, Emplace,
          Insert, Insert_rvalue, Emplace, Erase in Hrun;
        by rewrite get_obj_None in Hrun. }
  destruct o; simpl in Ht; try discriminate Ht; simpl in Hpre, Hrun.
  - rewrite Vector_default_ctor_spec in Hrun by done. injection Hrun as <-.
    by apply blocks_owned_settle_new.
  - pose proof (Vector_sized_ctor_spec this size s Hpre) as Hr.
    destruct default_ctor as [d|].
    + rewrite Hr in Hrun. injection Hrun as <-. by apply blocks_owned_settle_new.
    + case_decide; [|congruence]. rewrite Hr in Hrun. injection Hrun as <-.
      by apply blocks_owned_settle_new.
  - destruct (objs s !! other) as [w|] eqn:Ho;
      [|unfold Vector_copy_ctor in Hrun; by rewrite get_obj_None in Hrun].
    destruct (store_inv_owns _ _ _ Hinv Ho) as [xs Hxs].
    rewrite (Vector_copy_ctor_spec _ _ _ _ _ Hpre Ho Hxs) in Hrun.
    destruct (all_good copy_throws xs); [|done]. injection Hrun as <-.
    by apply blocks_owned_settle_new.
  - destruct (objs s !! other) as [w|] eqn:Ho;
      [|unfold Vector_move_ctor in Hrun; by rewrite get_obj_None in Hrun].
    rewrite (Vector_move_ctor_spec _ _ _ _ Hpre Ho) in Hrun. injection Hrun as <-.
    assert (this ≠ other) as Hne by congruence.
    intros a Ha. destruct (Hown a Ha) as (k & u & Hu & Hua). simpl.
    destruct (decide (k = other)) as [->|Hk].
    + exists this, w. split; [|congruence].
      by rewrite lookup_insert_ne, lookup_insert_eq.
    + exists k, u. split; [|done].
      rewrite !lookup_insert_ne by congruence. done.
  - destruct (objs s !! this) as [v|] eqn:Hv;
      [|unfold Vector_dtor in Hrun; by rewrite get_obj_None in Hrun].
    destruct (store_inv_owns _ _ _ Hinv Hv) as [xs Hxs].
    rewrite (Vector_dtor_spec _ _ _ _ Hv Hxs) in Hrun. injection Hrun as <-.
    intros a Ha. simpl in Ha.
    assert (is_Some (heap s !! a) ∧ buffer_ (data_ v) ≠ Some a) as [Hs Hva].
    { destruct (buffer_ (data_ v)) as [b|]; simpl in Ha; [|done].
      apply lookup_delete_is_Some in Ha as [Hb Ha]. split; [done|congruence]. }
    destruct (Hown a Hs) as (k & u & Hu & Hua). exists k, u. simpl.
    split; [|done]. rewrite lookup_delete_ne; [done|]. intros <-. congruence.
  - destruct (decide (this = rhs)) as [->|Hne].
    { rewrite Vector_copy_assign_self in Hrun. by injection Hrun as <-. }
    destruct (objs s !! this) as [v|] eqn:Hv; cycle 1.
    { unfold Vector_copy_assign in Hrun. rewrite decide_True in Hrun by done.
      by rewrite get_obj_None in Hrun. }
    destruct (objs s !! rhs) as [r|] eqn:Hr; cycle 1.
    { unfold Vector_copy_assign in Hrun. rewrite decide_True in Hrun by done.
      unfold bind at 1 in Hrun. rewrite (get_obj_spec _ _ _ Hv) in Hrun.
      by rewrite get_obj_None in Hrun. }
    eapply (blocks_owned_effect this v); [done..|].
    by eapply Vector_copy_assign_effect.
  - by eapply swap_owned.
  - by eapply swap_owned.
Qed.



End Model.

(** * Examples

    The operations run on small stores. Object 0 is a vector over the block
    at address 0, object 1 one over the block at address 1. *)

Ltac by_running := vm_compute; reflexivity.

Ltac lookup_cases H :=
  cbn in H;
  repeat first
    [ apply lookup_insert_Some in H as [[<- <-]|[? H]]
    | apply lookup_singleton_Some in H as [<- <-] ].

Ltac owns_here :=
  split; [reflexivity|]; split; [simpl; lia|]; split; [done|reflexivity].

(** C1. In a vector of [assign_elem] that holds [1; 2] in a block of four
    cells, [Insert(begin(), 9)] takes the path without reallocation: it
    constructs cell 2 from the last element, and then the move assignment
    from the element 1 throws. The exception leaves the vector with size 2
    and cell 2 constructed: the cells from the size on are not all raw
    memory, so the invariant of the vector is broken. *)
Theorem Insert_throw_breaks_invariant :
  let v := mkVector (mkRaw (Some 0) 4) 2 in
  let s := mkState (T:=nat) {[0 := v]} {[0 := [Some 1; Some 2; None; None]]} [] in
  owns s v [1; 2] ∧
  ∃ s', Insert (E:=assign_elem) 0 (begin_ v) 9 s = Throw s' ∧
        objs s' !! 0 = Some v ∧
        heap s' !! 0 = Some [Some 1; Some 0; Some 2; None] ∧
        log s' = [EvCopyCtor 9; EvMoveCtor 2; EvDtor 9] ∧
        ¬ vector_inv s' v.
Proof.
  intros v s. split; [owns_here|].
  eexists. split; [by_running|]. split; [by_running|]. split; [by_running|].
  split; [by_running|].
  intros (xs & Hlen & _ & _ & Hcells).
  destruct xs as [|x1 [|x2 [|x3 xs]]]; try discriminate Hlen.
  vm_compute in Hcells. discriminate Hcells.
Qed.






(** Move construction of object 1 from object 0, which holds [1; 7] in a
    block of four cells. *)
Lemma Vector_move_ctor_transfers_witness :
  let v := mkVector (mkRaw (Some 0) 4) 2 in
  let s := mkState (T:=nat) {[0 := v]} {[0 := [Some 1; Some 7; None; None]]} [] in
  ∃ s', Vector_move_ctor 1 0 s = Done tt s' ∧
        objs s' !! 1 = Some v ∧ owns s' v [1; 7] ∧
        (∃ w, objs s' !! 0 = Some w ∧ Size w = 0 ∧ Capacity w = 0 ∧
              buffer_ (data_ w) = None) ∧
        heap s' = heap s ∧ log s' = log s.
Proof.
  intros v s.
  apply (Vector_move_ctor_transfers 1 0 v [1; 7] s);
    [reflexivity|reflexivity|owns_here].
Defined.

(** Five appends to a default-constructed vector: size 5, capacity 8. *)
Lemma append_sequence_capacity_witness :
  let cs := [CallPushBack 10; CallPushBackRvalue 11; CallEmplaceBack (Pack (Some 12));
             CallPushBack 13; CallEmplaceBack (Lvalue 14)] in
  ∃ s' v, bind (Vector_default_ctor 0) (λ _, run_appends (E:=tracked_elem) 0 cs)
            (mkState ∅ ∅ []) = Done tt s' ∧
          objs s' !! 0 = Some v ∧ owns s' v [10; 11; 12; 13; 14] ∧
          Size v = 5 ∧ Capacity v = 8.
Proof.
  intros cs.
  destruct (append_sequence_capacity (E:=tracked_elem) 0 cs [10; 11; 12; 13; 14]
              (mkState ∅ ∅ [])) as [H _];
    [reflexivity|repeat (constructor; [eexists; reflexivity|]); constructor|reflexivity|].
  exact H.
Defined.

(** Copy assignment of object 0, which holds [1; 7], to object 1, which
    holds [5] in a block of four cells. *)
Lemma Vector_copy_assign_copies_witness :
  let r := mkVector (mkRaw (Some 0) 2) 2 in
  let v := mkVector (mkRaw (Some 1) 4) 1 in
  let s := mkState (T:=nat) {[0 := r; 1 := v]}
             {[0 := [Some 1; Some 7]; 1 := [Some 5; None; None; None]]} [] in
  ∃ s' v', Vector_copy_assign (E:=tracked_elem) 1 0 s = Done tt s' ∧
           objs s' !! 1 = Some v' ∧ Size v' = 2 ∧
           owns s' v' [1; 7] ∧
           objs s' !! 0 = Some r ∧ owns s' r [1; 7] ∧
           log s' = [EvCopyAssign 1; EvCopyCtor 7].
Proof.
  intros r v s.
  destruct (Vector_copy_assign_copies (E:=tracked_elem) 1 0 v r [5] [1; 7] s)
    as [Hdone _].
  - split.
    + intros o w Hw. lookup_cases Hw; [exists [1; 7]|exists [5]]; owns_here.
    + intros o1 o2 v1 v2 a H1 H2 Ha1 Ha2.
      lookup_cases H1; lookup_cases H2; unfold r, v in *; simpl in *; congruence.
  - done.
  - reflexivity.
  - reflexivity.
  - owns_here.
  - owns_here.
  - destruct Hdone as (s' & v' & H1 & H2 & H3 & H4 & H5 & H6 & H7 & _);
      [reflexivity|reflexivity|].
    exists s', v'. split; [exact H1|]. split; [exact H2|]. split; [exact H3|].
    split; [exact H4|]. split; [exact H5|]. split; [exact H6|exact H7].
Defined.

(** C8. In a vector of [tracked_elem] that holds [1] in a block of two
    cells, [Insert(end(), 9)] takes the path without reallocation, where
    [std::move_backward] is called on the range from [end()] to [end() - 1],
    which is not a range: the call has no defined result. In a vector that
    holds [1; 7] in a block of two cells, [Erase] of the last element forms
    [data_[2]], which the assertion of [RawMemory::operator[]] rejects. The
    same assertion rejects [Erase(begin())] right after [Insert(begin(), 9)]
    into a default-constructed vector, whose capacity is then 1. *)
Theorem Insert_end_then_Erase_undefined :
  let v1 := mkVector (mkRaw (Some 0) 2) 1 in
  let s1 := mkState (T:=nat) {[0 := v1]} {[0 := [Some 1; None]]} [] in
  let v2 := mkVector (mkRaw (Some 0) 2) 2 in
  let s2 := mkState (T:=nat) {[0 := v2]} {[0 := [Some 1; Some 7]]} [] in
  let s3 := mkState (T:=nat) {[0 := mkVector RawMemory_default 0]} ∅ [] in
  (owns s1 v1 [1] ∧
   Insert (E:=tracked_elem) 0 (end_ v1) 9 s1 = Undefined) ∧
  (owns s2 v2 [1; 7] ∧
   Erase (E:=tracked_elem) 0 (begin_ v2 +ₚ 1) s2 = Undefined) ∧
  (∃ s', Insert (E:=tracked_elem) 0 (Ptr None 0) 9 s3 = Done (Ptr (Some 0) 0) s' ∧
         objs s' !! 0 = Some (mkVector (mkRaw (Some 0) 1) 1) ∧
         heap s' !! 0 = Some [Some 9] ∧
         Erase (E:=tracked_elem) 0 (Ptr (Some 0) 0) s' = Undefined).
Proof.
  intros v1 s1 v2 s2 s3.
  split; [split; [owns_here|by_running]|].
  split; [split; [owns_here|by_running]|].
  eexists. split; [by_running|]. split; [by_running|]. split; by_running.
Qed.


(** ** Examples for the further properties *)

Ltac store_inv_one xs :=
  split;
  [ intros o w Hw; lookup_cases Hw; exists xs; owns_here
  | intros o1 o2 w1 w2 a H1 H2 _ _; lookup_cases H1; lookup_cases H2; reflexivity ].


(** A copy of a vector that holds [1; 7] in a block of four cells has
    capacity 2. *)
Lemma Vector_copy_ctor_deep_copy_witness :
  let o := mkVector (mkRaw (Some 0) 4) 2 in
  let s := mkState (T:=nat) {[0 := o]} {[0 := [Some 1; Some 7; None; None]]} [] in
  ∃ s' v, Vector_copy_ctor (E:=tracked_elem) 1 0 s = Done tt s' ∧
          objs s' !! 1 = Some v ∧ owns s' v [1; 7] ∧ Capacity v = 2 ∧
          objs s' !! 0 = Some o ∧ owns s' o [1; 7].
Proof.
  intros o s.
  destruct (Vector_copy_ctor_deep_copy (E:=tracked_elem) 1 0 o [1; 7] s)
    as (Hok & _); [reflexivity|reflexivity|owns_here|].
  destruct (Hok eq_refl) as (s' & v & H1 & H2 & H3 & _ & H5 & _ & _ & H8 & H9).
  exists s', v.
  split; [exact H1|]. split; [exact H2|]. split; [exact H3|]. split; [exact H5|].
  split; [exact H8|]. exact H9.
Defined.

Lemma Vector_dtor_releases_witness :
  let v := mkVector (mkRaw (Some 0) 4) 2 in
  let s := mkState (T:=nat) {[0 := v]} {[0 := [Some 1; Some 7; None; None]]} [] in
  ∃ s', Vector_dtor 0 s = Done tt s' ∧ objs s' !! 0 = None ∧
        log s' = [EvDtor 1; EvDtor 7] ∧ heap s' !! 0 = None.
Proof.
  intros v s.
  destruct (Vector_dtor_releases 0 v [1; 7] s) as (s' & H1 & H2 & H3 & H4 & _);
    [reflexivity|owns_here|].
  exists s'. split; [done|]. split; [done|]. split; [done|]. by apply H4.
Defined.

Lemma Vector_copy_then_destroy_witness :
  let o := mkVector (mkRaw (Some 0) 4) 2 in
  let s := mkState (T:=nat) {[0 := o]} {[0 := [Some 1; Some 7; None; None]]} [] in
  ∃ s', bind (Vector_copy_ctor (E:=tracked_elem) 1 0) (λ _, Vector_dtor 1) s = Done tt s' ∧
        objs s' = objs s ∧ heap s' = heap s ∧
        log s' = [EvCopyCtor 1; EvCopyCtor 7; EvDtor 1; EvDtor 7].
Proof.
  intros o s.
  apply (Vector_copy_then_destroy (E:=tracked_elem) 1 0 o [1; 7] s);
    [reflexivity|reflexivity|owns_here|reflexivity].
Defined.

Lemma Vector_Swap_exchanges_witness :
  let a := mkVector (mkRaw (Some 0) 2) 2 in
  let b := mkVector (mkRaw (Some 1) 4) 1 in
  let s := mkState (T:=nat) {[0 := a; 1 := b]}
             {[0 := [Some 1; Some 7]; 1 := [Some 5; None; None; None]]} [] in
  ∃ s', Vector_Swap 0 1 s = Done tt s' ∧
        objs s' !! 0 = Some b ∧ objs s' !! 1 = Some a ∧
        owns s' b [5] ∧ owns s' a [1; 7] ∧
        Vector_Swap 0 1 s' = Done tt s.
Proof.
  intros a b s.
  destruct (Vector_Swap_exchanges 0 1 a b [1; 7] [5] s)
    as (s' & H1 & H2 & H3 & H4 & H5 & _ & _ & _ & H9);
    [done|reflexivity|reflexivity|owns_here|owns_here|].
  exists s'.
  split; [exact H1|]. split; [exact H2|]. split; [exact H3|]. split; [exact H4|].
  split; [exact H5|]. exact H9.
Defined.

Lemma Vector_move_assign_hands_over_witness :
  let v := mkVector (mkRaw (Some 0) 2) 2 in
  let r := mkVector (mkRaw (Some 1) 4) 1 in
  let s := mkState (T:=nat) {[0 := v; 1 := r]}
             {[0 := [Some 1; Some 7]; 1 := [Some 5; None; None; None]]} [] in
  ∃ s', Vector_move_assign 0 1 s = Done tt s' ∧
        objs s' !! 0 = Some r ∧ owns s' r [5] ∧
        objs s' !! 1 = Some v ∧ owns s' v [1; 7] ∧
        heap s' = heap s ∧ log s' = log s.
Proof.
  intros v r s.
  destruct (Vector_move_assign_hands_over 0 1 v r [1; 7] [5] s)
    as (Hne & _); [reflexivity|reflexivity|owns_here|owns_here|].
  destruct (Hne ltac:(done)) as (s' & H1 & H2 & H3 & H4 & H5 & _ & H7 & H8).
  exists s'.
  split; [exact H1|]. split; [exact H2|]. split; [exact H3|]. split; [exact H4|].
  split; [exact H5|]. split; [exact H7|]. exact H8.
Defined.



Lemma Resize_shrink_destroys_tail_witness :
  let v := mkVector (mkRaw (Some 0) 4) 2 in
  let s := mkState (T:=nat) {[0 := v]} {[0 := [Some 1; Some 7; None; None]]} [] in
  ∃ s', Resize (E:=tracked_elem) 0 1 s = Done tt s' ∧
        objs s' !! 0 = Some (mkVector (mkRaw (Some 0) 4) 1) ∧
        owns s' (mkVector (mkRaw (Some 0) 4) 1) [1] ∧
        log s' = [EvDtor 7].
Proof.
  intros v s.
  destruct (Resize_shrink_destroys_tail (E:=tracked_elem) 0 1 v [1; 7] s)
    as (s' & H1 & H2 & H3 & H4 & _); [reflexivity|owns_here|simpl; lia|].
  exists s'.
  split; [exact H1|]. split; [exact H2|]. split; [exact H3|]. exact H4.
Defined.

Lemma PopBack_removes_last_witness :
  let v := mkVector (mkRaw (Some 0) 4) 2 in
  let s := mkState (T:=nat) {[0 := v]} {[0 := [Some 1; Some 7; None; None]]} [] in
  ∃ s', PopBack 0 s = Done tt s' ∧
        objs s' !! 0 = Some (mkVector (mkRaw (Some 0) 4) 1) ∧
        owns s' (mkVector (mkRaw (Some 0) 4) 1) [1] ∧
        log s' = [EvDtor 7].
Proof.
  intros v s.
  destruct (PopBack_removes_last 0 v [1; 7] s) as (_ & Hpop); [reflexivity|owns_here|].
  destruct (Hpop [1] 7 eq_refl) as (s' & H1 & H2 & H3 & H4).
  exists s'.
  split; [exact H1|]. split; [exact H2|]. split; [exact H3|]. exact H4.
Defined.

Lemma PushBack_PopBack_roundtrip_witness :
  let v := mkVector (mkRaw (Some 0) 2) 2 in
  let s := mkState (T:=nat) {[0 := v]} {[0 := [Some 1; Some 7]]} [] in
  ∃ s1 s2 v2,
    PushBack (E:=tracked_elem) 0 9 s = Done tt s1 ∧ PopBack 0 s1 = Done tt s2 ∧
    objs s2 !! 0 = Some v2 ∧ owns s2 v2 [1; 7] ∧ Size v2 = 2 ∧ 2 ≤ Capacity v2.
Proof.
  intros v s.
  destruct (PushBack_PopBack_roundtrip (E:=tracked_elem) 0 v [1; 7] 9 s)
    as (s1 & s2 & v2 & l & H1 & H2 & H3 & H4 & H5 & H6 & _);
    [reflexivity|owns_here|reflexivity|reflexivity|].
  exists s1, s2, v2.
  split; [exact H1|]. split; [exact H2|]. split; [exact H3|]. split; [exact H4|].
  split; [exact H5|]. exact H6.
Defined.

Lemma EmplaceBack_returns_new_element_witness :
  let v := mkVector (mkRaw (Some 0) 4) 2 in
  let s := mkState (T:=nat) {[0 := v]} {[0 := [Some 1; Some 7; None; None]]} [] in
  ∃ p s' v',
    EmplaceBack (E:=tracked_elem) 0 (Pack (Some 9)) s = Done p s' ∧
    objs s' !! 0 = Some v' ∧ owns s' v' [1; 7; 9] ∧
    p = begin_ v' +ₚ 2 ∧ load p s' = Done 9 s'.
Proof.
  intros v s.
  destruct (EmplaceBack_returns_new_element (E:=tracked_elem) 0 (Pack (Some 9)) 9 (EvCtor 9)
              v [1; 7] s)
    as (p & s' & v' & H1 & H2 & H3 & H4 & H5 & _);
    [reflexivity|owns_here|reflexivity|reflexivity|].
  exists p, s', v'.
  split; [exact H1|]. split; [exact H2|]. split; [exact H3|]. split; [exact H4|].
  exact H5.
Defined.


Lemma PushBack_throw_keeps_vector_witness :
  let v := mkVector (mkRaw (Some 0) 2) 2 in
  let s := mkState (T:=nat) {[0 := v]} {[0 := [Some 1; Some 7]]} [] in
  ∃ s', PushBack (E:=copy_elem) 0 9 s = Throw s' ∧
        objs s' = objs s ∧ heap s' = heap s ∧
        log s' = [EvCopyCtor 9; EvCopyCtor 1; EvDtor 1].
Proof.
  intros v s.
  destruct (PushBack_throw_keeps_vector (E:=copy_elem) 0 9 v [1; 7] s)
    as (_ & Hreloc); [reflexivity|owns_here|].
  apply Hreloc; reflexivity.
Defined.

Lemma Vector_index_bounds_witness :
  let v := mkVector (mkRaw (Some 0) 4) 2 in
  let s := mkState (T:=nat) {[0 := v]} {[0 := [Some 1; Some 7; None; None]]} [] in
  Vector_index v 1 s = Done (Ptr (Some 0) 1) s ∧
  load (Ptr (Some 0) 1) s = Done 7 s ∧
  Vector_index v 2 s = Undefined.
Proof.
  intros v s.
  destruct (Vector_index_bounds v [1; 7] s 1) as (Hin & _); [owns_here|].
  destruct (Hin ltac:(vm_compute; lia)) as (x & Hx & H1 & H2).
  injection Hx as <-.
  destruct (Vector_index_bounds v [1; 7] s 2) as (_ & Hout & _); [owns_here|].
  split; [exact H1|]. split; [exact H2|]. apply Hout. vm_compute. lia.
Defined.

Lemma Emplace_inserts_witness :
  let v := mkVector (mkRaw (Some 0) 2) 2 in
  let s := mkState (T:=nat) {[0 := v]} {[0 := [Some 1; Some 7]]} [] in
  ∃ p s' v', Emplace (E:=tracked_elem) 0 (begin_ v +ₚ 1) (ConstLvalue 9) s = Done p s' ∧
             objs s' !! 0 = Some v' ∧ owns s' v' [1; 9; 7] ∧
             p = begin_ v' +ₚ 1 ∧ Size v' = 3 ∧ Capacity v' = 4.
Proof.
  intros v s.
  destruct (Emplace_inserts (E:=tracked_elem) 0 (ConstLvalue 9) v [1] [7] 9 (EvCopyCtor 9) s 0)
    as (Hgrow & _); [reflexivity|owns_here|reflexivity|reflexivity|].
  destruct (Hgrow eq_refl eq_refl) as (p & s' & v' & H1 & H2 & H3 & H4 & _ & H6 & H7 & _).
  exists p, s', v'.
  split; [exact H1|]. split; [exact H2|]. split; [exact H3|]. split; [exact H4|].
  split; [exact H6|]. exact H7.
Defined.

Lemma Emplace_on_empty_ignores_pos_witness :
  let v := mkVector RawMemory_default 0 in
  let s := mkState (T:=nat) {[0 := v]} ∅ [] in
  ∃ s' v', Emplace (E:=tracked_elem) 0 (Ptr (Some 5) 3) (Lvalue 9) s = Done (begin_ v') s' ∧
           objs s' !! 0 = Some v' ∧ owns s' v' [9] ∧
           log s' = [EvMoveCtor 9].
Proof.
  intros v s.
  destruct (Emplace_on_empty_ignores_pos (E:=tracked_elem) 0 (Ptr (Some 5) 3) (Lvalue 9)
              9 (EvMoveCtor 9) v s)
    as (s' & v' & H1 & H2 & H3 & _ & _ & H6 & _);
    [reflexivity|by repeat split|reflexivity|].
  exists s', v'.
  split; [exact H1|]. split; [exact H2|]. split; [exact H3|]. exact H6.
Defined.

Lemma Erase_removes_witness :
  let v := mkVector (mkRaw (Some 0) 4) 2 in
  let s := mkState (T:=nat) {[0 := v]} {[0 := [Some 1; Some 7; None; None]]} [] in
  ∃ s', Erase (E:=tracked_elem) 0 (begin_ v) s = Done (begin_ v) s' ∧
        objs s' !! 0 = Some (mkVector (mkRaw (Some 0) 4) 1) ∧
        owns s' (mkVector (mkRaw (Some 0) 4) 1) [7] ∧
        log s' = [EvMoveAssign 7; EvDtor 0].
Proof.
  intros v s.
  destruct (Erase_removes (E:=tracked_elem) 0 v [] 1 [7] s 0) as (Hok & _);
    [reflexivity|owns_here|reflexivity|].
  destruct (Hok ltac:(simpl; lia) eq_refl) as (s' & H1 & H2 & H3 & H4 & _).
  exists s'.
  split; [exact H1|]. split; [exact H2|]. split; [exact H3|]. exact H4.
Defined.

Lemma mutators_never_shrink_capacity_witness :
  let v := mkVector (mkRaw (Some 0) 2) 2 in
  let s := mkState (T:=nat) {[0 := v]} {[0 := [Some 1; Some 7]]} [] in
  ∃ s' v', run_op (E:=tracked_elem) (OpPushBack 0 9) s = Done tt s' ∧
           objs s' !! 0 = Some v' ∧ Size v' = 3 ∧ 2 ≤ Capacity v'.
Proof.
  intros v s.
  edestruct (mutators_never_shrink_capacity (E:=tracked_elem) (OpPushBack 0 9) 0 v s)
    as (v' & H1 & H2 & H3 & _);
    [store_inv_one [1; 7]|done|reflexivity|reflexivity|by_running|].
  eexists _, v'. split; [by_running|]. by repeat split.
Defined.

Lemma Vector_copy_assign_realloc_strong_witness :
  let r := mkVector (mkRaw (Some 0) 2) 2 in
  let v := mkVector (mkRaw (Some 1) 1) 1 in
  let s := mkState (T:=nat) {[0 := r; 1 := v]}
             {[0 := [Some 1; Some 7]; 1 := [Some 5]]} [] in
  ∃ s', Vector_copy_assign (E:=copy_elem) 1 0 s = Throw s' ∧
        objs s' = objs s ∧ heap s' = heap s ∧
        log s' = [EvCopyCtor 1; EvDtor 1].
Proof.
  intros r v s.
  destruct (Vector_copy_assign_realloc_strong (E:=copy_elem) 1 0 v r [5] [1; 7] s)
    as (s' & H1 & H2 & H3 & _ & _ & H6);
    [done|reflexivity|reflexivity|owns_here|owns_here|simpl; lia|reflexivity|].
  exists s'.
  split; [exact H1|]. split; [exact H2|]. split; [exact H3|]. exact H6.
Defined.


Lemma run_op_leaks_no_block_witness :
  let v := mkVector (mkRaw (Some 0) 2) 2 in
  let s := mkState (T:=nat) {[0 := v]} {[0 := [Some 1; Some 7]]} [] in
  ∃ s', run_op (E:=tracked_elem) (OpDtor 0) s = Done tt s' ∧
        blocks_owned s' ∧ heap s' = ∅.
Proof.
  intros v s.
  eexists. split; [by_running|]. split; [|by_running].
  apply (run_op_leaks_no_block (E:=tracked_elem) (OpDtor 0) s);
    [store_inv_one [1; 7]| |done|by_running].
  intros a [cells Ha]. lookup_cases Ha. by exists 0, v.
Defined.
